(** * mpnum: local POVMs, matrix-product POVMs and estimation

    A shallow embedding of [mpnum/povm.py] (local POVM tables) and
    [mpnum/povm/mppovm.py] (classes [MPPovm] and [MPPovmList]).

    Numbers.  The Python code computes with IEEE doubles and numpy complex
    numbers.  The development idealises them as the real numbers of the
    Standard Library ([R]) and pairs of reals; rounding is outside the model.

    Failures.  Python exceptions are values of [exn]; a call either returns
    or raises ([result]). *)

From Stdlib Require Import String.
From Stdlib Require Import List Arith Lia Bool.
From Stdlib Require Import Reals Lra.
Import ListNotations.

Set Implicit Arguments.

(** ** Exceptions and the result of a call *)

Inductive exn : Type :=
| AssertionError
| ValueError
| NameError
| AttributeError
| IndexError
| TypeError
| ZeroDivisionError.

Inductive result (A : Type) : Type :=
| Ok (a : A)
| Raise (e : exn).

Arguments Ok {A} a.
Arguments Raise {A} e.

Definition bind {A B : Type} (r : result A) (k : A -> result B) : result B :=
  match r with
  | Ok a => k a
  | Raise e => Raise e
  end.

(** [assert c] of Python: continue when [c] holds, raise otherwise. *)
Definition assert (c : bool) : result unit :=
  if c then Ok tt else Raise AssertionError.

Declare Scope py_scope.
Delimit Scope py_scope with py.
Notation "x <- r ;; k" := (bind r (fun x => k))
  (at level 61, r at next level, right associativity) : py_scope.
Notation "r ;;; k" := (bind r (fun _ => k))
  (at level 61, right associativity) : py_scope.

(** ** Complex numbers as pairs of reals *)

Module Cplx.
Local Open Scope R_scope.

Definition C : Type := (R * R)%type.

Definition re (z : C) : R := fst z.
Definition im (z : C) : R := snd z.
Definition RtoC (x : R) : C := (x, 0).
Definition C0 : C := (0, 0).
Definition C1 : C := (1, 0).
Definition Ci : C := (0, 1).
Definition Cadd (a b : C) : C := (re a + re b, im a + im b).
Definition Copp (a : C) : C := (- re a, - im a).
Definition Cmul (a b : C) : C :=
  (re a * re b - im a * im b, re a * im b + im a * re b).
Definition Cconj (a : C) : C := (re a, - im a).
(** [z * x] and [z / x] for a real [x]. *)
Definition Cscale (x : R) (a : C) : C := (x * re a, x * im a).
Definition Cdiv_real (a : C) (x : R) : C := (re a / x, im a / x).
(** [|z|^2] and [abs(z)]. *)
Definition Cnormsq (a : C) : R := re a * re a + im a * im a.
Definition Cabs (a : C) : R := sqrt (Cnormsq a).

Fixpoint Csum (l : list C) : C :=
  match l with
  | [] => C0
  | z :: l' => Cadd z (Csum l')
  end.

Fixpoint Rsum (l : list R) : R :=
  match l with
  | [] => 0
  | x :: l' => x + Rsum l'
  end.

End Cplx.

(** ** Local POVMs ([mpnum/povm.py])

    A numpy matrix is the list of its rows.  [vectors] has one row of
    length [d] per element, [elements] one row of length [d^2]. *)

Module LocalPovm.
Import Cplx.
Local Open Scope R_scope.

Abbreviation matrix := (list (list C)) (only parsing).

(** [np.zeros([n, m])] *)
Definition zeros (n m : nat) : matrix := List.repeat (List.repeat C0 m) n.

(** [l[n] = v]; the loops below never write outside the array. *)
Fixpoint upd {A : Type} (l : list A) (n : nat) (v : A) : list A :=
  match l, n with
  | [], _ => []
  | _ :: l', O => v :: l'
  | x :: l', S n' => x :: upd l' n' v
  end.

(** [M[k, i] = v] *)
Definition set_entry (M : matrix) (k i : nat) (v : C) : matrix :=
  upd M k (upd (nth k M []) i v).

(** [M * x] and [M / x], entry by entry, for a real [x]. *)
Definition mscale (x : R) (M : matrix) : matrix := map (map (Cscale x)) M.
Definition mdiv (M : matrix) (x : R) : matrix :=
  map (map (fun z => Cdiv_real z x)) M.

(** [np.outer(vec, vec.conj()).reshape(d**2)] *)
Definition outer_flat (vec : list C) : list C :=
  flat_map (fun a => map (fun b => Cmul a (Cconj b)) vec) vec.

Record povm : Type := MkPovm {
  vectors : matrix;
  elements : matrix
}.

(** [Base._init_elements_from_vectors]: the loop over [k] writes row [k]
    of [elements] from row [k] of [vectors]. *)
Definition init_elements_from_vectors (vecs : matrix) : povm :=
  MkPovm vecs (map outer_flat vecs).

(** The loop body shared by [X.__init__] and [Y.__init__]: two rows per
    pair [i < j]; they differ in the entries [plus] and [minus] written at
    column [j] ([1], [-1] for X; [1j], [-1j] for Y). *)
Definition pair_body (plus minus : C) (i : nat) (st : matrix * nat) (j : nat)
  : matrix * nat :=
  let '(v, k) := st in
  let v := set_entry v k i C1 in
  let v := set_entry v k j plus in
  let k := (k + 1)%nat in
  let v := set_entry v k i C1 in
  let v := set_entry v k j minus in
  (v, (k + 1)%nat).

(** [for i in range(d-1): for j in range(i + 1, d): ...], started on the
    zero array with [k = 0]. *)
Definition pair_loop (plus minus : C) (d : nat) : matrix * nat :=
  fold_left
    (fun st i => fold_left (pair_body plus minus i)
                           (seq (i + 1) (d - (i + 1))) st)
    (seq 0 (d - 1))
    (zeros (d * (d - 1)) d, 0%nat).

Definition pair_povm (plus minus : C) (d : nat) : povm :=
  let vecs := fst (pair_loop plus minus d) in
  init_elements_from_vectors (mdiv vecs (sqrt (INR (2 * (d - 1))))).

Definition X (d : nat) : povm := pair_povm C1 (Copp C1) d.

Definition Y (d : nat) : povm := pair_povm Ci (Copp Ci) d.

Definition Z (d : nat) : povm :=
  let vecs :=
    fold_left (fun v i => set_entry v i i C1) (seq 0 d) (zeros d d) in
  init_elements_from_vectors vecs.

(** [Combined._init_combined]: both tables are concatenated, each part
    multiplied by its weight. *)
Definition init_combined (povms : list (nat -> povm)) (weights : list R)
  (d : nat) : povm :=
  let built := map (fun p => p d) povms in
  MkPovm
    (concat (map (fun pw => mscale (snd pw) (vectors (fst pw)))
                 (combine built weights)))
    (concat (map (fun pw => mscale (snd pw) (elements (fst pw)))
                 (combine built weights))).

Definition PauliGen (d : nat) : povm :=
  if (d =? 2)%nat
  then init_combined [X; Y; Z] [1 / 3; 1 / 3; 1 / 3] d
  else init_combined [X; Y] [1 / 2; 1 / 2] d.

(** The sum of the elements, entry [q] of the flattened operator, and the
    flattened [d]-dimensional identity. *)
Definition elem_sum (elems : matrix) (q : nat) : C :=
  Csum (map (fun row => nth q row C0) elems).

Definition eye_flat (d q : nat) : C :=
  if (q / d =? q mod d)%nat then C1 else C0.

(** Closed form of the loop of [X] and [Y]: the pairs [i < j] in loop
    order, and the two rows the body writes for a pair. *)
Definition pairs (d : nat) : list (nat * nat) :=
  flat_map (fun i => map (fun j => (i, j)) (seq (i + 1) (d - (i + 1))))
           (seq 0 (d - 1)).

Definition pair_step (plus minus : C) (st : matrix * nat) (p : nat * nat)
  : matrix * nat :=
  pair_body plus minus (fst p) st (snd p).

Definition unit_row (d i j : nat) (y : C) : list C :=
  upd (upd (List.repeat C0 d) i C1) j y.

Definition rows_of (plus minus : C) (d : nat) (ps : list (nat * nat))
  : matrix :=
  flat_map (fun p => [unit_row d (fst p) (snd p) plus;
                      unit_row d (fst p) (snd p) minus]) ps.

(** How often the index pair [(a, b)] is hit by the diagonal entries of
    the pair [(i, j)]. *)
Definition hits (a b : nat) (p : nat * nat) : nat :=
  ((if (a =? fst p) && (b =? fst p) then 1 else 0)
   + (if (a =? snd p) && (b =? snd p) then 1 else 0))%nat.

(** [Base.probability_map]: the conjugate of [elements] (computed at the
    first use and kept). *)
Definition probability_map (p : povm) : matrix := map (map Cconj) (elements p).

End LocalPovm.

(** ** The tensor train: an [MPArray] is its list of local tensors

    [mpnum/mparray.py] is not part of the sources.  What [mppovm.py] uses
    of it is modelled from its uses and from the interface description:
    a local tensor has a left bond, physical legs and a right bond. *)

Module Train.
Import Cplx.

Record ltens : Type := MkLtens {
  ldim : nat;                       (* shape[0], left bond *)
  pdim : list nat;                  (* shape[1:-1], physical legs *)
  rdim : nat;                       (* shape[-1], right bond *)
  lval : nat -> list nat -> nat -> C
}.

Definition MPArray : Type := list ltens.

Definition len (mpa : MPArray) : nat := length mpa.

(** [mpa.plegs]: number of physical legs per site. *)
Definition plegs (mpa : MPArray) : list nat :=
  map (fun lt => length (pdim lt)) mpa.

(** [mpa.pdims]: physical dimensions per site. *)
Definition pdims (mpa : MPArray) : list (list nat) := map pdim mpa.

(** Modelled from the spec: [MPArray.bdims], the bond dimensions between
    neighbouring sites (one entry less than there are sites). *)
Definition bdims (mpa : MPArray) : list nat := map rdim (removelast mpa).

(** Modelled from the spec: [MPArray.from_kron], one site with trivial
    bonds per Kronecker factor.  A factor is a dense array: its shape and
    its entries. *)
Definition from_kron (factors : list (list nat * (list nat -> C))) : MPArray :=
  map (fun f => MkLtens 1 (fst f) 1 (fun _ idx _ => snd f idx)) factors.

(** Modelled from the spec: [mp.outer], the tensor product of a sequence of
    arrays, is the concatenation of their local tensors (the test
    [test_outer] checks the length and the bond dimensions). *)
Definition outer (mpas : list MPArray) : MPArray := concat mpas.

(** *** class MPPovm *)

(** [lt.shape[1]] and [lt.shape[2]] of a local tensor. *)
Definition shape (lt : ltens) : list nat := ldim lt :: pdim lt ++ [rdim lt].

Definition outdims (self : MPArray) : list nat :=
  map (fun lt => nth 1 (shape lt) 0) self.

Definition nsoutdims (self : MPArray) : list nat :=
  filter (fun d => 1 <? d) (outdims self).

Definition hdims (self : MPArray) : list nat :=
  map (fun lt => nth 2 (shape lt) 0) self.

(** The two assertions of [MPPovm.__init__]. *)
Definition three_legs (self : MPArray) : bool :=
  forallb (fun n => n =? 3) (plegs self).

Definition hilbert_match (self : MPArray) : bool :=
  forallb (fun pd => nth 1 pd 0 =? nth 2 pd 0) (pdims self).

Local Open Scope py_scope.

Definition MPPovm_init (ltens_ : MPArray) : result MPArray :=
  assert (three_legs ltens_) ;;;
  assert (hilbert_match ltens_) ;;;
  Ok ltens_.

(** [np.eye(dim).reshape((1, dim, dim))] *)
Definition eye_factor (dim : nat) : list nat * (list nat -> C) :=
  ([1; dim; dim],
   fun idx => if nth 1 idx 0 =? nth 2 idx 0 then C1 else C0).

(** [cls.from_kron(...)] builds the sites and hands them to the
    constructor of [cls]. *)
Definition eye_sites (local_dims : list nat) : MPArray :=
  from_kron (map eye_factor local_dims).

Definition eye (local_dims : list nat) : result MPArray :=
  MPPovm_init (eye_sites local_dims).

Definition embed (self : MPArray) (nr_sites startsite local_dim : nat)
  : result MPArray :=
  left <- eye (List.repeat local_dim startsite) ;;
  let n_right := nr_sites - len self - startsite in
  right <- eye (List.repeat local_dim n_right) ;;
  MPPovm_init (outer [left; self; right]).

(** A list of results, evaluated in order; the first failure is raised. *)
Fixpoint sequence {A : Type} (l : list (result A)) : result (list A) :=
  match l with
  | [] => Ok []
  | r :: l' => a <- r ;; t <- sequence l' ;; Ok (a :: t)
  end.

(** What [MPPovmList.__init__] is handed: a plain [MPArray] or an object
    that already is an [MPPovm]. *)
Inductive member : Type :=
| IsMPPovm (mpp : MPArray)
| IsMPArray (mpa : MPArray).

Definition member_sites (m : member) : MPArray :=
  match m with IsMPPovm a => a | IsMPArray a => a end.

(** [MPPovmList.__init__]: all members have the length of the first one;
    members that are not yet [MPPovm]s go through the constructor. *)
Definition MPPovmList_init (mppseq : list member) : result (list MPArray) :=
  assert (forallb (fun mpp => len (member_sites mpp)
                              =? len (member_sites (hd (IsMPArray []) mppseq)))
                  mppseq) ;;;
  sequence (map (fun mpp => match mpp with
                            | IsMPPovm a => Ok a
                            | IsMPArray a => MPPovm_init a
                            end) mppseq).

Definition block (self : MPArray) (nr_sites : nat) : result (list MPArray) :=
  match hdims self with
  | [] => Raise IndexError
  | local_dim :: _ =>
      assert (forallb (fun d => d =? local_dim) (hdims self)) ;;;
      mpps <- sequence (map (fun startsite =>
                               embed self nr_sites startsite local_dim)
                            (seq 0 (nr_sites + 1 - len self))) ;;
      MPPovmList_init (map IsMPPovm mpps)
  end.

(** [MPArray(self[:n_last])]: the first [n_last] local tensors. *)
Definition repeat (self : MPArray) (nr_sites : nat) : result MPArray :=
  if len self =? 0 then Raise ZeroDivisionError else
  let n_repeat := nr_sites / len self in
  let n_last := nr_sites mod len self in
  (if 0 <? n_last
   then match nth_error (bdims self) (n_last - 1) with
        | Some b => assert (b =? 1)
        | None => Raise IndexError
        end
   else Ok tt) ;;;
  MPPovm_init (outer (List.repeat self n_repeat
                      ++ (if 0 <? n_last then [firstn n_last self] else []))).

(** *** Measurement evaluation *)

(** [self.transpose((0, 2, 1)).reshape((pdim[0], -1) for pdim in self.pdims)]:
    per site the two Hilbert legs are swapped and merged into one leg. *)
Definition probability_map (self : MPArray) : MPArray :=
  map (fun lt =>
         let d1 := nth 1 (pdim lt) 0 in
         let d2 := nth 2 (pdim lt) 0 in
         MkLtens (ldim lt) [nth 0 (pdim lt) 0; d2 * d1] (rdim lt)
           (fun a idx b =>
              lval lt a [nth 0 idx 0; nth 1 idx 0 mod d1; nth 1 idx 0 / d1] b))
      self.

(** The state-reduction collaborator ([mpnum.mpsmpo]) and the two
    tensor-train primitives [mp.dot] and [MPArray.ravel]; none of them is
    part of the sources, so they are an interface here. *)
Class StateReduction : Type := {
  reductions_mps_as_pmps : MPArray -> nat -> list MPArray;
  reductions_mpo : MPArray -> nat -> list MPArray;
  reductions_pmps : MPArray -> nat -> list MPArray;
  pmps_to_mpo : MPArray -> MPArray;
  dot : MPArray -> MPArray -> MPArray;
  ravel : MPArray -> MPArray
}.

(** A generator that has been run to its end: the values it yielded, and
    the exception that ended it ([None] for a normal end). *)
Definition generated (A : Type) : Type := (list A * option exn)%type.

(** The mode [expectations] works with after the ['auto'] branch. *)
Definition resolve_mode (mpa : MPArray) (mode : string) : string :=
  if String.eqb mode "auto" then
    if forallb (fun pleg => pleg =? 1) (plegs mpa) then "mps"%string
    else if forallb (fun pleg => pleg =? 2) (plegs mpa) then "mpdo"%string
    else mode
  else mode.

Definition expectations `{StateReduction} (self mpa : MPArray) (mode : string)
  : generated MPArray :=
  if negb (len self <=? len mpa) then ([], Some AssertionError) else
  let mode := resolve_mode mpa mode in
  let pmap := probability_map self in
  if String.eqb mode "mps" then
    (map (fun psi_red => dot pmap (ravel (pmps_to_mpo psi_red)))
         (reductions_mps_as_pmps mpa (len self)), None)
  else if String.eqb mode "mpdo" then
    (map (fun rho_red => dot pmap (ravel rho_red))
         (reductions_mpo mpa (len self)), None)
  else if String.eqb mode "pmps" then
    (map (fun psi_red => dot pmap (ravel (pmps_to_mpo psi_red)))
         (reductions_pmps mpa (len self)), None)
  else ([], Some ValueError).

(** *** class MPPovmList: estimation *)

(** The methods class [MPPovm] defines, by name.  Looking up any other
    name on an [MPPovm] falls through to the base class [MPArray]. *)
Inductive mppovm_method : Type :=
| M_outdims | M_nsoutdims | M_hdims | M_elements | M_probability_map
| M_from_local_povm | M_eye | M_embed | M_block | M_repeat
| M_expectations | M_probab | M_find_matching_elements
| M_sample_cond_single | M_sample_cond | M_sample_direct | M_sample
| M_est_fun | M_estfun_from_estimator | M_fill_out_holes
| M_elemsum_identity | M_counts_from | M_count_samples
| M_estprob_from_mpplist.

Definition MPPovm_dict : list (string * mppovm_method) :=
  [ ("outdims", M_outdims); ("nsoutdims", M_nsoutdims); ("hdims", M_hdims);
    ("elements", M_elements); ("probability_map", M_probability_map);
    ("from_local_povm", M_from_local_povm); ("eye", M_eye);
    ("embed", M_embed); ("block", M_block); ("repeat", M_repeat);
    ("expectations", M_expectations); ("probab", M_probab);
    ("find_matching_elements", M_find_matching_elements);
    ("_sample_cond_single", M_sample_cond_single);
    ("_sample_cond", M_sample_cond); ("_sample_direct", M_sample_direct);
    ("sample", M_sample); ("est_fun", M_est_fun);
    ("_estfun_from_estimator", M_estfun_from_estimator);
    ("_fill_out_holes", M_fill_out_holes);
    ("_elemsum_identity", M_elemsum_identity);
    ("counts_from", M_counts_from); ("count_samples", M_count_samples);
    ("estprob_from_mpplist", M_estprob_from_mpplist) ]%string.

Fixpoint lookup {A : Type} (name : string) (d : list (string * A)) : option A :=
  match d with
  | [] => None
  | (k, v) :: d' => if String.eqb name k then Some v else lookup name d'
  end.

(** Attribute lookup on an [MPPovm] instance: the class itself, then the
    names the base class [MPArray] provides. *)
Inductive attribute : Type :=
| OwnMethod (m : mppovm_method)
| Inherited (name : string).

(** Modelled from the spec: the attributes of the base class [MPArray]
    (the tensor-train algebra, whose source is not available), as far as
    [mppovm.py] uses them. *)
Definition MPArray_names : list string :=
  [ "plegs"; "pdims"; "bdims"; "paxis_iter"; "transpose"; "reshape";
    "from_kron"; "from_array"; "conj"; "sum"; "ravel"; "to_array";
    "to_array_global" ]%string.

Definition getattr (name : string) : result attribute :=
  match lookup name MPPovm_dict with
  | Some m => Ok (OwnMethod m)
  | None => if existsb (String.eqb name) MPArray_names
            then Ok (Inherited name) else Raise AttributeError
  end.

(** A generator body [for x in xs: yield f(x)], run to its end. *)
Fixpoint yield_each {A B : Type} (f : A -> result B) (xs : list A)
  : generated B :=
  match xs with
  | [] => ([], None)
  | x :: xs' =>
      match f x with
      | Ok y => let (ys, e) := yield_each f xs' in (y :: ys, e)
      | Raise e => ([], Some e)
      end
  end.

(** [MPPovmList.estprob_from].  [estprob_from_mpplist] stands for the
    method of that name of class [MPPovm]; calling an attribute that is not
    a method taking [(other, samples, eps)] is a [TypeError]. *)
Definition estprob_from {Samples Estimate : Type}
  (estprob_from_mpplist :
     MPArray -> list MPArray -> Samples -> R -> result Estimate)
  (self other : list MPArray) (samples : Samples) (eps : R)
  : generated Estimate :=
  match self, other with
  | [], _ => ([], Some IndexError)
  | _, [] => ([], Some IndexError)
  | s0 :: _, o0 :: _ =>
      if negb (len s0 =? len o0) then ([], Some AssertionError) else
      yield_each
        (fun mpp =>
           m <- getattr "estprob_from_mpps" ;;
           match m with
           | OwnMethod M_estprob_from_mpplist =>
               estprob_from_mpplist mpp other samples eps
           | _ => Raise TypeError
           end)
        self
  end.

(** *** class MPPovmList: structure *)

(** Python's [zip] applied to a sequence of sequences: the tuples of the
    entries at equal positions, as many as the shortest sequence has;
    nothing at all for no sequence. *)
Definition zip_star {A : Type} (lists : list (list A)) : list (list A) :=
  match lists with
  | [] => []
  | l0 :: _ =>
      map (fun k => flat_map (fun l => match nth_error l k with
                                       | Some x => [x]
                                       | None => []
                                       end) lists)
          (seq 0 (fold_right Nat.min (length l0) (map (@length _) lists)))
  end.

(** [MPPovmList.block]: every member is blocked (the unpacking runs through
    all members first), the lists are zipped and the tuples chained. *)
Definition MPPovmList_block (self : list MPArray) (nr_sites : nat)
  : result (list MPArray) :=
  blocks <- sequence (map (fun m => block m nr_sites) self) ;;
  MPPovmList_init (map IsMPPovm (concat (zip_star blocks))).

(** [MPPovmList.repeat] *)
Definition MPPovmList_repeat (self : list MPArray) (nr_sites : nat)
  : result (list MPArray) :=
  mpps <- sequence (map (fun m => repeat m nr_sites) self) ;;
  MPPovmList_init (map IsMPPovm mpps).

End Train.

(** ** What an MP-POVM denotes: outcome shape and element table

    The tensor-train algebra ([mp.dot], [mp.prune], [mp.norm],
    [mp.inner], [to_array], ...) is not part of the sources and is
    specified as exact.  The functions of [mppovm.py] that compute with
    numbers are therefore modelled on the dense arrays the tensor trains
    denote: an MP-POVM is its tuple of outcome dimensions, its tuple of
    Hilbert dimensions, and for every outcome multi-index (one entry per
    site) the flattened operator, entry [q] for [q < D * D] with [D] the
    product of the Hilbert dimensions. *)

Module Dense.
Import Cplx.
Local Open Scope R_scope.
Local Open Scope py_scope.

(** Comparisons of reals as booleans (decided by the order of [R]). *)
Definition Rleb (x y : R) : bool := if Rle_dec x y then true else false.
Definition Rltb (x y : R) : bool := if Rlt_dec x y then true else false.

(** A numpy array: its shape and its entries. *)
Record ndarray (A : Type) : Type := MkArr {
  shape : list nat;
  at_ : list nat -> A
}.

Arguments MkArr {A} shape at_.
Arguments shape {A} n.
Arguments at_ {A} n idx.

(** All multi-indices of a shape, in row-major order (the order of
    [np.argwhere] and of [np.unravel_index]). *)
Fixpoint indices (shp : list nat) : list (list nat) :=
  match shp with
  | [] => [[]]
  | d :: shp' => flat_map (fun i => map (cons i) (indices shp')) (seq 0 d)
  end.

Record MPPovm : Type := MkMPPovm {
  outdims : list nat;
  hdims : list nat;
  elem : list nat -> nat -> C
}.

Definition len (self : MPPovm) : nat := length (outdims self).

(** Number of entries of a flattened operator. *)
Definition hsize (self : MPPovm) : nat :=
  let D := fold_right Nat.mul 1%nat (hdims self) in (D * D)%nat.

Definition nsoutdims (self : MPPovm) : list nat :=
  filter (fun d => (1 <? d)%nat) (outdims self).

(** [tuple(pos for pos, dim in enumerate(self.outdims) if dim > 1)] *)
Definition support (self : MPPovm) : list nat :=
  map fst (filter (fun pd => (1 <? snd pd)%nat)
                  (combine (seq 0 (len self)) (outdims self))).

(** Modelled from the spec: [mp.prune(..., singletons=True)] drops the
    sites all of whose physical legs have dimension one. *)
Definition prune1 (dims : list nat) : list nat :=
  filter (fun d => negb (d =? 1)%nat) dims.

Definition prune2 (dims : list (nat * nat)) : list (nat * nat) :=
  filter (fun ab => negb ((fst ab =? 1) && (snd ab =? 1))%nat) dims.

(** The index on all sites that a pruned index stands for: [0] on the
    dropped sites. *)
Fixpoint unprune (dims : list nat) (idx : list nat) : list nat :=
  match dims with
  | [] => []
  | d :: dims' =>
      if (d =? 1)%nat then 0%nat :: unprune dims' idx
      else match idx with
           | x :: idx' => x :: unprune dims' idx'
           | [] => 0%nat :: unprune dims' []
           end
  end.

(** [mp.inner(a, b)]: the sum of [conj(a[q]) * b[q]]. *)
Definition inner_prod (n : nat) (a b : nat -> C) : C :=
  Csum (map (fun q => Cmul (Cconj (a q)) (b q)) (seq 0 n)).

(** *** find_matching_elements *)

(** The outcomes of [other] that are summed into outcome [j] of the
    reduced POVM: on a site that is kept the outcome of [j], on a site
    that is not kept every outcome. *)
Fixpoint completions (keep : list bool) (odims j : list nat)
  : list (list nat) :=
  match keep, odims, j with
  | k :: keep', od :: odims', x :: j' =>
      if k then map (cons x) (completions keep' odims' j')
      else flat_map (fun y => map (cons y) (completions keep' odims' j'))
                    (seq 0 od)
  | _, _, _ => [[]]
  end.

(** Outcome dimensions after the reduction: [1] on the sites that are not
    kept. *)
Definition reduced_dims (keep : list bool) (ods : list nat) : list nat :=
  map (fun kd : bool * nat => if fst kd then snd kd else 1%nat)
      (combine keep ods).

(** [MPPovm(mp.dot(tr, other))], where [tr] has [np.eye(outdim)] on the
    kept sites and [np.ones((1, outdim))] on the others. *)
Definition reduce_other (keep : list bool) (other : MPPovm) : MPPovm :=
  MkMPPovm
    (reduced_dims keep (outdims other))
    (hdims other)
    (fun j q => Csum (map (fun j' => elem other j' q)
                          (completions keep (outdims other) j))).

Definition list_nat_eqb (l1 l2 : list nat) : bool :=
  if list_eq_dec Nat.eq_dec l1 l2 then true else false.

(** Squared norm of the element with pruned index [i]. *)
Definition normsq (p : MPPovm) (i : list nat) : R :=
  let e := elem p (unprune (outdims p) i) in
  re (inner_prod (hsize p) e e).

(** [abs(<self_i, other_j>)**2] for pruned indices [i], [j]. *)
Definition inner_abs2 (self other : MPPovm) (i j : list nat) : R :=
  Cnormsq (inner_prod (hsize self)
                      (elem self (unprune (outdims self) i))
                      (elem other (unprune (outdims other) j))).

Definition count_true (l : list bool) : nat :=
  length (filter (fun b => b) l).

(** [np.outer(snormsq, onormsq)] at [(i, j)], the match test and the
    prefactor, for pruned indices [i] of [self] and [j] of the reduced
    [other]. *)
Definition normprod (self other : MPPovm) (i j : list nat) : R :=
  normsq self i * normsq other j.

Definition cs_gap (self other : MPPovm) (i j : list nat) : R :=
  (normprod self other i j - inner_abs2 self other i j)
  / normprod self other i j.

Definition is_match (self other : MPPovm) (eps : R) (i j : list nat) : bool :=
  Rleb (Rabs (inner_abs2 self other i j / normprod self other i j - 1)) eps.

(** The two arrays that are returned; the index is [i] followed by [j]. *)
Definition match_array (self other : MPPovm) (eps : R) : ndarray bool :=
  let n := length (prune1 (outdims self)) in
  MkArr (prune1 (outdims self) ++ prune1 (outdims other))
        (fun idx => is_match self other eps (firstn n idx) (skipn n idx)).

Definition prefactor_array (self other : MPPovm) (eps : R)
  : ndarray (option R) :=
  let n := length (prune1 (outdims self)) in
  MkArr (prune1 (outdims self) ++ prune1 (outdims other))
        (fun idx =>
           let i := firstn n idx in
           let j := skipn n idx in
           (* [prefactors[~match] = np.nan] *)
           if is_match self other eps i j
           then Some (sqrt (normsq self i / normsq other j))
           else None).

(** Shape of [mp.prune(inner, True).to_array_global()]: the sites where
    not both outcome legs are singletons, first legs first. *)
Definition inner_shape (self other : MPPovm) : list nat :=
  let kept := prune2 (combine (outdims self) (outdims other)) in
  map fst kept ++ map snd kept.

Definition find_matching_elements (self other : MPPovm)
  (exclude_dup : list string) (eps : R)
  : result (ndarray bool * ndarray (option R)) :=
  if negb (list_nat_eqb (hdims self) (hdims other)) then Raise ValueError else
  (* [exclude_duplicates] is not a name in scope *)
  (if (0 <? length exclude_dup)%nat then Raise NameError else Ok tt) ;;;
  let keep_outdims := map (fun outdim => (1 <? outdim)%nat) (outdims self) in
  let other := reduce_other keep_outdims other in
  let sshape := prune1 (outdims self) in
  let oshape := prune1 (outdims other) in
  assert (forallb (fun i => Rltb 0 (normsq self i)) (indices sshape)) ;;;
  assert (forallb (fun j => Rltb 0 (normsq other j)) (indices oshape)) ;;;
  assert (list_nat_eqb (inner_shape self other) (sshape ++ oshape)) ;;;
  assert (forallb (fun i =>
            forallb (fun j => Rleb (- eps) (cs_gap self other i j))
                    (indices oshape))
            (indices sshape)) ;;;
  (if existsb (String.eqb "self") exclude_dup
   then assert (forallb (fun j =>
                  (count_true (map (fun i => is_match self other eps i j)
                                   (indices sshape)) <=? 1)%nat)
                  (indices oshape))
   else Ok tt) ;;;
  (if existsb (String.eqb "other") exclude_dup
   then assert (forallb (fun i =>
                  (count_true (map (fun j => is_match self other eps i j)
                                   (indices oshape)) <=? 1)%nat)
                  (indices sshape))
   else Ok tt) ;;;
  Ok (match_array self other eps, prefactor_array self other eps).

(** The default [eps=1e-10] of the keyword arguments. *)
Definition eps10 : R := / 10 ^ 10.

(** *** _elemsum_identity *)

(** [factory.eye(len(self), self.hdims)], flattened. *)
Definition eye_op (self : MPPovm) (q : nat) : C :=
  let D := fold_right Nat.mul 1%nat (hdims self) in
  if (q / D =? q mod D)%nat then C1 else C0.

(** [mp.norm]: the square root of the inner product with itself. *)
Definition norm (n : nat) (a : nat -> C) : R := sqrt (re (inner_prod n a a)).

(** The entries of a multi-index at the positions [support]. *)
Definition select (support i : list nat) : list nat :=
  map (fun pos => nth pos i 0%nat) support.

Definition Reqb (x y : R) : bool := if Req_dec_T x y then true else false.

(** [mp.dot(given, self)] after [_fill_out_holes]: [given] is a boolean
    array over the measured sites; it is extended by ones over the other
    sites, so the elements whose outcome is selected on [support] are
    summed. *)
Definition masked_sum (self : MPPovm) (support : list nat)
  (given : ndarray bool) (q : nat) : C :=
  Csum (map (fun i => if at_ given (select support i)
                      then elem self i q else C0)
            (indices (outdims self))).

(** A zero [norm_prod] makes the quotient a NaN, for which the assertion
    on it fails. *)
Definition elemsum_identity (self : MPPovm) (support : list nat)
  (given : ndarray bool) (eps : R) : result (option R) :=
  let flags := map (at_ given) (indices (shape given)) in
  assert (existsb (fun b => b) flags) ;;;
  let any_missing := negb (forallb (fun b => b) flags) in
  assert (length support =? length (shape given))%nat ;;;
  assert (forallb (fun pd => (snd pd =? nth (fst pd) (outdims self) 0))%nat
                  (combine support (shape given))) ;;;
  let elem_sum := masked_sum self support given in
  let n := hsize self in
  let sum_norm := norm n elem_sum in
  let eye_norm := norm n (eye_op self) in
  let norm_prod := sum_norm * eye_norm in
  let inner := Cabs (inner_prod n elem_sum (eye_op self)) in
  assert (negb (Reqb norm_prod 0)) ;;;
  assert (Rleb (- eps) ((norm_prod - inner) / norm_prod)) ;;;
  if Rltb eps ((norm_prod - inner) / norm_prod) then Ok None else
  let all_prefactor := sum_norm / eye_norm in
  (if any_missing
   then assert (Rltb all_prefactor (1 + eps))
   else assert (Rleb (Rabs (all_prefactor - 1)) eps)) ;;;
  Ok (Some all_prefactor).

(** *** Samples and counts *)

(** A samples array: [shape[1]] and the rows. *)
Record samples_t : Type := MkSamples {
  ncols : nat;
  rows : list (list nat)
}.

(** [(samples == out[None, :]).all(1).sum()] *)
Definition count_rows (out : list nat) (rws : list (list nat)) : nat :=
  length (filter (list_nat_eqb out) rws).

(** [samples[:, support]] *)
Definition select_columns (s : samples_t) (support : list nat)
  : result (list (list nat)) :=
  if forallb (fun pos => (pos <? ncols s)%nat) support
  then Ok (map (select support) (rows s))
  else Raise IndexError.

Definition in_range (idx shp : list nat) : bool :=
  (length idx =? length shp)%nat
  && forallb (fun xd => (fst xd <? snd xd)%nat) (combine idx shp).

(** A float that may be NaN. *)
Definition nan_add (a b : option R) : option R :=
  match a, b with
  | Some x, Some y => Some (x + y)
  | _, _ => None
  end.

Definition nan_sum (l : list (option R)) : option R :=
  fold_right nan_add (Some 0) l.

(** [counts[my_out] += x] *)
Definition add_at (counts : list nat -> option R) (my_out : list nat)
  (x : option R) : list nat -> option R :=
  fun i => if list_nat_eqb i my_out then nan_add (counts i) x else counts i.

(** [prefactors[tuple(outcomes)] * count / n_samples] *)
Definition weighted_count (prefactor : option R) (count n_samples : nat)
  : option R :=
  match prefactor with
  | Some x => if (n_samples =? 0)%nat then None
              else Some (x * INR count / INR n_samples)
  | None => None
  end.

(** [match.any(tuple(range(n_nsout, match.ndim)))]: the outcomes of [self]
    that match some outcome of [other]. *)
Definition given_of (ns other_outdims : list nat) (match_ : ndarray bool)
  : ndarray bool :=
  MkArr ns (fun i => existsb (fun j => at_ match_ (i ++ j))
                             (indices other_outdims)).

(** [match.reshape(...)[(slice(None),) + tuple(samples.T)].any(0).sum()]:
    the samples that match some outcome of [self]. *)
Definition used_samples (ns : list nat) (match_ : ndarray bool)
  (rws : list (list nat)) : nat :=
  length (filter (fun r => existsb (fun i => at_ match_ (i ++ r))
                                   (indices ns))
                 rws).

(** The loop [for outcomes in np.argwhere(match)], started on zeros. *)
Definition accumulate (match_ : ndarray bool) (prefactors : ndarray (option R))
  (n_nsout : nat) (rws : list (list nat)) (n_samples : nat)
  : list nat -> option R :=
  fold_left
    (fun counts outcomes =>
       let my_out := firstn n_nsout outcomes in
       let out := skipn n_nsout outcomes in
       let count := count_rows out rws in
       add_at counts my_out
              (weighted_count (at_ prefactors outcomes) count n_samples))
    (filter (at_ match_) (indices (shape match_)))
    (fun _ => Some 0).

Definition counts_from (self other : MPPovm) (samples : samples_t) (eps : R)
  : result (ndarray (option R) * nat) :=
  assert (len self =? len other)%nat ;;;
  let n_samples := length (rows samples) in
  assert (ncols samples =? length (nsoutdims other))%nat ;;;
  mp <- find_matching_elements self other [] eps10 ;;
  let match_ := fst mp in
  let prefactors := snd mp in
  let support := support self in
  let other_outdims := map (fun i => nth i (outdims other) 0%nat) support in
  assert (list_nat_eqb (shape match_) (nsoutdims self ++ other_outdims)) ;;;
  let n_nsout := length (nsoutdims self) in
  let given := given_of (nsoutdims self) other_outdims match_ in
  if negb (existsb (at_ given) (indices (nsoutdims self)))
  then Ok (MkArr (nsoutdims self) (fun _ => None), 0%nat) else
  all_prefactor <- elemsum_identity self support given eps ;;
  match all_prefactor with
  | None => Raise AssertionError
  | Some all_prefactor =>
      rws <- select_columns samples support ;;
      (if forallb (fun r => in_range r other_outdims) rws
       then Ok tt else Raise IndexError) ;;;
      let n_samples_used := used_samples (nsoutdims self) match_ rws in
      let counts := accumulate match_ prefactors n_nsout rws n_samples in
      (* a NaN in [counts] makes [counts.sum()] a NaN *)
      match nan_sum (map counts (indices (nsoutdims self))) with
      | None => Raise AssertionError
      | Some total =>
          assert (Rleb (Rabs (total - all_prefactor)) eps) ;;;
          (* [counts[~given] = np.nan] *)
          Ok (MkArr (nsoutdims self)
                    (fun i => if at_ given i then counts i else None),
              n_samples_used)
      end
  end.

Definition count_samples (self : MPPovm) (samples : samples_t)
  : result (ndarray nat) :=
  let n_samples := length (rows samples) in
  let counts := MkArr (nsoutdims self) (fun out => count_rows out (rows samples)) in
  assert (ncols samples =? length (shape counts))%nat ;;;
  assert (list_sum (map (at_ counts) (indices (shape counts))) =? n_samples)%nat ;;;
  Ok counts.

(** *** est_fun (called with the default [weights=None]) *)

(** [fun_out[pos, :] = fun(samples)]: a result with one entry per sample
    is stored as it is, a result with one entry is broadcast, any other
    length is refused by numpy. *)
Definition broadcast_row (n : nat) (v : list R) : result (list R) :=
  if (length v =? n)%nat then Ok v
  else match v with
       | [x] => Ok (List.repeat x n)
       | _ => Raise ValueError
       end.

(** [np.inner] and [np.dot] of two vectors. *)
Definition inner (a b : list R) : R :=
  Rsum (map (fun p => fst p * snd p) (combine a b)).

(** What [est_fun] returns: [(ept, cov)] without coefficients,
    [(est, var_est)] with them. *)
Inductive est_result : Type :=
| Moments (ept : list R) (cov : list (list R))
| Estimate (est var_est : R).

(** The number of samples is a Python integer: the scalar
    [(n / (n - 1)) / n] divides by zero for one sample and for none (the
    array divisions before it only produce NaNs). *)
Definition est_fun (self : MPPovm) (coeff : option (list R))
  (funs : list (samples_t -> list R)) (samples : samples_t) (eps : R)
  : result est_result :=
  let n_funs := length funs in
  match coeff with
  | Some c => assert (length c =? n_funs)%nat
  | None => Ok tt
  end ;;;
  let n_samples := length (rows samples) in
  assert (ncols samples =? length (nsoutdims self))%nat ;;;
  fun_out <- Train.sequence
               (map (fun f => broadcast_row n_samples (f samples)) funs) ;;
  let n := INR n_samples in
  let ept := map (fun row => Rsum row / n) fun_out in
  if ((n_samples =? 1) || (n_samples =? 0))%nat then Raise ZeroDivisionError else
  let factor := (n / (n - 1)) / n in
  let cov :=
    map (fun rk =>
           map (fun rl => (inner rk rl / n - (Rsum rk / n) * (Rsum rl / n))
                          * factor)
               fun_out)
        fun_out in
  match coeff with
  | None => Ok (Moments ept cov)
  | Some c =>
      let est := inner c ept in
      let var_est := inner c (map (fun cov_row => inner cov_row c) cov) in
      assert (Rleb (- eps) var_est) ;;;
      Ok (Estimate est (if Rltb var_est 0 then 0 else var_est))
  end.

End Dense.

(** * Properties *)

Unset Implicit Arguments.

(** ** Complex numbers and sums *)

Module CplxFacts.
Import Cplx.
Local Open Scope R_scope.

Lemma C_eq (a b : C) : re a = re b -> im a = im b -> a = b.
Proof. destruct a, b; simpl; intros -> ->; reflexivity. Qed.

Lemma Cadd_0_l (a : C) : Cadd C0 a = a.
Proof. apply C_eq; simpl; ring. Qed.

Lemma Cadd_0_r (a : C) : Cadd a C0 = a.
Proof. apply C_eq; simpl; ring. Qed.

Lemma Cadd_assoc (a b c : C) : Cadd a (Cadd b c) = Cadd (Cadd a b) c.
Proof. apply C_eq; simpl; ring. Qed.

Lemma Csum_app (l1 l2 : list C) : Csum (l1 ++ l2) = Cadd (Csum l1) (Csum l2).
Proof.
  induction l1 as [|z l1 IH]; simpl.
  - now rewrite Cadd_0_l.
  - now rewrite IH, Cadd_assoc.
Qed.

Lemma Csum_scale (x : R) (l : list C) :
  Csum (map (Cscale x) l) = Cscale x (Csum l).
Proof.
  induction l as [|z l IH]; simpl.
  - apply C_eq; simpl; ring.
  - rewrite IH. apply C_eq; simpl; ring.
Qed.

Lemma Csum_RtoC (l : list R) : Csum (map RtoC l) = RtoC (Rsum l).
Proof.
  induction l as [|x l IH]; simpl.
  - reflexivity.
  - rewrite IH. apply C_eq; simpl; ring.
Qed.

Lemma Csum_flat_map {A : Type} (g : A -> list C) (l : list A) :
  Csum (flat_map g l) = Csum (map (fun x => Csum (g x)) l).
Proof.
  induction l as [|x l IH]; simpl.
  - reflexivity.
  - now rewrite Csum_app, IH.
Qed.

Lemma Rsum_INR (l : list nat) : Rsum (map INR l) = INR (list_sum l).
Proof.
  induction l as [|n l IH]; simpl.
  - reflexivity.
  - now rewrite IH, plus_INR.
Qed.

Lemma Rsum_div (c : R) (l : list R) :
  Rsum (map (fun x => x / c) l) = Rsum l / c.
Proof.
  induction l as [|x l IH]; simpl.
  - unfold Rdiv. ring.
  - rewrite IH. unfold Rdiv. ring.
Qed.

End CplxFacts.

(** ** Local POVMs *)

Module LocalPovmFacts.
Import Cplx CplxFacts LocalPovm.
Local Open Scope R_scope.

(** *** Lists updated in place *)

Lemma upd_length {A : Type} (l : list A) (n : nat) (v : A) :
  length (upd l n v) = length l.
Proof.
  revert n. induction l as [|x l IH]; intros [|n]; simpl; auto.
Qed.

Lemma nth_upd {A : Type} (l : list A) (n t : nat) (v d0 : A) :
  nth t (upd l n v) d0 =
  if ((t =? n) && (n <? length l))%nat then v else nth t l d0.
Proof.
  revert n t. induction l as [|x l IH]; intros n t.
  - destruct n, t; simpl; rewrite ?andb_false_r; reflexivity.
  - destruct n as [|n], t as [|t]; simpl; try reflexivity.
    rewrite IH. reflexivity.
Qed.

Lemma upd_app_here {A : Type} (l1 l2 : list A) (x v : A) :
  upd (l1 ++ x :: l2) (length l1) v = l1 ++ v :: l2.
Proof.
  induction l1 as [|y l1 IH]; simpl.
  - reflexivity.
  - now rewrite IH.
Qed.

Lemma nth_app_here {A : Type} (l1 l2 : list A) (x d0 : A) :
  nth (length l1) (l1 ++ x :: l2) d0 = x.
Proof.
  induction l1 as [|y l1 IH]; simpl; auto.
Qed.

Lemma set_entry_here (done rest : matrix) (row : list C) (i : nat) (v : C) :
  set_entry (done ++ row :: rest) (length done) i v =
  done ++ upd row i v :: rest.
Proof.
  unfold set_entry. rewrite nth_app_here. apply upd_app_here.
Qed.

Lemma fold_left_flat_map {A B S : Type} (f : S -> B -> S) (g : A -> list B)
  (l : list A) (s : S) :
  fold_left f (flat_map g l) s = fold_left (fun s x => fold_left f (g x) s) l s.
Proof.
  revert s. induction l as [|x l IH]; intros s; simpl.
  - reflexivity.
  - now rewrite fold_left_app, IH.
Qed.

(** *** The loop of [X.__init__] and [Y.__init__] in closed form *)

Lemma pair_loop_pairs (plus minus : C) (d : nat) :
  pair_loop plus minus d =
  fold_left (pair_step plus minus) (pairs d) (zeros (d * (d - 1)) d, 0%nat).
Proof.
  unfold pair_loop, pairs. rewrite fold_left_flat_map.
  generalize (zeros (d * (d - 1)) d, 0%nat).
  induction (seq 0 (d - 1)) as [|i l IH]; intros st; simpl.
  - reflexivity.
  - rewrite IH. f_equal.
    generalize (seq (i + 1) (d - (i + 1))). intros js. revert st.
    induction js as [|j js IHj]; intros st; simpl.
    + reflexivity.
    + apply IHj.
Qed.

Lemma zeros_S (n m : nat) : zeros (S n) m = List.repeat C0 m :: zeros n m.
Proof. reflexivity. Qed.

Lemma pair_fold_rows (plus minus : C) (d : nat) (ps : list (nat * nat)) :
  forall (done : matrix) (n : nat),
    (2 * length ps <= n)%nat ->
    fold_left (pair_step plus minus) ps (done ++ zeros n d, length done) =
    (done ++ rows_of plus minus d ps ++ zeros (n - 2 * length ps) d,
     (length done + 2 * length ps)%nat).
Proof.
  induction ps as [|[i j] ps IH]; intros done n Hn.
  - simpl. rewrite Nat.sub_0_r, Nat.add_0_r. reflexivity.
  - destruct n as [|[|n]]; [simpl in Hn; lia | simpl in Hn; lia |].
    cbn [fold_left]. unfold pair_step at 2. cbn [fst snd pair_body].
    rewrite !zeros_S, !set_entry_here.
    replace (done ++ upd (upd (List.repeat C0 d) i C1) j plus
                  :: List.repeat C0 d :: zeros n d)
      with ((done ++ [unit_row d i j plus]) ++ List.repeat C0 d :: zeros n d)
      by (rewrite <- app_assoc; reflexivity).
    replace (length done + 1)%nat
      with (length (done ++ [unit_row d i j plus]))
      by (rewrite length_app; reflexivity).
    rewrite !set_entry_here.
    replace ((done ++ [unit_row d i j plus])
             ++ upd (upd (List.repeat C0 d) i C1) j minus :: zeros n d)
      with ((done ++ [unit_row d i j plus; unit_row d i j minus])
            ++ zeros n d)
      by (rewrite <- !app_assoc; reflexivity).
    replace (length (done ++ [unit_row d i j plus]) + 1)%nat
      with (length (done ++ [unit_row d i j plus; unit_row d i j minus]))
      by (rewrite !length_app; simpl; lia).
    rewrite IH by (simpl in Hn; lia).
    rewrite <- !app_assoc, length_app. cbn [rows_of flat_map fst snd app].
    f_equal.
    + do 5 f_equal. simpl length. lia.
    + simpl length. lia.
Qed.

Lemma pairs_count_upto (d m : nat) :
  (m <= d)%nat ->
  (2 * length (flat_map (fun i => map (fun j => (i, j))
                                      (seq (i + 1) (d - (i + 1))))
                        (seq 0 m))
   = m * (2 * d - m - 1))%nat.
Proof.
  induction m as [|m IH]; intros Hm.
  - reflexivity.
  - rewrite seq_S, flat_map_app, length_app. simpl flat_map.
    rewrite app_nil_r, length_map, length_seq.
    rewrite Nat.mul_add_distr_l, IH by lia. simpl (0 + m)%nat. nia.
Qed.

Lemma pairs_count (d : nat) : (2 * length (pairs d) = d * (d - 1))%nat.
Proof.
  unfold pairs. rewrite pairs_count_upto by lia. nia.
Qed.

Lemma pair_loop_rows (plus minus : C) (d : nat) :
  fst (pair_loop plus minus d) = rows_of plus minus d (pairs d).
Proof.
  rewrite pair_loop_pairs.
  assert (Hn : (2 * length (pairs d) <= d * (d - 1))%nat)
    by (rewrite pairs_count; lia).
  pose proof (@pair_fold_rows plus minus d (pairs d) [] _ Hn) as Hfold.
  cbn [app length] in Hfold. apply (f_equal fst) in Hfold.
  etransitivity; [exact Hfold|]. cbn [fst].
  rewrite pairs_count, Nat.sub_diag. simpl. now rewrite app_nil_r.
Qed.

Lemma in_pairs (d i j : nat) : In (i, j) (pairs d) -> (i < j < d)%nat.
Proof.
  unfold pairs. rewrite in_flat_map. intros [i' [Hi Hj]].
  apply in_seq in Hi. apply in_map_iff in Hj.
  destruct Hj as [j' [E Hj']]. inversion E; subst.
  apply in_seq in Hj'. lia.
Qed.

(** *** Entries of rows and of outer products *)

Lemma nth_unit_row (d i j t : nat) (y : C) :
  (i < d)%nat -> (j < d)%nat ->
  nth t (unit_row d i j y) C0 =
  if (t =? j)%nat then y else if (t =? i)%nat then C1 else C0.
Proof.
  intros Hi Hj. unfold unit_row. rewrite !nth_upd, upd_length, repeat_length.
  replace (j <? d)%nat with true by (symmetry; apply Nat.ltb_lt; lia).
  replace (i <? d)%nat with true by (symmetry; apply Nat.ltb_lt; lia).
  rewrite !andb_true_r.
  destruct (t =? j)%nat; [reflexivity|].
  destruct (t =? i)%nat; [reflexivity|].
  apply nth_repeat.
Qed.

Lemma unit_row_length (d i j : nat) (y : C) : length (unit_row d i j y) = d.
Proof. unfold unit_row. now rewrite !upd_length, repeat_length. Qed.

Lemma nth_flat_map_block {A B : Type} (g : A -> list B) (m : nat)
  (l : list A) (a b : nat) (x0 : A) (d0 : B) :
  (forall x, length (g x) = m) -> (b < m)%nat -> (a < length l)%nat ->
  nth (a * m + b) (flat_map g l) d0 = nth b (g (nth a l x0)) d0.
Proof.
  intros Hg Hb. revert a. induction l as [|x l IH]; intros a Ha.
  - simpl in Ha. lia.
  - destruct a as [|a]; simpl flat_map.
    + simpl. apply app_nth1. rewrite Hg. exact Hb.
    + rewrite app_nth2 by (rewrite Hg; simpl; lia).
      rewrite Hg. replace (S a * m + b - m)%nat with (a * m + b)%nat
        by (simpl; lia).
      simpl nth. apply IH. simpl in Ha. lia.
Qed.

Lemma nth_outer_flat (v : list C) (a b : nat) :
  (a < length v)%nat -> (b < length v)%nat ->
  nth (a * length v + b) (outer_flat v) C0 =
  Cmul (nth a v C0) (Cconj (nth b v C0)).
Proof.
  intros Ha Hb. unfold outer_flat.
  rewrite nth_flat_map_block with (m := length v) (x0 := C0);
    [| intros; apply length_map | exact Hb | exact Ha].
  rewrite (nth_indep _ C0 (Cmul (nth a v C0) (Cconj C0)))
    by (rewrite length_map; exact Hb).
  apply (map_nth (fun b0 => Cmul (nth a v C0) (Cconj b0))).
Qed.

Lemma nth_div_row (row : list C) (s : R) (t : nat) :
  nth t (map (fun z => Cdiv_real z s) row) C0 = Cdiv_real (nth t row C0) s.
Proof.
  destruct (Nat.lt_ge_cases t (length row)) as [Ht|Ht].
  - rewrite (nth_indep _ C0 (Cdiv_real C0 s)) by (rewrite length_map; exact Ht).
    apply (map_nth (fun z => Cdiv_real z s)).
  - rewrite !nth_overflow by (rewrite ?length_map; exact Ht).
    apply C_eq; simpl; unfold Rdiv; ring.
Qed.

Lemma Cmul_div_conj (z w : C) (s : R) :
  s <> 0 ->
  Cmul (Cdiv_real z s) (Cconj (Cdiv_real w s)) =
  Cdiv_real (Cmul z (Cconj w)) (s * s).
Proof.
  intros Hs. apply C_eq; simpl; field; exact Hs.
Qed.


(** *** Counting the pairs that contain a given index *)

Lemma list_sum_map_add {A : Type} (f g : A -> nat) (l : list A) :
  list_sum (map (fun x => (f x + g x)%nat) l) =
  (list_sum (map f l) + list_sum (map g l))%nat.
Proof.
  induction l as [|x l IH]; simpl; [reflexivity | rewrite IH; lia].
Qed.

Lemma list_sum_map_const {A : Type} (c : nat) (l : list A) :
  list_sum (map (fun _ => c) l) = (c * length l)%nat.
Proof.
  induction l as [|x l IH]; simpl; [lia | rewrite IH; lia].
Qed.

Lemma list_sum_map_zero {A : Type} (f : A -> nat) (l : list A) :
  (forall x, In x l -> f x = 0%nat) -> list_sum (map f l) = 0%nat.
Proof.
  induction l as [|x l IH]; intros Hf; simpl; [reflexivity|].
  rewrite (Hf x (or_introl eq_refl)), IH; [reflexivity|].
  intros; apply Hf; now right.
Qed.

Lemma list_sum_flat_map {A B : Type} (f : B -> nat) (g : A -> list B)
  (l : list A) :
  list_sum (map f (flat_map g l)) =
  list_sum (map (fun x => list_sum (map f (g x))) l).
Proof.
  induction l as [|x l IH]; simpl; [reflexivity|].
  now rewrite map_app, list_sum_app, IH.
Qed.

Lemma sum_indicator_seq (a s n : nat) :
  list_sum (map (fun j => if (a =? j)%nat then 1%nat else 0%nat) (seq s n)) =
  if ((s <=? a) && (a <? s + n))%nat then 1%nat else 0%nat.
Proof.
  revert s. induction n as [|n IH]; intros s; simpl.
  - destruct (Nat.leb_spec s a), (Nat.ltb_spec a (s + 0)); simpl; lia.
  - rewrite IH.
    destruct (Nat.eqb_spec a s), (Nat.leb_spec (S s) a),
      (Nat.ltb_spec a (S s + n)), (Nat.leb_spec s a),
      (Nat.ltb_spec a (s + S n)); simpl; lia.
Qed.

Lemma hits_row (d a i : nat) :
  (i + 1 <= d)%nat ->
  list_sum (map (fun j => hits a a (i, j)) (seq (i + 1) (d - (i + 1)))) =
  ((if (a =? i)%nat then d - (i + 1) else 0)
   + (if ((i + 1 <=? a) && (a <? d))%nat then 1 else 0))%nat.
Proof.
  intros Hi. unfold hits. cbn [fst snd].
  rewrite list_sum_map_add, list_sum_map_const, length_seq.
  rewrite (map_ext (fun j => if ((a =? j) && (a =? j))%nat then 1%nat else 0%nat)
                   (fun j => if (a =? j)%nat then 1%nat else 0%nat))
    by (intros j; now rewrite andb_diag).
  rewrite sum_indicator_seq.
  replace (i + 1 + (d - (i + 1)))%nat with d by lia.
  rewrite andb_diag. destruct (a =? i)%nat; lia.
Qed.

Lemma hits_upto (d a m : nat) :
  (a < d)%nat -> (m <= d - 1)%nat ->
  list_sum (map (fun i => ((if (a =? i)%nat then d - (i + 1) else 0)
                           + (if ((i + 1 <=? a) && (a <? d))%nat
                              then 1 else 0))%nat)
                (seq 0 m)) =
  ((if (a <? m)%nat then d - 1 - a else 0) + Nat.min a m)%nat.
Proof.
  intros Ha. induction m as [|m IH]; intros Hm.
  - simpl. lia.
  - rewrite seq_S, map_app, list_sum_app, IH by lia. simpl.
    destruct (Nat.eqb_spec a m), (Nat.leb_spec (m + 1) a),
      (Nat.ltb_spec a d), (Nat.ltb_spec a m), (Nat.ltb_spec a (S m));
      simpl; lia.
Qed.

Lemma hits_pairs (d a b : nat) :
  (a < d)%nat -> (b < d)%nat ->
  list_sum (map (hits a b) (pairs d)) =
  if (a =? b)%nat then (d - 1)%nat else 0%nat.
Proof.
  intros Ha Hb. destruct (Nat.eqb_spec a b) as [<-|Hab].
  - unfold pairs. rewrite list_sum_flat_map.
    rewrite (map_ext_in _
      (fun i => ((if (a =? i)%nat then d - (i + 1) else 0)
                 + (if ((i + 1 <=? a) && (a <? d))%nat then 1 else 0))%nat)).
    + rewrite hits_upto by lia.
      destruct (Nat.ltb_spec a (d - 1)); lia.
    + intros i Hi. apply in_seq in Hi. rewrite map_map.
      apply hits_row. lia.
  - apply list_sum_map_zero. intros [i j] _. unfold hits. cbn [fst snd].
    destruct (Nat.eqb_spec a i), (Nat.eqb_spec b i),
      (Nat.eqb_spec a j), (Nat.eqb_spec b j); simpl; lia.
Qed.

(** *** The elements of X and Y sum to the identity *)

Lemma elem_sum_app (M1 M2 : matrix) (q : nat) :
  elem_sum (M1 ++ M2) q = Cadd (elem_sum M1 q) (elem_sum M2 q).
Proof. unfold elem_sum. now rewrite map_app, Csum_app. Qed.

Lemma elem_sum_rows (plus minus : C) (d : nat) (s : R)
  (ps : list (nat * nat)) (q : nat) :
  elem_sum (map outer_flat (mdiv (rows_of plus minus d ps) s)) q =
  Csum (map (fun p =>
               Cadd (nth q (outer_flat
                              (map (fun z => Cdiv_real z s)
                                   (unit_row d (fst p) (snd p) plus))) C0)
                    (nth q (outer_flat
                              (map (fun z => Cdiv_real z s)
                                   (unit_row d (fst p) (snd p) minus))) C0))
            ps).
Proof.
  unfold elem_sum, mdiv, rows_of.
  induction ps as [|p ps IH]; simpl.
  - reflexivity.
  - rewrite IH. now rewrite Cadd_assoc.
Qed.

Lemma nth_outer_div_row (d i j a b : nat) (y : C) (s : R) :
  s <> 0 -> (i < d)%nat -> (j < d)%nat -> (a < d)%nat -> (b < d)%nat ->
  nth (a * d + b)
      (outer_flat (map (fun z => Cdiv_real z s) (unit_row d i j y))) C0 =
  Cdiv_real
    (Cmul (if (a =? j)%nat then y else if (a =? i)%nat then C1 else C0)
          (Cconj (if (b =? j)%nat then y
                  else if (b =? i)%nat then C1 else C0)))
    (s * s).
Proof.
  intros Hs Hi Hj Ha Hb.
  assert (Hlen : length (map (fun z => Cdiv_real z s) (unit_row d i j y)) = d)
    by (rewrite length_map; apply unit_row_length).
  rewrite <- Hlen at 1.
  rewrite nth_outer_flat by (rewrite Hlen; assumption).
  rewrite !nth_div_row, Cmul_div_conj by exact Hs.
  rewrite !nth_unit_row by assumption. reflexivity.
Qed.

Lemma pair_contribution (d i j a b : nat) (y : C) :
  (i < j < d)%nat -> (a < d)%nat -> (b < d)%nat -> Cnormsq y = 1 ->
  let s := sqrt (INR (2 * (d - 1))) in
  Cadd (nth (a * d + b)
            (outer_flat (map (fun z => Cdiv_real z s) (unit_row d i j y))) C0)
       (nth (a * d + b)
            (outer_flat (map (fun z => Cdiv_real z s)
                             (unit_row d i j (Copp y)))) C0) =
  RtoC (INR (hits a b (i, j)) / INR (d - 1)).
Proof.
  intros Hij Ha Hb Hy s.
  assert (Hd1 : 0 < INR (d - 1)) by (apply lt_0_INR; lia).
  assert (Hx : INR (2 * (d - 1)) = 2 * INR (d - 1))
    by (rewrite mult_INR; simpl; ring).
  assert (Hss : s * s = 2 * INR (d - 1)).
  { unfold s. rewrite sqrt_sqrt; [exact Hx|]. rewrite Hx. lra. }
  assert (Hs : s <> 0) by (intros E; rewrite E in Hss; lra).
  rewrite !nth_outer_div_row by (assumption || lia).
  rewrite Hss. unfold hits. cbn [fst snd]. unfold Cnormsq in Hy.
  destruct y as [yr yi]. simpl in Hy.
  destruct (Nat.eqb_spec a j), (Nat.eqb_spec a i),
    (Nat.eqb_spec b j), (Nat.eqb_spec b i);
    try lia; apply C_eq; simpl.
  all: try (field; lra).
  rewrite <- Hy. field. lra.
Qed.


Lemma index_split (d q : nat) :
  (q < d * d)%nat -> (q = q / d * d + q mod d /\ q / d < d /\ q mod d < d)%nat.
Proof.
  intros Hq. assert (Hd : d <> 0%nat) by (intros ->; simpl in Hq; lia).
  split; [|split].
  - rewrite (Nat.div_mod_eq q d) at 1. lia.
  - apply Nat.Div0.div_lt_upper_bound. exact Hq.
  - apply Nat.mod_upper_bound. exact Hd.
Qed.

Lemma pair_povm_sum (y : C) (d q : nat) :
  (2 <= d)%nat -> (q < d * d)%nat -> Cnormsq y = 1 ->
  elem_sum (elements (pair_povm y (Copp y) d)) q = eye_flat d q.
Proof.
  intros Hd Hq Hy.
  destruct (index_split d q Hq) as [Eq [Ha Hb]].
  unfold eye_flat. set (a := (q / d)%nat) in *. set (b := (q mod d)%nat) in *.
  unfold pair_povm, init_elements_from_vectors. cbn [elements].
  rewrite pair_loop_rows, elem_sum_rows.
  rewrite (map_ext_in _ (fun p => RtoC (INR (hits a b p) / INR (d - 1)))).
  - rewrite <- (map_map (fun p => INR (hits a b p) / INR (d - 1)) RtoC).
    rewrite Csum_RtoC.
    rewrite <- (map_map (fun p => INR (hits a b p)) (fun x => x / INR (d - 1))).
    rewrite Rsum_div.
    rewrite <- (map_map (hits a b) INR), Rsum_INR, hits_pairs by assumption.
    assert (Hd1 : 0 < INR (d - 1)) by (apply lt_0_INR; lia).
    destruct (a =? b)%nat; apply C_eq; simpl; field; lra.
  - intros [i j] Hp. apply in_pairs in Hp. cbn [fst snd].
    rewrite Eq. apply pair_contribution; assumption.
Qed.

(** *** The elements of Z sum to the identity *)

Lemma Z_fold_rows (d n : nat) :
  forall done : matrix,
    fold_left (fun v i => set_entry v i i C1) (seq (length done) n)
              (done ++ zeros n d) =
    done ++ map (fun i => upd (List.repeat C0 d) i C1) (seq (length done) n).
Proof.
  induction n as [|n IH]; intros done.
  - reflexivity.
  - cbn [seq fold_left map]. rewrite zeros_S, set_entry_here.
    replace (done ++ upd (List.repeat C0 d) (length done) C1 :: zeros n d)
      with ((done ++ [upd (List.repeat C0 d) (length done) C1]) ++ zeros n d)
      by (rewrite <- app_assoc; reflexivity).
    replace (S (length done))
      with (length (done ++ [upd (List.repeat C0 d) (length done) C1]))
      by (rewrite length_app; simpl; lia).
    rewrite IH, <- app_assoc. reflexivity.
Qed.

Lemma Z_vectors (d : nat) :
  vectors (Z d) = map (fun i => upd (List.repeat C0 d) i C1) (seq 0 d).
Proof.
  unfold Z, init_elements_from_vectors. cbn [vectors].
  exact (Z_fold_rows d d []).
Qed.

Lemma nth_Z_row (d i t : nat) :
  (i < d)%nat ->
  nth t (upd (List.repeat C0 d) i C1) C0 = if (t =? i)%nat then C1 else C0.
Proof.
  intros Hi. rewrite nth_upd, repeat_length.
  replace (i <? d)%nat with true by (symmetry; apply Nat.ltb_lt; lia).
  rewrite andb_true_r. destruct (t =? i)%nat; [reflexivity|].
  apply nth_repeat.
Qed.

Lemma Z_sum (d q : nat) :
  (q < d * d)%nat -> elem_sum (elements (Z d)) q = eye_flat d q.
Proof.
  intros Hq. destruct (index_split d q Hq) as [Eq [Ha Hb]].
  unfold eye_flat. set (a := (q / d)%nat) in *. set (b := (q mod d)%nat) in *.
  change (elements (Z d)) with (map outer_flat (vectors (Z d))).
  rewrite Z_vectors. unfold elem_sum. rewrite !map_map.
  rewrite (map_ext_in _
    (fun i => RtoC (INR (if (a =? i)%nat then
                           if (b =? i)%nat then 1 else 0 else 0)))).
  - rewrite <- (map_map (fun i => INR (if (a =? i)%nat then
                                        if (b =? i)%nat then 1 else 0 else 0))
                        RtoC).
    rewrite Csum_RtoC.
    rewrite <- (map_map (fun i => if (a =? i)%nat then
                                    if (b =? i)%nat then 1%nat else 0%nat
                                  else 0%nat) INR).
    rewrite Rsum_INR.
    destruct (Nat.eqb_spec a b) as [<-|Hab].
    + rewrite (map_ext _ (fun i => if (a =? i)%nat then 1%nat else 0%nat))
        by (intros i; destruct (a =? i)%nat; reflexivity).
      rewrite sum_indicator_seq.
      replace ((0 <=? a) && (a <? 0 + d))%nat with true; [reflexivity|].
      symmetry. apply andb_true_iff. split.
      * apply Nat.leb_le. lia.
      * apply Nat.ltb_lt. lia.
    + rewrite list_sum_map_zero; [reflexivity|].
      intros i _. destruct (Nat.eqb_spec a i), (Nat.eqb_spec b i);
        try reflexivity. lia.
  - intros i Hi. apply in_seq in Hi.
    assert (Hlen : length (upd (List.repeat C0 d) i C1) = d)
      by (rewrite upd_length; apply repeat_length).
    rewrite Eq. rewrite <- Hlen at 1.
    rewrite nth_outer_flat by (rewrite Hlen; assumption).
    rewrite !nth_Z_row by lia.
    destruct (a =? i)%nat, (b =? i)%nat; apply C_eq; simpl; ring.
Qed.

(** *** Combinations *)

Lemma elem_sum_mscale (w : R) (M : matrix) (q : nat) :
  elem_sum (mscale w M) q = Cscale w (elem_sum M q).
Proof.
  unfold elem_sum, mscale. rewrite map_map, <- Csum_scale, map_map.
  f_equal. apply map_ext. intros row.
  destruct (Nat.lt_ge_cases q (length row)) as [Hlt|Hge].
  - rewrite (nth_indep _ C0 (Cscale w C0)) by (rewrite length_map; exact Hlt).
    apply (map_nth (Cscale w)).
  - rewrite !nth_overflow by (rewrite ?length_map; exact Hge).
    apply C_eq; simpl; ring.
Qed.

Lemma PauliGen_sum (d q : nat) :
  (2 <= d)%nat -> (q < d * d)%nat ->
  elem_sum (elements (PauliGen d)) q = eye_flat d q.
Proof.
  intros Hd Hq.
  assert (HX : elem_sum (elements (X d)) q = eye_flat d q)
    by (apply pair_povm_sum; [assumption | assumption | unfold Cnormsq; simpl; ring]).
  assert (HY : elem_sum (elements (Y d)) q = eye_flat d q)
    by (apply pair_povm_sum; [assumption | assumption | unfold Cnormsq; simpl; ring]).
  assert (HZ : elem_sum (elements (Z d)) q = eye_flat d q)
    by (apply Z_sum; assumption).
  unfold PauliGen, init_combined.
  destruct (d =? 2)%nat; cbn [map combine concat elements fst snd];
    rewrite ?elem_sum_app, ?elem_sum_mscale, ?HX, ?HY, ?HZ;
    unfold elem_sum; cbn [map Csum];
    destruct (eye_flat d q) as [x y]; apply C_eq; simpl; field.
Qed.

(** C5.  For every local dimension [d >= 2], the elements of each of the
    X, Y and Z local POVMs sum to the [d]-dimensional identity (entry [q]
    of the flattened operator, for every [q < d^2]), and so do the
    elements of the combination PauliGen (X, Y, Z with weights 1/3 for
    [d = 2]; X, Y with weights 1/2 otherwise). *)
Theorem local_povm_elements_sum_to_identity (d q : nat) :
  (2 <= d)%nat -> (q < d * d)%nat ->
  elem_sum (elements (X d)) q = eye_flat d q /\
  elem_sum (elements (Y d)) q = eye_flat d q /\
  elem_sum (elements (Z d)) q = eye_flat d q /\
  elem_sum (elements (PauliGen d)) q = eye_flat d q /\
  PauliGen 2 = init_combined [X; Y; Z] [1 / 3; 1 / 3; 1 / 3] 2 /\
  ((2 < d)%nat -> PauliGen d = init_combined [X; Y] [1 / 2; 1 / 2] d).
Proof.
  intros Hd Hq. repeat split.
  - apply pair_povm_sum; [assumption | assumption | unfold Cnormsq; simpl; ring].
  - apply pair_povm_sum; [assumption | assumption | unfold Cnormsq; simpl; ring].
  - apply Z_sum; assumption.
  - apply PauliGen_sum; assumption.
  - intros Hd2. unfold PauliGen.
    destruct (Nat.eqb_spec d 2); [lia | reflexivity].
Qed.

Lemma local_povm_elements_sum_to_identity_witness :
  elem_sum (elements (X 3)) 4 = eye_flat 3 4 /\
  elem_sum (elements (Y 3)) 4 = eye_flat 3 4 /\
  elem_sum (elements (Z 3)) 4 = eye_flat 3 4 /\
  elem_sum (elements (PauliGen 3)) 4 = eye_flat 3 4 /\
  PauliGen 2 = init_combined [X; Y; Z] [1 / 3; 1 / 3; 1 / 3] 2 /\
  ((2 < 3)%nat -> PauliGen 3 = init_combined [X; Y] [1 / 2; 1 / 2] 3).
Proof.
  apply (@local_povm_elements_sum_to_identity 3 4); simpl; lia.
Defined.


(** *** Vectors and elements *)

(** For X, Y and Z every element is the outer product of its vector with
    the conjugate vector. *)
Lemma elements_from_vectors (d k : nat) :
  nth k (elements (X d)) [] = outer_flat (nth k (vectors (X d)) []) /\
  nth k (elements (Y d)) [] = outer_flat (nth k (vectors (Y d)) []) /\
  nth k (elements (Z d)) [] = outer_flat (nth k (vectors (Z d)) []).
Proof.
  repeat split.
  - exact (map_nth outer_flat (vectors (X d)) [] k).
  - exact (map_nth outer_flat (vectors (Y d)) [] k).
  - exact (map_nth outer_flat (vectors (Z d)) [] k).
Qed.

Lemma PauliGen_2_first_vector :
  nth 0 (vectors (PauliGen 2)) [] =
  map (Cscale (1 / 3)) (map (fun z => Cdiv_real z (sqrt 2)) [C1; C1]).
Proof.
  unfold PauliGen, init_combined. cbn [Nat.eqb map combine fst snd concat].
  unfold X at 1, pair_povm, init_elements_from_vectors. cbn [vectors].
  rewrite pair_loop_rows. reflexivity.
Qed.

Lemma PauliGen_2_first_element :
  nth 0 (elements (PauliGen 2)) [] =
  map (Cscale (1 / 3))
      (outer_flat (map (fun z => Cdiv_real z (sqrt 2)) [C1; C1])).
Proof.
  unfold PauliGen, init_combined.
  cbn [Nat.eqb map combine fst snd concat elements].
  unfold X at 1, pair_povm, init_elements_from_vectors. cbn [elements].
  rewrite pair_loop_rows. reflexivity.
Qed.

(** C6.  For [PauliGen(d = 2)] the outer product of the first vector with
    its conjugate has entry [1/18] at position 0, where the first element
    has [1/6]: [Combined] scales the vectors by the weight [1/3], so their
    outer products carry the weight squared. *)
Theorem PauliGen_vector_outer_mismatch :
  nth 0 (outer_flat (nth 0 (vectors (PauliGen 2)) [])) C0 = RtoC (1 / 18) /\
  nth 0 (nth 0 (elements (PauliGen 2)) []) C0 = RtoC (1 / 6) /\
  outer_flat (nth 0 (vectors (PauliGen 2)) []) <>
  nth 0 (elements (PauliGen 2)) [].
Proof.
  assert (Hss : sqrt 2 * sqrt 2 = 2) by (apply sqrt_sqrt; lra).
  assert (Hs : sqrt 2 <> 0) by (intros E; rewrite E in Hss; lra).
  assert (H1 : nth 0 (outer_flat (nth 0 (vectors (PauliGen 2)) [])) C0
               = RtoC (1 / 18)).
  { rewrite PauliGen_2_first_vector. cbn [map outer_flat flat_map app nth].
    apply C_eq; simpl.
    - replace (1 / 18) with (1 / (9 * (sqrt 2 * sqrt 2)))
        by (rewrite Hss; field).
      field. exact Hs.
    - field. exact Hs. }
  assert (H2 : nth 0 (nth 0 (elements (PauliGen 2)) []) C0 = RtoC (1 / 6)).
  { rewrite PauliGen_2_first_element. cbn [map outer_flat flat_map app nth].
    apply C_eq; simpl.
    - replace (1 / 6) with (1 / (3 * (sqrt 2 * sqrt 2)))
        by (rewrite Hss; field).
      field. exact Hs.
    - field. exact Hs. }
  split; [exact H1 | split; [exact H2 |]].
  intros E. rewrite E, H2 in H1. apply (f_equal re) in H1. simpl in H1. lra.
Qed.

(** *** Shapes of the tables *)

(** A matrix with [n] rows of length [m]. *)
Definition has_shape (n m : nat) (M : list (list C)) : Prop :=
  length M = n /\ Forall (fun row => length row = m) M.

Lemma has_shape_map (f : C -> C) (n m : nat) (M : list (list C)) :
  has_shape n m M -> has_shape n m (map (map f) M).
Proof.
  intros [Hn Hm]. split.
  - now rewrite length_map.
  - apply Forall_forall. intros row Hrow. apply in_map_iff in Hrow.
    destruct Hrow as [r [<- Hr]]. rewrite length_map.
    rewrite Forall_forall in Hm. now apply Hm.
Qed.

Lemma outer_flat_length (v : list C) :
  length (outer_flat v) = (length v * length v)%nat.
Proof.
  unfold outer_flat.
  assert (H : forall l : list C,
             length (flat_map (fun a => map (fun b => Cmul a (Cconj b)) v) l)
             = (length l * length v)%nat).
  { induction l as [|a l IH]; simpl; [reflexivity|].
    now rewrite length_app, length_map, IH. }
  apply H.
Qed.

Lemma has_shape_outer (n m : nat) (M : list (list C)) :
  has_shape n m M -> has_shape n (m * m) (map outer_flat M).
Proof.
  intros [Hn Hm]. split.
  - now rewrite length_map.
  - apply Forall_forall. intros row Hrow. apply in_map_iff in Hrow.
    destruct Hrow as [r [<- Hr]]. rewrite outer_flat_length.
    rewrite Forall_forall in Hm. now rewrite (Hm r Hr).
Qed.

Lemma has_shape_app (n1 n2 m : nat) (M1 M2 : list (list C)) :
  has_shape n1 m M1 -> has_shape n2 m M2 -> has_shape (n1 + n2) m (M1 ++ M2).
Proof.
  intros [Hn1 Hm1] [Hn2 Hm2]. split.
  - rewrite length_app. now subst.
  - apply Forall_app. now split.
Qed.

Lemma has_shape_rows_of (plus minus : C) (d : nat) (ps : list (nat * nat)) :
  has_shape (2 * length ps) d (rows_of plus minus d ps).
Proof.
  induction ps as [|p ps [IHn IHm]]; [split; [reflexivity | constructor]|].
  change (rows_of plus minus d (p :: ps))
    with (unit_row d (fst p) (snd p) plus
          :: unit_row d (fst p) (snd p) minus :: rows_of plus minus d ps).
  split.
  - cbn [length]. rewrite IHn. simpl. lia.
  - repeat constructor; try apply unit_row_length. exact IHm.
Qed.

Lemma pair_vectors (plus minus : C) (d : nat) :
  vectors (pair_povm plus minus d) =
  mdiv (rows_of plus minus d (pairs d)) (sqrt (INR (2 * (d - 1)))).
Proof.
  unfold pair_povm, init_elements_from_vectors. cbn [vectors].
  now rewrite pair_loop_rows.
Qed.

Lemma pair_elements (plus minus : C) (d : nat) :
  elements (pair_povm plus minus d) =
  map outer_flat
      (mdiv (rows_of plus minus d (pairs d)) (sqrt (INR (2 * (d - 1))))).
Proof.
  unfold pair_povm, init_elements_from_vectors. cbn [elements].
  now rewrite pair_loop_rows.
Qed.

Lemma pair_povm_shape (plus minus : C) (d : nat) :
  has_shape (d * (d - 1)) d (vectors (pair_povm plus minus d)) /\
  has_shape (d * (d - 1)) (d * d) (elements (pair_povm plus minus d)).
Proof.
  assert (H : has_shape (d * (d - 1)) d (vectors (pair_povm plus minus d))).
  { rewrite pair_vectors. apply has_shape_map.
    rewrite <- pairs_count. apply has_shape_rows_of. }
  split; [exact H|].
  rewrite pair_elements, <- pair_vectors. now apply has_shape_outer.
Qed.

Lemma Z_shape (d : nat) :
  has_shape d d (vectors (Z d)) /\ has_shape d (d * d) (elements (Z d)).
Proof.
  assert (H : has_shape d d (vectors (Z d))).
  { rewrite Z_vectors. split.
    - now rewrite length_map, length_seq.
    - apply Forall_forall. intros row Hrow. apply in_map_iff in Hrow.
      destruct Hrow as [i [<- _]]. now rewrite upd_length, repeat_length. }
  split; [exact H|].
  change (elements (Z d)) with (map outer_flat (vectors (Z d))).
  now apply has_shape_outer.
Qed.

(** The loop of [X] and [Y] ends with [k] at the number of rows, so every
    row of the allocated array is written.  [X] and [Y] have
    [d * (d - 1)] vectors of length [d] and as many elements of length
    [d^2]; [Z] has [d]; [PauliGen] has the rows of its parts: [6] for
    [d = 2], [2 * d * (d - 1)] otherwise. *)
Theorem tables_have_shape (d : nat) :
  snd (pair_loop C1 (Copp C1) d) = (d * (d - 1))%nat /\
  snd (pair_loop Ci (Copp Ci) d) = (d * (d - 1))%nat /\
  has_shape (d * (d - 1)) d (vectors (X d)) /\
  has_shape (d * (d - 1)) (d * d) (elements (X d)) /\
  has_shape (d * (d - 1)) d (vectors (Y d)) /\
  has_shape (d * (d - 1)) (d * d) (elements (Y d)) /\
  has_shape d d (vectors (Z d)) /\
  has_shape d (d * d) (elements (Z d)) /\
  has_shape (if (d =? 2)%nat then 6 else 2 * (d * (d - 1))) d
            (vectors (PauliGen d)) /\
  has_shape (if (d =? 2)%nat then 6 else 2 * (d * (d - 1))) (d * d)
            (elements (PauliGen d)).
Proof.
  assert (Hk : forall plus minus,
             snd (pair_loop plus minus d) = (d * (d - 1))%nat).
  { intros plus minus. rewrite pair_loop_pairs.
    assert (Hn : (2 * length (pairs d) <= d * (d - 1))%nat)
      by (rewrite pairs_count; lia).
    pose proof (@pair_fold_rows plus minus d (pairs d) [] _ Hn) as Hfold.
    cbn [app length] in Hfold. apply (f_equal snd) in Hfold.
    etransitivity; [exact Hfold|]. cbn [snd]. rewrite pairs_count. lia. }
  destruct (pair_povm_shape C1 (Copp C1) d) as [HXv HXe].
  destruct (pair_povm_shape Ci (Copp Ci) d) as [HYv HYe].
  destruct (Z_shape d) as [HZv HZe].
  fold (X d) in HXv, HXe. fold (Y d) in HYv, HYe.
  do 8 (split; [auto|]).
  unfold PauliGen, init_combined.
  destruct (Nat.eqb_spec d 2) as [->|Hd];
    cbn [map combine concat fst snd vectors elements];
    rewrite ?app_nil_r; unfold mscale.
  - split.
    + apply (has_shape_app 2 4); [now apply has_shape_map|].
      apply (has_shape_app 2 2); now apply has_shape_map.
    + apply (has_shape_app 2 4); [now apply has_shape_map|].
      apply (has_shape_app 2 2); now apply has_shape_map.
  - replace (2 * (d * (d - 1)))%nat with (d * (d - 1) + d * (d - 1))%nat by lia.
    split; apply has_shape_app; now apply has_shape_map.
Qed.

(** *** The probability map *)

Lemma Cconj_C0 : Cconj C0 = C0.
Proof. apply C_eq; simpl; ring. Qed.

Lemma Cconj_C1 : Cconj C1 = C1.
Proof. apply C_eq; simpl; ring. Qed.

Lemma Cconj_mul_conj (a b : C) :
  Cconj (Cmul a (Cconj b)) = Cmul (Cconj a) (Cconj (Cconj b)).
Proof. apply C_eq; simpl; ring. Qed.

Lemma conj_outer_flat (v : list C) :
  map Cconj (outer_flat v) = outer_flat (map Cconj v).
Proof.
  unfold outer_flat.
  assert (H : forall l : list C,
             map Cconj (flat_map (fun a => map (fun b => Cmul a (Cconj b)) v) l)
             = flat_map (fun a => map (fun b => Cmul a (Cconj b))
                                      (map Cconj v))
                        (map Cconj l)).
  { induction l as [|a l IH]; simpl; [reflexivity|].
    rewrite map_app, IH. f_equal. rewrite !map_map.
    apply map_ext. intros b. apply Cconj_mul_conj. }
  apply H.
Qed.

Lemma map_upd {A B : Type} (f : A -> B) (l : list A) (n : nat) (v : A) :
  map f (upd l n v) = upd (map f l) n (f v).
Proof.
  revert n. induction l as [|x l IH]; intros [|n]; simpl; auto.
  now rewrite IH.
Qed.

Lemma conj_unit_row (d i j : nat) (y : C) :
  map Cconj (unit_row d i j y) = unit_row d i j (Cconj y).
Proof.
  unfold unit_row. now rewrite !map_upd, map_repeat, Cconj_C0, Cconj_C1.
Qed.

Lemma conj_div_row (row : list C) (s : R) :
  map Cconj (map (fun z => Cdiv_real z s) row) =
  map (fun z => Cdiv_real z s) (map Cconj row).
Proof.
  rewrite !map_map. apply map_ext. intros z.
  apply C_eq; simpl; unfold Rdiv; ring.
Qed.

Lemma conj_rows (plus minus : C) (d : nat) (ps : list (nat * nat)) (s : R) :
  map (map Cconj) (mdiv (rows_of plus minus d ps) s) =
  mdiv (rows_of (Cconj plus) (Cconj minus) d ps) s.
Proof.
  assert (Hrows : map (map Cconj) (rows_of plus minus d ps) =
                  rows_of (Cconj plus) (Cconj minus) d ps).
  { induction ps as [|p ps IH]; [reflexivity|].
    change (rows_of plus minus d (p :: ps))
      with (unit_row d (fst p) (snd p) plus
            :: unit_row d (fst p) (snd p) minus :: rows_of plus minus d ps).
    change (rows_of (Cconj plus) (Cconj minus) d (p :: ps))
      with (unit_row d (fst p) (snd p) (Cconj plus)
            :: unit_row d (fst p) (snd p) (Cconj minus)
            :: rows_of (Cconj plus) (Cconj minus) d ps).
    cbn [map]. now rewrite IH, !conj_unit_row. }
  rewrite <- Hrows. unfold mdiv. rewrite !map_map.
  apply map_ext. intros row. apply conj_div_row.
Qed.

Lemma probability_map_pair (plus minus : C) (d : nat) :
  probability_map (pair_povm plus minus d) =
  elements (pair_povm (Cconj plus) (Cconj minus) d).
Proof.
  unfold probability_map. rewrite !pair_elements, <- conj_rows.
  rewrite !map_map. apply map_ext. intros v. apply conj_outer_flat.
Qed.

Lemma rows_swap {B : Type} (F : list C -> B) (plus minus : C) (d : nat)
  (ps : list (nat * nat)) (dflt : B) (k : nat) :
  nth (2 * k) (map F (rows_of plus minus d ps)) dflt =
  nth (2 * k + 1) (map F (rows_of minus plus d ps)) dflt /\
  nth (2 * k + 1) (map F (rows_of plus minus d ps)) dflt =
  nth (2 * k) (map F (rows_of minus plus d ps)) dflt.
Proof.
  revert k. induction ps as [|p ps IH]; intros k.
  - assert (Hnil : forall n, nth n (@nil B) dflt = dflt)
      by (intros [|n]; reflexivity).
    cbn [rows_of flat_map map]. now rewrite !Hnil.
  - destruct k as [|k].
    + split; reflexivity.
    + replace (2 * S k)%nat with (S (S (2 * k))) by lia.
      replace (S (S (2 * k)) + 1)%nat with (S (S (2 * k + 1))) by lia.
      cbn [rows_of flat_map app map nth]. apply IH.
Qed.

(** [probability_map] is the conjugate of [elements].  For the tables of
    this module that only reorders the elements: for [X] and [Z] nothing
    changes, for [Y] the two elements of every pair trade places. *)
Theorem probability_map_reorders (d k : nat) :
  probability_map (X d) = elements (X d) /\
  probability_map (Z d) = elements (Z d) /\
  nth (2 * k) (probability_map (Y d)) [] = nth (2 * k + 1) (elements (Y d)) [] /\
  nth (2 * k + 1) (probability_map (Y d)) [] = nth (2 * k) (elements (Y d)) [] /\
  length (probability_map (Y d)) = length (elements (Y d)).
Proof.
  split; [|split].
  - unfold X. rewrite probability_map_pair.
    replace (Cconj (Copp C1)) with (Copp C1) by (apply C_eq; simpl; ring).
    now rewrite Cconj_C1.
  - unfold probability_map.
    change (elements (Z d)) with (map outer_flat (vectors (Z d))).
    rewrite Z_vectors, !map_map. apply map_ext. intros i.
    rewrite conj_outer_flat, map_upd, map_repeat, Cconj_C0, Cconj_C1.
    reflexivity.
  - assert (HY : probability_map (Y d) = elements (pair_povm (Copp Ci) Ci d)).
    { unfold Y. rewrite probability_map_pair.
      replace (Cconj (Copp Ci)) with Ci by (apply C_eq; simpl; ring).
      replace (Cconj Ci) with (Copp Ci) by (apply C_eq; simpl; ring).
      reflexivity. }
    rewrite HY. unfold Y. rewrite !pair_elements. unfold mdiv.
    rewrite !map_map.
    split; [|split].
    + apply rows_swap.
    + apply rows_swap.
    + rewrite !length_map.
      destruct (has_shape_rows_of (Copp Ci) Ci d (pairs d)) as [-> _].
      destruct (has_shape_rows_of Ci (Copp Ci) d (pairs d)) as [-> _].
      reflexivity.
Qed.

(** *** Hermitian elements *)

(** A flattened [d x d] operator that equals its conjugate transpose. *)
Definition hermitian (d : nat) (row : list C) : Prop :=
  forall a b, (a < d)%nat -> (b < d)%nat ->
    nth (a * d + b) row C0 = Cconj (nth (b * d + a) row C0).

Lemma hermitian_outer_flat (v : list C) : hermitian (length v) (outer_flat v).
Proof.
  intros a b Ha Hb. rewrite !nth_outer_flat by assumption.
  apply C_eq; simpl; ring.
Qed.

Lemma hermitian_scale (w : R) (d : nat) (row : list C) :
  hermitian d row -> hermitian d (map (Cscale w) row).
Proof.
  intros H a b Ha Hb.
  assert (E : forall n, nth n (map (Cscale w) row) C0
                        = Cscale w (nth n row C0)).
  { intros n. replace C0 with (Cscale w C0) at 1
      by (apply C_eq; simpl; ring).
    apply map_nth. }
  rewrite !E, (H a b Ha Hb). apply C_eq; simpl; ring.
Qed.

Lemma hermitian_from_vectors (n d : nat) (vecs : list (list C)) :
  has_shape n d vecs -> Forall (hermitian d) (map outer_flat vecs).
Proof.
  intros [_ Hm]. apply Forall_forall. intros row Hrow.
  apply in_map_iff in Hrow. destruct Hrow as [v [<- Hv]].
  rewrite Forall_forall in Hm. rewrite <- (Hm v Hv).
  apply hermitian_outer_flat.
Qed.

Lemma hermitian_mscale (w : R) (d : nat) (M : list (list C)) :
  Forall (hermitian d) M -> Forall (hermitian d) (mscale w M).
Proof.
  intros H. apply Forall_forall. intros row Hrow. unfold mscale in Hrow.
  apply in_map_iff in Hrow. destruct Hrow as [r [<- Hr]].
  rewrite Forall_forall in H. apply hermitian_scale. now apply H.
Qed.

(** Every element of [X], [Y], [Z] and [PauliGen] is Hermitian: entry
    [(a, b)] of the flattened operator is the conjugate of entry
    [(b, a)]. *)
Theorem elements_are_hermitian (d : nat) :
  Forall (hermitian d) (elements (X d)) /\
  Forall (hermitian d) (elements (Y d)) /\
  Forall (hermitian d) (elements (Z d)) /\
  Forall (hermitian d) (elements (PauliGen d)).
Proof.
  assert (HP : forall plus minus,
             Forall (hermitian d) (elements (pair_povm plus minus d))).
  { intros plus minus.
    change (elements (pair_povm plus minus d))
      with (map outer_flat (vectors (pair_povm plus minus d))).
    apply hermitian_from_vectors with (n := (d * (d - 1))%nat).
    apply pair_povm_shape. }
  assert (HZ : Forall (hermitian d) (elements (Z d))).
  { change (elements (Z d)) with (map outer_flat (vectors (Z d))).
    apply hermitian_from_vectors with (n := d). apply Z_shape. }
  split; [apply HP|]. split; [apply HP|]. split; [exact HZ|].
  unfold PauliGen, init_combined.
  destruct (d =? 2)%nat;
    cbn [map combine concat fst snd elements]; rewrite ?app_nil_r.
  - apply Forall_app. split; [apply hermitian_mscale, HP|].
    apply Forall_app. split; [apply hermitian_mscale, HP|].
    apply hermitian_mscale, HZ.
  - apply Forall_app. split; apply hermitian_mscale, HP.
Qed.

End LocalPovmFacts.

(** ** Structure of MP-POVMs *)

Module TrainFacts.
Import Train.
Local Open Scope py_scope.

Lemma forallb_app_true {A : Type} (f : A -> bool) (l1 l2 : list A) :
  forallb f l1 = true -> forallb f l2 = true -> forallb f (l1 ++ l2) = true.
Proof.
  intros H1 H2. rewrite forallb_app, H1, H2. reflexivity.
Qed.

Lemma forallb_concat_repeat {A : Type} (f : A -> bool) (l : list A) (k : nat) :
  forallb f l = true -> forallb f (concat (List.repeat l k)) = true.
Proof.
  intros Hl. induction k as [|k IH]; simpl.
  - reflexivity.
  - apply forallb_app_true; assumption.
Qed.

(** The constructor accepts exactly the arrays that satisfy its two
    assertions. *)
Lemma MPPovm_init_ok (a : MPArray) :
  three_legs a = true -> hilbert_match a = true -> MPPovm_init a = Ok a.
Proof.
  intros H3 Hh. unfold MPPovm_init. rewrite H3, Hh. reflexivity.
Qed.

Lemma three_legs_outer (mpas : list MPArray) :
  Forall (fun a => three_legs a = true) mpas -> three_legs (outer mpas) = true.
Proof.
  unfold three_legs, plegs, outer.
  induction 1 as [|a mpas Ha _ IH]; simpl.
  - reflexivity.
  - rewrite map_app. apply forallb_app_true; assumption.
Qed.

Lemma hilbert_match_outer (mpas : list MPArray) :
  Forall (fun a => hilbert_match a = true) mpas ->
  hilbert_match (outer mpas) = true.
Proof.
  unfold hilbert_match, pdims, outer.
  induction 1 as [|a mpas Ha _ IH]; simpl.
  - reflexivity.
  - rewrite map_app. apply forallb_app_true; assumption.
Qed.

Lemma eye_sites_three_legs (dims : list nat) :
  three_legs (eye_sites dims) = true.
Proof.
  unfold three_legs, plegs, eye_sites, from_kron.
  induction dims as [|d dims IH]; simpl; auto.
Qed.

Lemma eye_sites_hilbert_match (dims : list nat) :
  hilbert_match (eye_sites dims) = true.
Proof.
  unfold hilbert_match, pdims, eye_sites, from_kron.
  induction dims as [|d dims IH]; simpl; auto.
  rewrite Nat.eqb_refl. exact IH.
Qed.

Lemma eye_ok (dims : list nat) : eye dims = Ok (eye_sites dims).
Proof.
  unfold eye. apply MPPovm_init_ok.
  - apply eye_sites_three_legs.
  - apply eye_sites_hilbert_match.
Qed.

Lemma eye_sites_len (dims : list nat) : len (eye_sites dims) = length dims.
Proof.
  unfold len, eye_sites, from_kron. now rewrite !length_map.
Qed.

Lemma embed_ok (self : MPArray) (nr_sites startsite local_dim : nat) :
  three_legs self = true -> hilbert_match self = true ->
  embed self nr_sites startsite local_dim =
  Ok (outer [eye_sites (List.repeat local_dim startsite); self;
             eye_sites (List.repeat local_dim
                          (nr_sites - len self - startsite))]).
Proof.
  intros H3 Hh. unfold embed. rewrite !eye_ok. cbn [bind].
  apply MPPovm_init_ok.
  - apply three_legs_outer.
    repeat constructor; auto using eye_sites_three_legs.
  - apply hilbert_match_outer.
    repeat constructor; auto using eye_sites_hilbert_match.
Qed.

Lemma embed_len (self : MPArray) (nr_sites startsite local_dim : nat) :
  startsite + len self <= nr_sites ->
  len (outer [eye_sites (List.repeat local_dim startsite); self;
              eye_sites (List.repeat local_dim
                           (nr_sites - len self - startsite))]) = nr_sites.
Proof.
  intros Hle. unfold outer. simpl. unfold len in *.
  rewrite !length_app. fold (len (eye_sites (List.repeat local_dim startsite))).
  fold (len (eye_sites (List.repeat local_dim
                          (nr_sites - length self - startsite)))).
  rewrite !eye_sites_len, !repeat_length. simpl. lia.
Qed.

Lemma sequence_map_ok {A B : Type} (f : A -> result B) (g : A -> B)
  (l : list A) :
  (forall a, In a l -> f a = Ok (g a)) ->
  sequence (map f l) = Ok (map g l).
Proof.
  induction l as [|a l IH]; intros Hf; simpl.
  - reflexivity.
  - rewrite (Hf a (or_introl eq_refl)). simpl.
    rewrite IH by (intros; apply Hf; now right). reflexivity.
Qed.

Lemma sequence_members (l : list MPArray) :
  sequence (map (fun mpp => match mpp with
                            | IsMPPovm a => Ok a
                            | IsMPArray a => MPPovm_init a
                            end) (map IsMPPovm l)) = Ok l.
Proof.
  induction l as [|a l IH]; simpl.
  - reflexivity.
  - rewrite IH. reflexivity.
Qed.

Lemma MPPovmList_init_ok (l : list MPArray) (n : nat) :
  Forall (fun a => len a = n) l -> MPPovmList_init (map IsMPPovm l) = Ok l.
Proof.
  intros Hlen. unfold MPPovmList_init.
  replace (forallb _ (map IsMPPovm l)) with true.
  - cbn [assert bind]. apply sequence_members.
  - symmetry. apply forallb_forall. intros m Hm.
    apply in_map_iff in Hm. destruct Hm as [a [<- Ha]].
    rewrite Forall_forall in Hlen. apply Nat.eqb_eq. simpl.
    rewrite (Hlen a Ha). destruct l as [|b l]; [contradiction|].
    simpl. symmetry. apply Hlen. now left.
Qed.

(** The member of [block] that starts at site [s]. *)
Lemma block_ok (P : MPArray) (nr_sites d : nat) :
  three_legs P = true -> hilbert_match P = true ->
  1 <= len P -> len P <= nr_sites ->
  Forall (fun h => h = d) (hdims P) ->
  block P nr_sites =
  Ok (map (fun s => outer [eye_sites (List.repeat d s); P;
                           eye_sites (List.repeat d (nr_sites - len P - s))])
          (seq 0 (nr_sites + 1 - len P))).
Proof.
  intros H3 Hh HL Hnr Hd. unfold block.
  destruct (hdims P) as [|local_dim hs] eqn:EP.
  - unfold hdims in EP. destruct P; [simpl in HL; lia | discriminate].
  - assert (local_dim = d) as -> by (inversion Hd; assumption).
    replace (forallb (fun d0 => d0 =? d) (d :: hs)) with true.
    + cbn [assert bind].
      rewrite (sequence_map_ok _
                 (fun s => outer [eye_sites (List.repeat d s); P;
                                  eye_sites (List.repeat d
                                               (nr_sites - len P - s))])).
      * cbn [bind]. apply MPPovmList_init_ok with (n := nr_sites).
        apply Forall_forall. intros a Ha. apply in_map_iff in Ha.
        destruct Ha as [s [<- Hs]]. apply in_seq in Hs.
        apply embed_len. lia.
      * intros s _. apply embed_ok; assumption.
    + symmetry. apply forallb_forall. intros x Hx.
      rewrite Forall_forall in Hd. apply Nat.eqb_eq. apply Hd. exact Hx.
Qed.

(** C8.  For an MP-POVM [P] of length [L >= 1] with uniform local Hilbert
    dimension [d] and [nr_sites >= L], [P.block(nr_sites)] returns a list
    of [nr_sites - L + 1] members; the member at index [s] is the tensor
    product of [eye] on [s] sites, [P], and [eye] on the remaining
    [nr_sites - L - s] sites. *)
Theorem block_sliding_window (P : MPArray) (nr_sites d : nat) :
  three_legs P = true -> hilbert_match P = true ->
  1 <= len P -> len P <= nr_sites ->
  Forall (fun h => h = d) (hdims P) ->
  exists mpps,
    block P nr_sites = Ok mpps /\
    length mpps = nr_sites - len P + 1 /\
    forall s, s <= nr_sites - len P ->
      exists left right,
        eye (List.repeat d s) = Ok left /\
        eye (List.repeat d (nr_sites - len P - s)) = Ok right /\
        nth_error mpps s = Some (outer [left; P; right]).
Proof.
  intros H3 Hh HL Hnr Hd.
  eexists. split; [apply block_ok with (d := d); assumption|].
  split.
  - rewrite length_map, length_seq. lia.
  - intros s Hs.
    exists (eye_sites (List.repeat d s)),
           (eye_sites (List.repeat d (nr_sites - len P - s))).
    split; [apply eye_ok|]. split; [apply eye_ok|].
    rewrite nth_error_map.
    replace (nth_error (seq 0 (nr_sites + 1 - len P)) s) with (Some s).
    + reflexivity.
    + symmetry. rewrite nth_error_nth' with (d := 0) by (rewrite length_seq; lia).
      rewrite seq_nth by lia. reflexivity.
Qed.

(** A two-site MP-POVM with two outcomes per site on qubits, used to run
    the structural operations on a concrete input. *)
Definition two_sites : MPArray :=
  [ MkLtens 1 [2; 2; 2] 1 (fun _ _ _ => Cplx.C1);
    MkLtens 1 [2; 2; 2] 1 (fun _ _ _ => Cplx.C1) ].

(** [block(3)] of a two-site MP-POVM: two members, [self (x) eye] and
    [eye (x) self]. *)
Lemma block_sliding_window_witness :
  exists mpps,
    block two_sites 3 = Ok mpps /\
    length mpps = 3 - len two_sites + 1 /\
    forall s, s <= 3 - len two_sites ->
      exists left right,
        eye (List.repeat 2 s) = Ok left /\
        eye (List.repeat 2 (3 - len two_sites - s)) = Ok right /\
        nth_error mpps s = Some (outer [left; two_sites; right]).
Proof.
  apply (@block_sliding_window two_sites 3 2).
  - reflexivity.
  - reflexivity.
  - simpl; lia.
  - simpl; lia.
  - repeat constructor.
Defined.

Lemma concat_repeat_len {A : Type} (l : list A) (k : nat) :
  length (concat (List.repeat l k)) = k * length l.
Proof.
  induction k as [|k IH]; simpl; [reflexivity|].
  rewrite length_app, IH. reflexivity.
Qed.

(** C7.  For an MP-POVM [P] of length [L >= 1] and [k >= 1],
    [P.repeat(k * L)] returns the [k]-fold tensor product of [P] with
    itself; so the norm of the difference is zero, below [1e-10], for
    every norm-difference function that vanishes on equal arguments. *)
Theorem repeat_multiple_is_product
  (norm_diff : MPArray -> MPArray -> R) (P : MPArray) (k : nat) :
  (forall a, norm_diff a a = 0%R) ->
  three_legs P = true -> hilbert_match P = true ->
  1 <= len P -> 1 <= k ->
  exists r,
    repeat P (k * len P) = Ok r /\
    r = outer (List.repeat P k) /\
    (norm_diff r (outer (List.repeat P k)) <= / 10 ^ 10)%R.
Proof.
  intros Hnorm H3 Hh HL Hk.
  exists (outer (List.repeat P k)). split; [|split].
  - unfold repeat.
    destruct (len P =? 0) eqn:E0; [apply Nat.eqb_eq in E0; lia|].
    rewrite Nat.Div0.mod_mul, Nat.div_mul by lia.
    cbn [Nat.ltb Nat.leb bind]. rewrite app_nil_r.
    apply MPPovm_init_ok.
    + apply three_legs_outer, Forall_forall.
      intros a Ha. apply repeat_spec in Ha. now subst.
    + apply hilbert_match_outer, Forall_forall.
      intros a Ha. apply repeat_spec in Ha. now subst.
  - reflexivity.
  - rewrite Hnorm. apply Rlt_le, Rinv_0_lt_compat, pow_lt. lra.
Qed.

Lemma repeat_multiple_is_product_witness :
  exists r,
    repeat two_sites (3 * len two_sites) = Ok r /\
    r = outer (List.repeat two_sites 3) /\
    ((fun _ _ => 0%R) r (outer (List.repeat two_sites 3)) <= / 10 ^ 10)%R.
Proof.
  apply (@repeat_multiple_is_product (fun _ _ => 0%R) two_sites 3).
  - reflexivity.
  - reflexivity.
  - reflexivity.
  - simpl; lia.
  - lia.
Defined.

(** C10.  For a state with at least one site in which every site has two
    physical legs, mode ['auto'] yields what mode ['mpdo'] yields; and mode
    ['auto'] is never resolved to ['pmps'], whatever the state. *)
Theorem expectations_auto_is_mpdo `{StateReduction} (self mpa : MPArray) :
  mpa <> [] ->
  Forall (fun pleg => pleg = 2) (plegs mpa) ->
  expectations self mpa "auto" = expectations self mpa "mpdo" /\
  resolve_mode mpa "auto" = "mpdo"%string /\
  (forall state, resolve_mode state "auto" <> "pmps"%string).
Proof.
  intros Hne H2.
  assert (Hres : resolve_mode mpa "auto" = "mpdo"%string).
  { unfold resolve_mode. cbn [String.eqb Ascii.eqb Bool.eqb].
    destruct mpa as [|lt mpa]; [contradiction|].
    simpl in H2. inversion H2 as [|x l Hx Hl]; subst.
    simpl. rewrite Hx. simpl.
    replace (forallb (fun pleg => pleg =? 2) (plegs mpa)) with true.
    - reflexivity.
    - symmetry. apply forallb_forall. intros n Hn.
      rewrite Forall_forall in Hl. apply Nat.eqb_eq. now apply Hl. }
  split; [|split].
  - unfold expectations. rewrite Hres. reflexivity.
  - exact Hres.
  - intros state. unfold resolve_mode. cbn [String.eqb Ascii.eqb Bool.eqb].
    destruct (forallb (fun pleg => pleg =? 1) (plegs state)); [discriminate|].
    destruct (forallb (fun pleg => pleg =? 2) (plegs state)); discriminate.
Qed.

(** A one-site density operator (two physical legs) and a stand-in for
    the state-reduction interface, to run [expectations]. *)
Definition one_site_mpdo : MPArray :=
  [ MkLtens 1 [2; 2] 1 (fun _ _ _ => Cplx.C1) ].

Definition whole_state_reduction : StateReduction :=
  {| reductions_mps_as_pmps := fun mpa _ => [mpa];
     reductions_mpo := fun mpa _ => [mpa];
     reductions_pmps := fun mpa _ => [mpa];
     pmps_to_mpo := fun mpa => mpa;
     dot := fun a b => a ++ b;
     ravel := fun mpa => mpa |}.

Lemma expectations_auto_is_mpdo_witness :
  @expectations whole_state_reduction (eye_sites [2]) one_site_mpdo "auto" =
  @expectations whole_state_reduction (eye_sites [2]) one_site_mpdo "mpdo" /\
  resolve_mode one_site_mpdo "auto" = "mpdo"%string /\
  (forall state, resolve_mode state "auto" <> "pmps"%string).
Proof.
  apply (@expectations_auto_is_mpdo whole_state_reduction
           (eye_sites [2]) one_site_mpdo).
  - discriminate.
  - repeat constructor.
Defined.

(** C9.  [MPPovmList.estprob_from] calls a method named
    [estprob_from_mpps], which neither [MPPovm] nor its base class has:
    on lists with at least one member each, the generator yields nothing
    and ends with an [AttributeError] (an [AssertionError] when the site
    counts differ), whatever [estprob_from_mpplist] computes. *)
Theorem estprob_from_raises {Samples Estimate : Type}
  (estprob_from_mpplist :
     MPArray -> list MPArray -> Samples -> R -> result Estimate)
  (s0 o0 : MPArray) (self other : list MPArray) (samples : Samples) (eps : R) :
  estprob_from estprob_from_mpplist (s0 :: self) (o0 :: other) samples eps =
  ([], Some (if len s0 =? len o0 then AttributeError else AssertionError)).
Proof.
  unfold estprob_from. destruct (len s0 =? len o0); reflexivity.
Qed.

(** *** Dimensions of tensor products *)

Lemma outdims_app (a b : MPArray) : outdims (a ++ b) = outdims a ++ outdims b.
Proof. unfold outdims. apply map_app. Qed.

Lemma hdims_app (a b : MPArray) : hdims (a ++ b) = hdims a ++ hdims b.
Proof. unfold hdims. apply map_app. Qed.

Lemma len_app (a b : MPArray) : len (a ++ b) = len a + len b.
Proof. unfold len. apply length_app. Qed.

Lemma nsoutdims_app (a b : MPArray) :
  nsoutdims (a ++ b) = nsoutdims a ++ nsoutdims b.
Proof. unfold nsoutdims. rewrite outdims_app. apply filter_app. Qed.

Lemma outdims_eye_sites_all (dims : list nat) :
  outdims (eye_sites dims) = map (fun _ => 1) dims.
Proof.
  unfold outdims, eye_sites, from_kron.
  induction dims as [|d dims IH]; [reflexivity|].
  cbn [map]. f_equal. exact IH.
Qed.

Lemma outdims_eye_sites (d n : nat) :
  outdims (eye_sites (List.repeat d n)) = List.repeat 1 n.
Proof.
  rewrite outdims_eye_sites_all, map_repeat. reflexivity.
Qed.

Lemma hdims_eye_sites (dims : list nat) : hdims (eye_sites dims) = dims.
Proof.
  unfold hdims, eye_sites, from_kron.
  induction dims as [|d dims IH]; [reflexivity|].
  cbn [map]. f_equal. exact IH.
Qed.

Lemma nsoutdims_eye_sites (d n : nat) :
  nsoutdims (eye_sites (List.repeat d n)) = [].
Proof.
  unfold nsoutdims. rewrite outdims_eye_sites.
  induction n as [|n IH]; simpl; [reflexivity | exact IH].
Qed.

Lemma outer3 (a b c : MPArray) : outer [a; b; c] = a ++ b ++ c.
Proof. unfold outer. simpl. now rewrite app_nil_r. Qed.

(** *** eye and embed *)

(** [MPPovm.eye] never fails; the result has one site per local
    dimension, those Hilbert dimensions, and no outcome: every outcome
    dimension is one, so [nsoutdims] is empty. *)
Theorem eye_has_no_outcome (local_dims : list nat) :
  exists r,
    eye local_dims = Ok r /\
    len r = length local_dims /\
    hdims r = local_dims /\
    outdims r = map (fun _ => 1) local_dims /\
    nsoutdims r = [].
Proof.
  exists (eye_sites local_dims). split; [apply eye_ok|].
  split; [apply eye_sites_len|]. split; [apply hdims_eye_sites|].
  split; [apply outdims_eye_sites_all|].
  unfold nsoutdims. rewrite outdims_eye_sites_all.
  induction local_dims as [|d dims IH]; simpl; auto.
Qed.

(** [embed] of an MP-POVM returns: the result has [self] on the sites
    from [startsite] on and [eye] elsewhere, so it has the outcomes of
    [self] and no others.  When [nr_sites] is too small for [self] at
    [startsite], nothing is added on the right and the result is longer
    than [nr_sites]. *)
Theorem embed_keeps_outcomes (self : MPArray)
  (nr_sites startsite local_dim : nat) :
  three_legs self = true -> hilbert_match self = true ->
  exists r,
    embed self nr_sites startsite local_dim = Ok r /\
    len r = Nat.max nr_sites (startsite + len self) /\
    outdims r = List.repeat 1 startsite ++ outdims self
                ++ List.repeat 1 (nr_sites - len self - startsite) /\
    hdims r = List.repeat local_dim startsite ++ hdims self
              ++ List.repeat local_dim (nr_sites - len self - startsite) /\
    nsoutdims r = nsoutdims self.
Proof.
  intros H3 Hh. eexists. split; [now apply embed_ok|].
  rewrite outer3. split; [|split; [|split]].
  - rewrite !len_app, !eye_sites_len, !repeat_length. lia.
  - now rewrite !outdims_app, !outdims_eye_sites.
  - now rewrite !hdims_app, !hdims_eye_sites.
  - rewrite !nsoutdims_app, !nsoutdims_eye_sites. simpl. apply app_nil_r.
Qed.

Lemma embed_keeps_outcomes_witness :
  exists r,
    embed two_sites 3 2 2 = Ok r /\
    len r = Nat.max 3 (2 + len two_sites) /\
    outdims r = List.repeat 1 2 ++ outdims two_sites
                ++ List.repeat 1 (3 - len two_sites - 2) /\
    hdims r = List.repeat 2 2 ++ hdims two_sites
              ++ List.repeat 2 (3 - len two_sites - 2) /\
    nsoutdims r = nsoutdims two_sites.
Proof.
  apply (embed_keeps_outcomes two_sites 3 2 2); reflexivity.
Defined.

(** *** repeat *)

Lemma nth_error_concat_repeat {A : Type} (l : list A) (q i : nat) :
  i < q * length l ->
  nth_error (concat (List.repeat l q)) i = nth_error l (i mod length l).
Proof.
  revert i. induction q as [|q IH]; intros i Hi; [simpl in Hi; lia|].
  cbn [List.repeat concat].
  destruct (Nat.lt_ge_cases i (length l)) as [Hlt|Hge].
  - rewrite nth_error_app1 by exact Hlt. now rewrite Nat.mod_small.
  - rewrite nth_error_app2 by exact Hge.
    rewrite IH by (simpl in Hi; lia).
    replace i with (i - length l + 1 * length l) at 2 by lia.
    now rewrite Nat.Div0.mod_add.
Qed.

Lemma forallb_firstn {A : Type} (f : A -> bool) (l : list A) (n : nat) :
  forallb f l = true -> forallb f (firstn n l) = true.
Proof.
  revert n. induction l as [|x l IH]; intros [|n] H; simpl in *; auto.
  apply andb_true_iff in H. destruct H as [Hx Hl].
  rewrite Hx. simpl. now apply IH.
Qed.

Lemma bdims_length (P : MPArray) : length (bdims P) = len P - 1.
Proof.
  unfold bdims, len. rewrite length_map.
  rewrite removelast_firstn_len, length_firstn. lia.
Qed.

Lemma repeat_parts_ok (P : MPArray) (q m : nat) :
  three_legs P = true -> hilbert_match P = true ->
  MPPovm_init (outer (List.repeat P q
                      ++ (if 0 <? m then [firstn m P] else []))) =
  Ok (concat (List.repeat P q) ++ firstn m P).
Proof.
  intros H3 Hh.
  assert (E : outer (List.repeat P q ++ (if 0 <? m then [firstn m P] else []))
              = concat (List.repeat P q) ++ firstn m P).
  { unfold outer. rewrite concat_app. f_equal.
    destruct m as [|m]; simpl; [reflexivity | now rewrite app_nil_r]. }
  rewrite E. apply MPPovm_init_ok.
  - unfold three_legs, plegs in *. rewrite map_app. apply forallb_app_true.
    + fold (plegs (concat (List.repeat P q))).
      apply (three_legs_outer (List.repeat P q)), Forall_forall.
      intros a Ha. apply repeat_spec in Ha. now subst.
    + rewrite <- firstn_map. now apply forallb_firstn.
  - unfold hilbert_match, pdims in *. rewrite map_app. apply forallb_app_true.
    + apply (hilbert_match_outer (List.repeat P q)), Forall_forall.
      intros a Ha. apply repeat_spec in Ha. now subst.
    + rewrite <- firstn_map. now apply forallb_firstn.
Qed.

Lemma repeat_parts_cyclic (P : MPArray) (nr_sites i : nat) :
  1 <= len P -> i < nr_sites ->
  nth_error (concat (List.repeat P (nr_sites / len P))
             ++ firstn (nr_sites mod len P) P) i =
  nth_error P (i mod len P).
Proof.
  intros HL Hi. unfold len in *.
  set (L := length P) in *. set (q := nr_sites / L). set (m := nr_sites mod L).
  assert (Hn : nr_sites = L * q + m) by (apply Nat.div_mod_eq).
  assert (Hm : m < L) by (apply Nat.mod_upper_bound; lia).
  assert (Hlen : length (concat (List.repeat P q)) = q * L)
    by apply concat_repeat_len.
  destruct (Nat.lt_ge_cases i (q * L)) as [Hlt|Hge].
  - rewrite nth_error_app1 by lia. now apply nth_error_concat_repeat.
  - rewrite nth_error_app2 by lia. rewrite Hlen, nth_error_firstn.
    replace (i - q * L <? m) with true by (symmetry; apply Nat.ltb_lt; nia).
    f_equal. replace i with (i - q * L + q * L) at 2 by lia.
    rewrite Nat.Div0.mod_add. symmetry. apply Nat.mod_small. nia.
Qed.

Lemma repeat_parts_len (P : MPArray) (nr_sites : nat) :
  1 <= len P ->
  len (concat (List.repeat P (nr_sites / len P))
       ++ firstn (nr_sites mod len P) P) = nr_sites.
Proof.
  intros HL. unfold len in *.
  assert (Hlen : length (concat (List.repeat P (nr_sites / length P)))
                 = nr_sites / length P * length P)
    by apply concat_repeat_len.
  rewrite length_app, Hlen, length_firstn.
  pose proof (Nat.div_mod_eq nr_sites (length P)).
  pose proof (Nat.mod_upper_bound nr_sites (length P)). nia.
Qed.

Lemma repeat_ok (P : MPArray) (nr_sites : nat) :
  three_legs P = true -> hilbert_match P = true -> 1 <= len P ->
  nth_error (1 :: bdims P) (nr_sites mod len P) = Some 1 ->
  repeat P nr_sites =
  Ok (concat (List.repeat P (nr_sites / len P))
      ++ firstn (nr_sites mod len P) P).
Proof.
  intros H3 Hh HL Hb. unfold repeat.
  destruct (len P =? 0) eqn:E0; [apply Nat.eqb_eq in E0; lia|].
  destruct (nr_sites mod len P) as [|m] eqn:Em.
  - cbn [Nat.ltb Nat.leb bind].
    pose proof (repeat_parts_ok P (nr_sites / len P) 0 H3 Hh) as Hok.
    cbn [Nat.ltb Nat.leb] in Hok. exact Hok.
  - cbn [nth_error] in Hb.
    change (0 <? S m) with true. cbn iota.
    replace (S m - 1) with m by lia. rewrite Hb.
    cbn [Nat.eqb assert bind].
    pose proof (repeat_parts_ok P (nr_sites / len P) (S m) H3 Hh) as Hok.
    change (0 <? S m) with true in Hok. cbn iota in Hok. exact Hok.
Qed.

(** [repeat] for any number of sites.  On an MP-POVM without sites the
    division fails.  Otherwise, with [n_last = nr_sites % len(self)]: if
    [n_last] is zero or the bond after site [n_last - 1] has dimension
    one, the result has exactly [nr_sites] sites and site [i] is site
    [i mod len(self)] of [self]; if that bond is larger, the assertion
    fails.  The index into [bdims] is never out of range. *)
Theorem repeat_is_cyclic (P : MPArray) (nr_sites : nat) :
  (len P = 0 -> repeat P nr_sites = Raise ZeroDivisionError) /\
  (three_legs P = true -> hilbert_match P = true -> 1 <= len P ->
   exists b,
     nth_error (1 :: bdims P) (nr_sites mod len P) = Some b /\
     (b = 1 ->
      exists r,
        repeat P nr_sites = Ok r /\
        len r = nr_sites /\
        forall i, i < nr_sites -> nth_error r i = nth_error P (i mod len P)) /\
     (b <> 1 -> repeat P nr_sites = Raise AssertionError)).
Proof.
  split.
  - intros H0. unfold repeat. now rewrite H0.
  - intros H3 Hh HL.
    assert (Hm : nr_sites mod len P < len P)
      by (apply Nat.mod_upper_bound; lia).
    assert (Hex : exists b,
               nth_error (1 :: bdims P) (nr_sites mod len P) = Some b).
    { destruct (nth_error (1 :: bdims P) (nr_sites mod len P)) as [b|] eqn:E.
      - now exists b.
      - apply nth_error_None in E. simpl in E. rewrite bdims_length in E. lia. }
    destruct Hex as [b Hb]. exists b. split; [exact Hb|]. split.
    + intros ->. eexists. split; [now apply repeat_ok|].
      split; [now apply repeat_parts_len|].
      intros i Hi. now apply repeat_parts_cyclic.
    + intros Hne. unfold repeat.
      destruct (len P =? 0) eqn:E0; [apply Nat.eqb_eq in E0; lia|].
      destruct (nr_sites mod len P) as [|m] eqn:Em.
      * simpl in Hb. congruence.
      * cbn [nth_error] in Hb.
        change (0 <? S m) with true. cbn iota.
        replace (S m - 1) with m by lia. rewrite Hb.
        apply Nat.eqb_neq in Hne. rewrite Hne. reflexivity.
Qed.

(** A two-site MP-POVM whose sites are joined by a bond of dimension
    two: it does not factorize between its sites. *)
Definition bonded_sites : MPArray :=
  [ MkLtens 1 [2; 2; 2] 2 (fun _ _ _ => Cplx.C1);
    MkLtens 2 [2; 2; 2] 1 (fun _ _ _ => Cplx.C1) ].

Lemma repeat_is_cyclic_witness :
  (exists r,
     repeat two_sites 5 = Ok r /\
     len r = 5 /\
     forall i, i < 5 -> nth_error r i = nth_error two_sites (i mod len two_sites))
  /\ repeat bonded_sites 5 = Raise AssertionError
  /\ repeat [] 5 = Raise ZeroDivisionError.
Proof.
  split; [|split].
  - destruct (proj2 (repeat_is_cyclic two_sites 5) eq_refl eq_refl
                (Nat.le_succ_diag_r 1)) as [b [Hb [Hok _]]].
    apply Hok. vm_compute in Hb. congruence.
  - destruct (proj2 (repeat_is_cyclic bonded_sites 5) eq_refl eq_refl
                (Nat.le_succ_diag_r 1)) as [b [Hb [_ Herr]]].
    apply Herr. vm_compute in Hb. congruence.
  - apply (proj1 (repeat_is_cyclic [] 5)). reflexivity.
Defined.

(** *** block *)

(** Under the conditions of the sliding window, every member of
    [block(nr_sites)] has [nr_sites] sites of the uniform Hilbert
    dimension and exactly the outcomes of [self]. *)
Theorem block_members_measure_like_self (P : MPArray) (nr_sites d : nat) :
  three_legs P = true -> hilbert_match P = true ->
  1 <= len P -> len P <= nr_sites ->
  Forall (fun h => h = d) (hdims P) ->
  exists mpps,
    block P nr_sites = Ok mpps /\
    Forall (fun m => len m = nr_sites /\
                     hdims m = List.repeat d nr_sites /\
                     nsoutdims m = nsoutdims P) mpps.
Proof.
  intros H3 Hh HL Hnr Hd.
  eexists. split; [apply block_ok with (d := d); assumption|].
  apply Forall_forall. intros m Hm. apply in_map_iff in Hm.
  destruct Hm as [s [<- Hs]]. apply in_seq in Hs. rewrite outer3.
  split; [|split].
  - rewrite !len_app, !eye_sites_len, !repeat_length. lia.
  - rewrite !hdims_app, !hdims_eye_sites.
    assert (HP : hdims P = List.repeat d (len P)).
    { unfold len. replace (length P) with (length (hdims P))
        by (unfold hdims; apply length_map).
      apply Forall_eq_repeat. eapply Forall_impl; [|exact Hd].
      intros a Ha. now symmetry. }
    rewrite HP, <- !repeat_app. f_equal. lia.
  - rewrite !nsoutdims_app, !nsoutdims_eye_sites. simpl. apply app_nil_r.
Qed.

Lemma block_members_measure_like_self_witness :
  exists mpps,
    block two_sites 3 = Ok mpps /\
    Forall (fun m => len m = 3 /\
                     hdims m = List.repeat 2 3 /\
                     nsoutdims m = nsoutdims two_sites) mpps.
Proof.
  apply (block_members_measure_like_self two_sites 3 2).
  - reflexivity.
  - reflexivity.
  - simpl; lia.
  - simpl; lia.
  - repeat constructor.
Defined.

(** Edge cases of [block]: without sites, [hdims[0]] is out of range;
    with different Hilbert dimensions the assertion fails; and a chain
    shorter than [self] gives the empty list, not an error. *)
Theorem block_edge_cases (P : MPArray) (nr_sites : nat) :
  (P = [] -> block P nr_sites = Raise IndexError) /\
  (forall h h', In h (hdims P) -> In h' (hdims P) -> h <> h' ->
                block P nr_sites = Raise AssertionError) /\
  (forall d, P <> [] -> Forall (fun h => h = d) (hdims P) ->
             nr_sites < len P -> block P nr_sites = Ok []).
Proof.
  split; [|split].
  - intros ->. reflexivity.
  - intros h h' Hh Hh' Hne. unfold block.
    destruct (hdims P) as [|local_dim hs] eqn:EP; [contradiction|].
    replace (forallb (fun d => d =? local_dim) (local_dim :: hs)) with false;
      [reflexivity|].
    symmetry. apply not_true_is_false. intros Hall.
    rewrite forallb_forall in Hall.
    pose proof (Hall h Hh) as E1. pose proof (Hall h' Hh') as E2.
    apply Nat.eqb_eq in E1, E2. congruence.
  - intros d Hne Hd Hlt. unfold block.
    destruct (hdims P) as [|local_dim hs] eqn:EP.
    + destruct P; [contradiction | discriminate].
    + replace (forallb (fun d0 => d0 =? local_dim) (local_dim :: hs)) with true.
      * replace (nr_sites + 1 - len P) with 0 by lia. reflexivity.
      * symmetry. apply forallb_forall. intros x Hx.
        rewrite Forall_forall in Hd. apply Nat.eqb_eq.
        rewrite (Hd x Hx). symmetry. apply Hd. now left.
Qed.

(** A two-site MP-POVM on a qubit and a qutrit. *)
Definition mixed_sites : MPArray :=
  [ MkLtens 1 [2; 2; 2] 1 (fun _ _ _ => Cplx.C1);
    MkLtens 1 [2; 3; 3] 1 (fun _ _ _ => Cplx.C1) ].

Lemma block_edge_cases_witness :
  block [] 3 = Raise IndexError /\
  block mixed_sites 3 = Raise AssertionError /\
  block two_sites 1 = Ok [].
Proof.
  split; [|split].
  - apply (proj1 (block_edge_cases [] 3)). reflexivity.
  - apply (proj1 (proj2 (block_edge_cases mixed_sites 3)) 2 3).
    + simpl; auto.
    + simpl; auto.
    + discriminate.
  - apply (proj2 (proj2 (block_edge_cases two_sites 1)) 2).
    + discriminate.
    + repeat constructor.
    + simpl; lia.
Defined.

(** *** MPPovmList *)

Lemma sequence_ok_inv {A : Type} (l : list (result A)) (r : list A) :
  sequence l = Ok r -> l = map Ok r.
Proof.
  revert r. induction l as [|x l IH]; intros r H; simpl in H.
  - inversion H. reflexivity.
  - destruct x as [a|e]; [|discriminate]. cbn [bind] in H.
    destruct (sequence l) as [t|e]; [|discriminate]. cbn [bind] in H.
    inversion H; subst. simpl. f_equal. now apply IH.
Qed.

Lemma sequence_raise {A : Type} (l : list (result A)) (e : exn) :
  sequence l = Raise e -> In (Raise e) l.
Proof.
  induction l as [|x l IH]; intros H; simpl in H; [discriminate|].
  destruct x as [a|e']; cbn [bind] in H.
  - destruct (sequence l) as [t|e']; cbn [bind] in H; [discriminate|].
    right. apply IH. exact H.
  - left. inversion H. reflexivity.
Qed.

(** The constructor of [MPPovmList] returns exactly when all members have
    the number of sites of the first one and every member that is not
    yet an [MPPovm] passes the assertions of [MPPovm]; the members are
    then kept in order.  Every failure is an [AssertionError]. *)
Theorem MPPovmList_init_spec (mppseq : list member) :
  (forall l, MPPovmList_init mppseq = Ok l ->
     l = map member_sites mppseq /\
     Forall (fun mpp => len (member_sites mpp)
                        = len (member_sites (hd (IsMPArray []) mppseq)))
            mppseq) /\
  (Forall (fun mpp => len (member_sites mpp)
                      = len (member_sites (hd (IsMPArray []) mppseq)))
          mppseq ->
   Forall (fun mpp => three_legs (member_sites mpp) = true /\
                      hilbert_match (member_sites mpp) = true) mppseq ->
   MPPovmList_init mppseq = Ok (map member_sites mppseq)) /\
  (forall e, MPPovmList_init mppseq = Raise e -> e = AssertionError).
Proof.
  unfold MPPovmList_init.
  set (first := len (member_sites (hd (IsMPArray []) mppseq))).
  generalize first. clear first. intros first.
  set (conv := fun mpp => match mpp with
                          | IsMPPovm a => Ok a
                          | IsMPArray a => MPPovm_init a
                          end).
  assert (Hconv : forall m r, conv m = Ok r -> r = member_sites m).
  { intros [a|a] r H; simpl in H.
    - now inversion H.
    - unfold MPPovm_init in H.
      destruct (three_legs a); [|discriminate].
      destruct (hilbert_match a); [|discriminate].
      now inversion H. }
  assert (Hconv_e : forall m e, conv m = Raise e -> e = AssertionError).
  { intros [a|a] e H; simpl in H; [discriminate|].
    unfold MPPovm_init in H.
    destruct (three_legs a); [|now inversion H].
    destruct (hilbert_match a); [discriminate | now inversion H]. }
  split; [|split].
  - intros l H.
    destruct (forallb (fun mpp => len (member_sites mpp) =? first) mppseq)
      eqn:Hall; [|discriminate].
    cbn [assert bind] in H. split.
    + apply sequence_ok_inv in H. clear Hall. revert l H.
      induction mppseq as [|m ms IH]; intros l H.
      * destruct l; [reflexivity | discriminate].
      * destruct l as [|r l]; [discriminate|]. simpl in H.
        inversion H as [[Hm Hms]]. simpl. f_equal.
        -- now apply Hconv.
        -- now apply IH.
    + apply Forall_forall. intros m Hm. rewrite forallb_forall in Hall.
      apply Nat.eqb_eq. now apply Hall.
  - intros Hlen Hvalid.
    replace (forallb (fun mpp => len (member_sites mpp) =? first) mppseq)
      with true.
    + cbn [assert bind]. clear Hlen.
      induction Hvalid as [|m ms [H3 Hh] _ IH]; [reflexivity|].
      cbn [map sequence]. rewrite IH.
      destruct m as [a|a]; simpl; [reflexivity|].
      simpl in H3, Hh. unfold MPPovm_init. rewrite H3, Hh. reflexivity.
    + symmetry. apply forallb_forall. intros m Hm.
      rewrite Forall_forall in Hlen. apply Nat.eqb_eq. now apply Hlen.
  - intros e H.
    destruct (forallb (fun mpp => len (member_sites mpp) =? first) mppseq);
      cbn [assert bind] in H; [|now inversion H].
    apply sequence_raise in H. apply in_map_iff in H.
    destruct H as [m [Hm _]]. now apply Hconv_e in Hm.
Qed.

Lemma MPPovmList_init_spec_witness :
  MPPovmList_init [IsMPArray two_sites; IsMPPovm mixed_sites] =
  Ok (map member_sites [IsMPArray two_sites; IsMPPovm mixed_sites]).
Proof.
  apply (proj1 (proj2 (MPPovmList_init_spec
                         [IsMPArray two_sites; IsMPPovm mixed_sites]))).
  - repeat constructor.
  - repeat constructor.
Defined.

Lemma min_lengths_uniform {A : Type} (n : nat) (lists : list (list A)) :
  Forall (fun l => length l = n) lists ->
  fold_right Nat.min n (map (@length _) lists) = n.
Proof.
  induction 1 as [|l lists Hl _ IH]; simpl; [reflexivity|].
  rewrite IH, Hl. apply Nat.min_id.
Qed.

Lemma zip_star_table {A B : Type} (f : A -> nat -> B) (n : nat)
  (xs : list A) :
  xs <> [] ->
  zip_star (map (fun x => map (f x) (seq 0 n)) xs) =
  map (fun k => map (fun x => f x k) xs) (seq 0 n).
Proof.
  intros Hne. destruct xs as [|x0 xs]; [contradiction|].
  set (T := map (fun x => map (f x) (seq 0 n)) (x0 :: xs)).
  assert (HT : Forall (fun l => length l = n) T).
  { apply Forall_forall. intros l Hl. unfold T in Hl.
    apply in_map_iff in Hl. destruct Hl as [x [<- _]].
    now rewrite length_map, length_seq. }
  assert (Hz : zip_star T =
               map (fun k => flat_map
                               (fun l => match nth_error l k with
                                         | Some x => [x]
                                         | None => []
                                         end) T)
                   (seq 0 (fold_right Nat.min n (map (@length _) T)))).
  { unfold T, zip_star. cbn [map].
    rewrite (length_map (f x0) (seq 0 n)), length_seq. reflexivity. }
  rewrite Hz, (@min_lengths_uniform _ n T HT).
  apply map_ext_in. intros k Hk. apply in_seq in Hk.
  unfold T. generalize (x0 :: xs). intros l.
  induction l as [|x l IH]; [reflexivity|].
  cbn [map flat_map]. rewrite IH, nth_error_map, nth_error_seq.
  replace (k <? n) with true by (symmetry; apply Nat.ltb_lt; lia).
  reflexivity.
Qed.

Lemma nth_concat_table {A B : Type} (g : nat -> A -> B) (xs : list A)
  (n s i : nat) (x0 : A) (y0 : B) :
  s < n -> i < length xs ->
  nth (s * length xs + i)
      (concat (map (fun k => map (g k) xs) (seq 0 n))) y0 =
  g s (nth i xs x0).
Proof.
  intros Hs Hi.
  assert (Hgen : forall base s', s' < n ->
            nth (s' * length xs + i)
                (concat (map (fun k => map (g k) xs) (seq base n))) y0 =
            g (base + s') (nth i xs x0)).
  { clear s Hs. induction n as [|n IH]; intros base s Hs; [lia|].
    cbn [seq map concat]. destruct s as [|s].
    - cbn [Nat.mul Nat.add].
      rewrite app_nth1 by (rewrite length_map; exact Hi).
      rewrite (nth_indep _ y0 (g base x0)) by (rewrite length_map; exact Hi).
      rewrite map_nth. f_equal. lia.
    - rewrite app_nth2 by (rewrite length_map; simpl; lia).
      rewrite length_map.
      replace (S s * length xs + i - length xs) with (s * length xs + i)
        by (simpl; lia).
      rewrite (IH (S base) s) by lia. f_equal. lia. }
  exact (Hgen 0 s Hs).
Qed.

Lemma length_concat_table {B : Type} (g : nat -> list B) (n m base : nat) :
  (forall k, length (g k) = m) ->
  length (concat (map g (seq base n))) = n * m.
Proof.
  intros Hg. revert base. induction n as [|n IH]; intros base; [reflexivity|].
  cbn [seq map concat]. rewrite length_app, Hg, IH. simpl. lia.
Qed.

(** [MPPovmList.block] for members of a common length [L >= 1], each with
    a uniform Hilbert dimension, and [nr_sites >= L]: the result lists,
    position by position, the embeddings of all members at that
    position; the member [i] embedded at site [s] is entry
    [s * len(mpps) + i]. *)
Theorem MPPovmList_block_interleaves (ms : list MPArray) (L nr_sites : nat) :
  Forall (fun m => three_legs m = true /\ hilbert_match m = true) ms ->
  Forall (fun m => len m = L) ms ->
  Forall (fun m => Forall (fun h => h = hd 0 (hdims m)) (hdims m)) ms ->
  1 <= L -> L <= nr_sites ->
  exists r,
    MPPovmList_block ms nr_sites = Ok r /\
    length r = (nr_sites - L + 1) * length ms /\
    forall s i, s <= nr_sites - L -> i < length ms ->
      embed (nth i ms []) nr_sites s (hd 0 (hdims (nth i ms []))) =
      Ok (nth (s * length ms + i) r []).
Proof.
  intros Hvalid Hlen Hunif HL Hnr.
  set (E := fun (m : MPArray) (s : nat) =>
              outer [eye_sites (List.repeat (hd 0 (hdims m)) s); m;
                     eye_sites (List.repeat (hd 0 (hdims m))
                                            (nr_sites - L - s))]).
  assert (Hblocks : sequence (map (fun m => block m nr_sites) ms) =
                    Ok (map (fun m => map (E m) (seq 0 (nr_sites + 1 - L))) ms)).
  { apply sequence_map_ok. intros m Hm.
    rewrite Forall_forall in Hvalid, Hlen, Hunif.
    destruct (Hvalid m Hm) as [H3 Hh].
    rewrite (block_ok m nr_sites (hd 0 (hdims m)) H3 Hh)
      by (rewrite ?(Hlen m Hm); auto).
    unfold E. now rewrite (Hlen m Hm). }
  unfold MPPovmList_block. rewrite Hblocks. cbn [bind].
  destruct ms as [|m0 ms'] eqn:Ems.
  - exists []. split; [reflexivity|]. split; [simpl; lia|].
    intros s i _ Hi. simpl in Hi. lia.
  - rewrite <- Ems in *.
    assert (Hne : ms <> []) by (rewrite Ems; discriminate).
    rewrite zip_star_table by exact Hne.
    set (r := concat (map (fun k => map (fun x => E x k) ms)
                          (seq 0 (nr_sites + 1 - L)))).
    assert (HE : forall m s, In m ms -> s < nr_sites + 1 - L ->
                             len (E m s) = nr_sites).
    { intros m s Hm Hs. unfold E. rewrite Forall_forall in Hlen.
      rewrite <- (Hlen m Hm). apply embed_len. rewrite (Hlen m Hm). lia. }
    exists r. split; [|split].
    + apply MPPovmList_init_ok with (n := nr_sites).
      apply Forall_forall. intros a Ha. unfold r in Ha.
      apply in_concat in Ha. destruct Ha as [row [Hrow Ha]].
      apply in_map_iff in Hrow. destruct Hrow as [k [<- Hk]].
      apply in_map_iff in Ha. destruct Ha as [m [<- Hm]].
      apply in_seq in Hk. apply HE; [exact Hm | lia].
    + unfold r. rewrite length_concat_table with (m := length ms)
        by (intros; apply length_map).
      f_equal. lia.
    + intros s i Hs Hi.
      assert (Hin : In (nth i ms []) ms) by (apply nth_In; exact Hi).
      rewrite Forall_forall in Hvalid, Hlen.
      destruct (Hvalid _ Hin) as [H3 Hh].
      rewrite (embed_ok _ nr_sites s (hd 0 (hdims (nth i ms []))) H3 Hh).
      f_equal. unfold r.
      rewrite (nth_concat_table (fun k x => E x k) ms
                 (nr_sites + 1 - L) s i [] []) by lia.
      unfold E. now rewrite (Hlen _ Hin).
Qed.

Lemma MPPovmList_block_interleaves_witness :
  exists r,
    MPPovmList_block [two_sites; bonded_sites] 3 = Ok r /\
    length r = (3 - 2 + 1) * length [two_sites; bonded_sites] /\
    forall s i, s <= 3 - 2 -> i < length [two_sites; bonded_sites] ->
      embed (nth i [two_sites; bonded_sites] []) 3 s
            (hd 0 (hdims (nth i [two_sites; bonded_sites] []))) =
      Ok (nth (s * length [two_sites; bonded_sites] + i) r []).
Proof.
  apply (MPPovmList_block_interleaves [two_sites; bonded_sites] 2 3).
  - repeat constructor.
  - repeat constructor.
  - repeat constructor.
  - lia.
  - lia.
Defined.

(** [MPPovmList.repeat] on members that [MPPovm.repeat] accepts: the
    result has one member per member of [self], in order, each with
    [nr_sites] sites, site [i] being site [i mod len(member)] of the
    member. *)
Theorem MPPovmList_repeat_members (ms : list MPArray) (nr_sites : nat) :
  Forall (fun m => three_legs m = true /\ hilbert_match m = true /\
                   1 <= len m /\
                   nth_error (1 :: bdims m) (nr_sites mod len m) = Some 1) ms ->
  exists r,
    MPPovmList_repeat ms nr_sites = Ok r /\
    Forall2 (fun m m' => repeat m nr_sites = Ok m' /\ len m' = nr_sites /\
                         forall i, i < nr_sites ->
                           nth_error m' i = nth_error m (i mod len m))
            ms r.
Proof.
  intros Hms.
  set (R := fun m : MPArray =>
              concat (List.repeat m (nr_sites / len m))
              ++ firstn (nr_sites mod len m) m).
  exists (map R ms). split.
  - unfold MPPovmList_repeat.
    rewrite (sequence_map_ok _ R).
    + cbn [bind]. apply MPPovmList_init_ok with (n := nr_sites).
      apply Forall_forall. intros a Ha. apply in_map_iff in Ha.
      destruct Ha as [m [<- Hm]]. rewrite Forall_forall in Hms.
      destruct (Hms m Hm) as [_ [_ [HL _]]]. now apply repeat_parts_len.
    + intros m Hm. rewrite Forall_forall in Hms.
      destruct (Hms m Hm) as [H3 [Hh [HL Hb]]]. now apply repeat_ok.
  - induction Hms as [|m ms [H3 [Hh [HL Hb]]] _ IH]; simpl; constructor.
    + split; [now apply repeat_ok|]. split; [now apply repeat_parts_len|].
      intros i Hi. now apply repeat_parts_cyclic.
    + exact IH.
Qed.

Lemma MPPovmList_repeat_members_witness :
  exists r,
    MPPovmList_repeat [two_sites; mixed_sites] 5 = Ok r /\
    Forall2 (fun m m' => repeat m 5 = Ok m' /\ len m' = 5 /\
                         forall i, i < 5 ->
                           nth_error m' i = nth_error m (i mod len m))
            [two_sites; mixed_sites] r.
Proof.
  apply (MPPovmList_repeat_members [two_sites; mixed_sites] 5).
  repeat constructor.
Defined.

(** *** expectations *)

(** Failures of [expectations]: a state shorter than the MP-POVM fails
    the assertion; an unknown mode, and mode ['auto'] on a state whose
    sites neither all have one nor all have two physical legs, end in a
    [ValueError].  In each case nothing is yielded. *)
Theorem expectations_failures `{StateReduction} (self mpa : MPArray)
  (mode : string) :
  (len mpa < len self ->
   expectations self mpa mode = ([], Some AssertionError)) /\
  (len self <= len mpa ->
   ~ In mode ["auto"; "mps"; "mpdo"; "pmps"]%string ->
   expectations self mpa mode = ([], Some ValueError)) /\
  (len self <= len mpa ->
   (exists n, In n (plegs mpa) /\ n <> 1) ->
   (exists n, In n (plegs mpa) /\ n <> 2) ->
   expectations self mpa "auto" = ([], Some ValueError)).
Proof.
  split; [|split].
  - intros Hlt. unfold expectations.
    replace (len self <=? len mpa) with false
      by (symmetry; apply Nat.leb_gt; exact Hlt).
    reflexivity.
  - intros Hle Hmode. unfold expectations, resolve_mode.
    replace (len self <=? len mpa) with true
      by (symmetry; apply Nat.leb_le; exact Hle).
    cbn [negb].
    assert (Ha : String.eqb mode "auto" = false)
      by (apply String.eqb_neq; intros ->; apply Hmode; simpl; auto).
    assert (Hs : String.eqb mode "mps" = false)
      by (apply String.eqb_neq; intros ->; apply Hmode; simpl; auto).
    assert (Hd : String.eqb mode "mpdo" = false)
      by (apply String.eqb_neq; intros ->; apply Hmode; simpl; auto).
    assert (Hp : String.eqb mode "pmps" = false)
      by (apply String.eqb_neq; intros ->; apply Hmode; simpl; auto).
    rewrite Ha, Hs, Hd, Hp. reflexivity.
  - intros Hle [n1 [Hn1 Hne1]] [n2 [Hn2 Hne2]].
    unfold expectations, resolve_mode.
    replace (len self <=? len mpa) with true
      by (symmetry; apply Nat.leb_le; exact Hle).
    cbn [negb].
    replace (forallb (fun pleg => pleg =? 1) (plegs mpa)) with false.
    + replace (forallb (fun pleg => pleg =? 2) (plegs mpa)) with false.
      * reflexivity.
      * symmetry. apply not_true_is_false. intros Hall.
        rewrite forallb_forall in Hall. apply Hall, Nat.eqb_eq in Hn2.
        contradiction.
    + symmetry. apply not_true_is_false. intros Hall.
      rewrite forallb_forall in Hall. apply Hall, Nat.eqb_eq in Hn1.
      contradiction.
Qed.

(** A two-site state with one physical leg on the first site and two on
    the second. *)
Definition mixed_legs : MPArray :=
  [ MkLtens 1 [2] 1 (fun _ _ _ => Cplx.C1);
    MkLtens 1 [2; 2] 1 (fun _ _ _ => Cplx.C1) ].

Lemma expectations_failures_witness :
  @expectations whole_state_reduction two_sites one_site_mpdo "mpdo" =
    ([], Some AssertionError) /\
  @expectations whole_state_reduction (eye_sites [2]) one_site_mpdo "MPDO" =
    ([], Some ValueError) /\
  @expectations whole_state_reduction two_sites mixed_legs "auto" =
    ([], Some ValueError).
Proof.
  split; [|split].
  - apply (proj1 (@expectations_failures whole_state_reduction
                    two_sites one_site_mpdo "mpdo")).
    simpl. lia.
  - apply (proj1 (proj2 (@expectations_failures whole_state_reduction
                           (eye_sites [2]) one_site_mpdo "MPDO"))).
    + simpl. lia.
    + simpl. intros [E|[E|[E|[E|[]]]]]; discriminate E.
  - apply (proj2 (proj2 (@expectations_failures whole_state_reduction
                           two_sites mixed_legs "auto"))).
    + simpl. lia.
    + exists 2. split; [simpl; auto | discriminate].
    + exists 1. split; [simpl; auto | discriminate].
Defined.

End TrainFacts.

(** ** Matching elements, counting and sampling on dense arrays *)

Module DenseFacts.
Import Cplx CplxFacts Dense.
Local Open Scope R_scope.
Local Open Scope py_scope.

(** *** Comparisons *)

Lemma Rleb_true (x y : R) : Rleb x y = true <-> x <= y.
Proof.
  unfold Rleb. destruct (Rle_dec x y); split; intros; auto; discriminate.
Qed.

Lemma Rleb_false (x y : R) : Rleb x y = false <-> y < x.
Proof.
  unfold Rleb. destruct (Rle_dec x y); split; intros; auto; try discriminate; lra.
Qed.

Lemma Rltb_true (x y : R) : Rltb x y = true <-> x < y.
Proof.
  unfold Rltb. destruct (Rlt_dec x y); split; intros; auto; discriminate.
Qed.

Lemma Rltb_false (x y : R) : Rltb x y = false <-> y <= x.
Proof.
  unfold Rltb. destruct (Rlt_dec x y); split; intros; auto; try discriminate; lra.
Qed.

Lemma list_nat_eqb_true (l1 l2 : list nat) :
  list_nat_eqb l1 l2 = true <-> l1 = l2.
Proof.
  unfold list_nat_eqb. destruct (list_eq_dec Nat.eq_dec l1 l2);
    split; intros; auto; discriminate.
Qed.

Lemma assert_ok (c : bool) (u : unit) : assert c = Ok u -> c = true.
Proof. destruct c; [reflexivity | discriminate]. Qed.

(** *** The Cauchy-Schwarz inequality for the inner product *)

Lemma Rsum_nonneg (l : list R) : Forall (fun x => 0 <= x) l -> 0 <= Rsum l.
Proof.
  induction 1 as [|x l Hx _ IH]; simpl; lra.
Qed.

Lemma re_inner_self (a : nat -> C) (l : list nat) :
  re (Csum (map (fun q => Cmul (Cconj (a q)) (a q)) l)) =
  Rsum (map (fun q => Cnormsq (a q)) l).
Proof.
  induction l as [|q l IH]; simpl.
  - reflexivity.
  - simpl in IH. rewrite IH. unfold Cnormsq. simpl. ring.
Qed.

(** Expansion of [sum |c1 * a - (c2 + i * c3) * b|^2]. *)
Lemma projection_expand (a b : nat -> C) (c1 c2 c3 : R) (l : list nat) :
  Rsum (map (fun q =>
               (c1 * re (a q) - c2 * re (b q) + c3 * im (b q))
               * (c1 * re (a q) - c2 * re (b q) + c3 * im (b q))
               + (c1 * im (a q) - c2 * im (b q) - c3 * re (b q))
                 * (c1 * im (a q) - c2 * im (b q) - c3 * re (b q))) l) =
  c1 * c1 * Rsum (map (fun q => Cnormsq (a q)) l)
  + (c2 * c2 + c3 * c3) * Rsum (map (fun q => Cnormsq (b q)) l)
  - 2 * c1 * c2 * re (Csum (map (fun q => Cmul (Cconj (a q)) (b q)) l))
  + 2 * c1 * c3 * im (Csum (map (fun q => Cmul (Cconj (a q)) (b q)) l)).
Proof.
  induction l as [|q l IH].
  - simpl. ring.
  - cbn [map Rsum Csum]. rewrite IH. unfold Cnormsq, Cadd, Cmul, Cconj.
    cbn [re im fst snd]. ring.
Qed.

Lemma cauchy_schwarz (n : nat) (a b : nat -> C) :
  0 < re (inner_prod n b b) ->
  Cnormsq (inner_prod n a b) <=
  re (inner_prod n a a) * re (inner_prod n b b).
Proof.
  unfold inner_prod. rewrite !re_inner_self. intros HB.
  set (l := seq 0 n) in *.
  set (A := Rsum (map (fun q => Cnormsq (a q)) l)) in *.
  set (B := Rsum (map (fun q => Cnormsq (b q)) l)) in *.
  set (S := Csum (map (fun q => Cmul (Cconj (a q)) (b q)) l)).
  pose proof (projection_expand a b B (re S) (- im S) l) as E.
  fold A B S in E.
  assert (Hsq : 0 <= B * B * A + (re S * re S + - im S * - im S) * B
                     - 2 * B * re S * re S + 2 * B * - im S * im S).
  { rewrite <- E. apply Rsum_nonneg, Forall_forall. intros x Hx.
    apply in_map_iff in Hx. destruct Hx as [q [<- _]].
    match goal with
    | |- 0 <= ?u * ?u + ?v * ?v =>
        pose proof (Rle_0_sqr u); pose proof (Rle_0_sqr v);
        unfold Rsqr in *; lra
    end. }
  unfold Cnormsq.
  assert (H : 0 <= B * (A * B - (re S * re S + im S * im S))) by nra.
  assert (H' : 0 <= A * B - (re S * re S + im S * im S)).
  { destruct (Rle_or_lt 0 (A * B - (re S * re S + im S * im S))) as [Hle|Hlt];
      [exact Hle | nra]. }
  lra.
Qed.

(** *** Multi-indices *)

Lemma in_indices (shp i : list nat) :
  In i (indices shp) <-> Forall2 (fun x d => (x < d)%nat) i shp.
Proof.
  revert i. induction shp as [|d shp IH]; intros i; simpl.
  - split.
    + intros [<-|[]]. constructor.
    + intros H. inversion H. now left.
  - rewrite in_flat_map. split.
    + intros [x [Hx Hi]]. apply in_seq in Hx. apply in_map_iff in Hi.
      destruct Hi as [i' [<- Hi']]. constructor; [lia | now apply IH].
    + intros H. inversion H as [|x d' i' shp' Hx Hi']; subst.
      exists x. split; [apply in_seq; lia|].
      apply in_map_iff. exists i'. split; [reflexivity | now apply IH].
Qed.

Lemma indices_length (shp i : list nat) :
  In i (indices shp) -> length i = length shp.
Proof.
  rewrite in_indices. intros H. eapply Forall2_length; eassumption.
Qed.

Lemma app_eq_same_length {A : Type} (a b c d : list A) :
  length a = length c -> a ++ b = c ++ d -> a = c /\ b = d.
Proof.
  revert c. induction a as [|x a IH]; intros [|y c] Hlen E;
    try discriminate; simpl in *.
  - now split.
  - inversion E; subst. destruct (IH c) as [-> ->]; auto.
Qed.

Lemma in_indices_app (s1 s2 a b : list nat) :
  length a = length s1 ->
  In (a ++ b) (indices (s1 ++ s2)) <->
  In a (indices s1) /\ In b (indices s2).
Proof.
  intros Hlen. rewrite !in_indices. split.
  - intros H. apply Forall2_app_inv_l in H.
    destruct H as [t1 [t2 [H1 [H2 E]]]].
    assert (length t1 = length s1)
      by (rewrite <- Hlen; symmetry; eapply Forall2_length; eassumption).
    apply app_eq_same_length in E; [| congruence].
    destruct E; subst. now split.
  - intros [H1 H2]. now apply Forall2_app.
Qed.

(** *** find_matching_elements: when it returns, and what *)

Lemma find_matching_elements_inv (self other : MPPovm) (eps : R)
  (r : ndarray bool * ndarray (option R)) :
  find_matching_elements self other [] eps = Ok r ->
  let other' :=
    reduce_other (map (fun d => (1 <? d)%nat) (outdims self)) other in
  hdims self = hdims other /\
  (forall i, In i (indices (prune1 (outdims self))) -> 0 < normsq self i) /\
  (forall j, In j (indices (prune1 (outdims other'))) ->
             0 < normsq other' j) /\
  r = (match_array self other' eps, prefactor_array self other' eps).
Proof.
  intros H other'. unfold find_matching_elements in H.
  destruct (list_nat_eqb (hdims self) (hdims other)) eqn:Eh;
    [|discriminate H].
  apply list_nat_eqb_true in Eh.
  change (0 <? length (@nil string))%nat with false in H.
  cbn [negb bind existsb] in H. fold other' in H.
  destruct (forallb (fun i => Rltb 0 (normsq self i))
                    (indices (prune1 (outdims self)))) eqn:Es;
    [|cbn [assert bind] in H; discriminate H].
  destruct (forallb (fun j => Rltb 0 (normsq other' j))
                    (indices (prune1 (outdims other')))) eqn:Eo;
    [|cbn [assert bind] in H; discriminate H].
  cbn [assert bind] in H.
  destruct (list_nat_eqb (inner_shape self other')
              (prune1 (outdims self) ++ prune1 (outdims other')));
    [|cbn [assert bind] in H; discriminate H].
  cbn [assert bind] in H.
  match type of H with
  | context [assert ?c] => destruct c; [|cbn [assert bind] in H; discriminate H]
  end.
  cbn [assert bind] in H. inversion H; subst r.
  rewrite forallb_forall in Es, Eo.
  repeat split; try assumption.
  - intros i Hi. apply Rltb_true. now apply Es.
  - intros j Hj. apply Rltb_true. now apply Eo.
Qed.

Lemma cs_gap_nonneg (self other : MPPovm) (i j : list nat) :
  hsize self = hsize other ->
  0 < normsq self i -> 0 < normsq other j ->
  0 <= cs_gap self other i j.
Proof.
  intros Hh Hs Ho. unfold cs_gap, normprod.
  assert (Hcs : inner_abs2 self other i j <= normsq self i * normsq other j).
  { unfold inner_abs2, normsq in *. rewrite Hh in *.
    apply cauchy_schwarz. exact Ho. }
  apply Rmult_le_pos; [lra|].
  apply Rlt_le, Rinv_0_lt_compat. nra.
Qed.

Lemma find_matching_elements_ok (self other : MPPovm) (eps : R) :
  let other' :=
    reduce_other (map (fun d => (1 <? d)%nat) (outdims self)) other in
  hdims self = hdims other ->
  (forall i, In i (indices (prune1 (outdims self))) -> 0 < normsq self i) ->
  (forall j, In j (indices (prune1 (outdims other'))) ->
             0 < normsq other' j) ->
  inner_shape self other' =
    prune1 (outdims self) ++ prune1 (outdims other') ->
  0 <= eps ->
  find_matching_elements self other [] eps =
  Ok (match_array self other' eps, prefactor_array self other' eps).
Proof.
  intros other' Hh Hs Ho Hshape Heps. unfold find_matching_elements.
  replace (list_nat_eqb (hdims self) (hdims other)) with true
    by (symmetry; now apply list_nat_eqb_true).
  change (0 <? length (@nil string))%nat with false.
  cbn [negb bind existsb]. fold other'.
  replace (forallb (fun i => Rltb 0 (normsq self i))
                   (indices (prune1 (outdims self)))) with true.
  2:{ symmetry. apply forallb_forall. intros i Hi.
      apply Rltb_true. now apply Hs. }
  replace (forallb (fun j => Rltb 0 (normsq other' j))
                   (indices (prune1 (outdims other')))) with true.
  2:{ symmetry. apply forallb_forall. intros j Hj.
      apply Rltb_true. now apply Ho. }
  replace (list_nat_eqb (inner_shape self other')
             (prune1 (outdims self) ++ prune1 (outdims other'))) with true
    by (symmetry; now apply list_nat_eqb_true).
  cbn [assert bind].
  replace (forallb _ (indices (prune1 (outdims self)))) with true.
  - reflexivity.
  - symmetry. apply forallb_forall. intros i Hi.
    apply forallb_forall. intros j Hj. apply Rleb_true.
    assert (0 <= cs_gap self other' i j).
    { apply cs_gap_nonneg; auto. unfold hsize, other'. cbn [hdims reduce_other].
      now rewrite Hh. }
    lra.
Qed.

(** C4.  With a non-empty [exclude_dup] (and equal Hilbert dimensions)
    the call evaluates the name [exclude_duplicates], which is not
    defined: it raises [NameError], whatever the elements are, instead
    of performing the duplicate check and returning the matches. *)
Theorem find_matching_elements_exclude_dup_raises
  (self other : MPPovm) (exclude_dup : list string) (eps : R) :
  exclude_dup <> [] ->
  hdims self = hdims other ->
  find_matching_elements self other exclude_dup eps = Raise NameError.
Proof.
  intros Hne Hh. unfold find_matching_elements.
  replace (list_nat_eqb (hdims self) (hdims other)) with true
    by (symmetry; now apply list_nat_eqb_true).
  destruct exclude_dup as [|x l]; [contradiction | reflexivity].
Qed.


(** *** Reduction of [other] when nothing is summed away *)

Lemma reduced_dims_prune_le (keep : list bool) (ods : list nat) :
  (length (prune1 (reduced_dims keep ods)) <= length (prune1 ods))%nat.
Proof.
  revert ods. induction keep as [|k keep IH]; intros [|d ods]; simpl;
    try lia.
  specialize (IH ods). unfold reduced_dims in IH.
  destruct k; simpl.
  - destruct (d =? 1)%nat; simpl; lia.
  - destruct (d =? 1)%nat; simpl; lia.
Qed.

(** If pruning the reduced dimensions leaves as many legs as pruning the
    dimensions themselves, then every site that is not kept is a
    singleton, and the reduction changes no dimension. *)
Lemma reduced_dims_same (keep : list bool) (ods : list nat) :
  length keep = length ods ->
  length (prune1 (reduced_dims keep ods)) = length (prune1 ods) ->
  reduced_dims keep ods = ods /\
  Forall2 (fun k d => k = true \/ d = 1%nat) keep ods.
Proof.
  revert ods. induction keep as [|k keep IH]; intros [|d ods] Hlen Hp;
    try discriminate.
  - split; constructor.
  - simpl in Hlen. injection Hlen as Hlen.
    pose proof (reduced_dims_prune_le keep ods) as Hle.
    unfold reduced_dims in *. simpl in Hp. simpl.
    destruct k; simpl in Hp.
    + destruct (d =? 1)%nat; simpl in Hp;
        destruct (IH ods Hlen) as [E F]; try lia;
        (split; [now rewrite E | constructor; auto]).
    + destruct (Nat.eqb_spec d 1) as [->|Hd]; simpl in Hp.
      * destruct (IH ods Hlen) as [E F]; try lia.
        split; [now rewrite E | constructor; auto].
      * lia.
Qed.

Lemma firstn_length_app {A : Type} (l1 l2 : list A) :
  firstn (length l1) (l1 ++ l2) = l1.
Proof. induction l1 as [|x l1 IH]; simpl; [reflexivity | now rewrite IH]. Qed.

Lemma skipn_length_app {A : Type} (l1 l2 : list A) :
  skipn (length l1) (l1 ++ l2) = l2.
Proof. induction l1 as [|x l1 IH]; simpl; [reflexivity | exact IH]. Qed.

Lemma unprune_length (dims idx : list nat) :
  length (unprune dims idx) = length dims.
Proof.
  revert idx. induction dims as [|d dims IH]; intros idx; simpl.
  - reflexivity.
  - destruct (d =? 1)%nat; [|destruct idx]; simpl; now rewrite IH.
Qed.

Lemma completions_single (keep : list bool) (ods : list nat) :
  Forall2 (fun k d => k = true \/ d = 1%nat) keep ods ->
  forall j, completions keep ods (unprune ods j) = [unprune ods j].
Proof.
  induction 1 as [|k d keep ods Hkd _ IH]; intros j.
  - reflexivity.
  - simpl unprune.
    destruct (Nat.eqb_spec d 1) as [->|Hd].
    + cbn [completions]. rewrite IH. destruct k; reflexivity.
    + destruct Hkd as [->|]; [|contradiction].
      destruct j as [|x j]; cbn [completions]; now rewrite IH.
Qed.

Lemma inner_prod_ext (n : nat) (a a' b b' : nat -> C) :
  (forall q, a q = a' q) -> (forall q, b q = b' q) ->
  inner_prod n a b = inner_prod n a' b'.
Proof.
  intros Ha Hb. unfold inner_prod. f_equal. apply map_ext.
  intros q. now rewrite Ha, Hb.
Qed.

(** With the same number of measured legs before and after the
    reduction, the reduced [other] has the norms of [other]. *)
Lemma normsq_reduce_other (self other : MPPovm) (j : list nat) :
  length (outdims self) = length (outdims other) ->
  let keep := map (fun d => (1 <? d)%nat) (outdims self) in
  length (prune1 (outdims (reduce_other keep other))) =
  length (prune1 (outdims other)) ->
  normsq (reduce_other keep other) j = normsq other j.
Proof.
  intros Hlen keep Hp.
  assert (Hk : length keep = length (outdims other))
    by (unfold keep; now rewrite length_map).
  destruct (reduced_dims_same keep (outdims other) Hk Hp) as [E F].
  unfold normsq, hsize. cbn [outdims hdims elem reduce_other].
  rewrite E.
  apply f_equal. apply inner_prod_ext; intros q;
    rewrite (completions_single _ _ F); simpl; apply Cadd_0_r.
Qed.

(** *** Prefactors in the two directions *)

Lemma sqrt_ratio_inv (a b : R) :
  0 < a -> 0 < b -> sqrt (a / b) = / sqrt (b / a).
Proof.
  intros Ha Hb.
  assert (Hab : 0 < a / b) by (apply Rdiv_lt_0_compat; assumption).
  assert (Hba : 0 < b / a) by (apply Rdiv_lt_0_compat; assumption).
  assert (H1 : sqrt (a / b) * sqrt (b / a) = 1).
  { rewrite <- sqrt_mult by lra.
    replace (a / b * (b / a)) with 1 by (field; lra). apply sqrt_1. }
  assert (Hs : 0 < sqrt (b / a)) by (apply sqrt_lt_R0; exact Hba).
  apply Rmult_eq_reg_r with (sqrt (b / a)); [|lra].
  rewrite H1. field. lra.
Qed.

(** C3.  Let both [P.find_matching_elements(Q)] and
    [Q.find_matching_elements(P)] return, let [i] and [j] be outcome
    multi-indices of [P] and [Q] (on their measured sites) such that both
    returned arrays have an entry at [(i, j)], respectively [(j, i)], and a
    match is flagged there in both directions.  Then both prefactors are
    defined and the first is the inverse of the second. *)
Theorem prefactors_are_reciprocal (P Q : MPPovm) (eps : R)
  (mPQ mQP : ndarray bool) (fPQ fQP : ndarray (option R))
  (i j : list nat) :
  length (hdims P) = length (outdims P) ->
  length (hdims Q) = length (outdims Q) ->
  find_matching_elements P Q [] eps = Ok (mPQ, fPQ) ->
  find_matching_elements Q P [] eps = Ok (mQP, fQP) ->
  In i (indices (prune1 (outdims P))) ->
  In j (indices (prune1 (outdims Q))) ->
  In (i ++ j) (indices (shape fPQ)) ->
  In (j ++ i) (indices (shape fQP)) ->
  at_ mPQ (i ++ j) = true ->
  at_ mQP (j ++ i) = true ->
  exists x y,
    at_ fPQ (i ++ j) = Some x /\ at_ fQP (j ++ i) = Some y /\ x = 1 / y.
Proof.
  intros HwP HwQ HPQ HQP Hi Hj Hij Hji Mij Mji.
  apply find_matching_elements_inv in HPQ.
  apply find_matching_elements_inv in HQP.
  destruct HPQ as [Hh [HsP [HoQ EPQ]]].
  destruct HQP as [_ [HsQ [HoP EQP]]].
  injection EPQ as -> ->. injection EQP as -> ->.
  assert (Hlen : length (outdims P) = length (outdims Q)) by congruence.
  pose proof (indices_length _ _ Hi) as Li.
  pose proof (indices_length _ _ Hj) as Lj.
  cbn [shape prefactor_array] in Hij, Hji.
  apply in_indices_app in Hij; [|exact Li].
  apply in_indices_app in Hji; [|exact Lj].
  destruct Hij as [_ Hj']. destruct Hji as [_ Hi'].
  pose proof (indices_length _ _ Hj') as Lj'.
  pose proof (indices_length _ _ Hi') as Li'.
  assert (NQ : normsq (reduce_other (map (fun d => (1 <? d)%nat) (outdims P)) Q) j
               = normsq Q j)
    by (apply normsq_reduce_other; congruence).
  assert (NP : normsq (reduce_other (map (fun d => (1 <? d)%nat) (outdims Q)) P) i
               = normsq P i)
    by (apply normsq_reduce_other; congruence).
  cbn [at_ match_array prefactor_array] in *.
  rewrite <- Li in *. rewrite <- Lj in *.
  rewrite !firstn_length_app, !skipn_length_app in *.
  rewrite Mij, Mji, NQ, NP.
  eexists. eexists. split; [reflexivity|]. split; [reflexivity|].
  rewrite sqrt_ratio_inv; [unfold Rdiv; ring | now apply HsP | now apply HsQ].
Qed.


(** *** Two one-site MP-POVMs on a qubit *)

(** The projective Z measurement: elements [|0><0|] and [|1><1|],
    flattened to length 4. *)
Definition qubit_z : MPPovm :=
  MkMPPovm [2%nat] [2%nat]
    (fun i q =>
       match i with
       | [O] => if (q =? 0)%nat then C1 else C0
       | [S O] => if (q =? 3)%nat then C1 else C0
       | _ => C0
       end).

(** The same two projectors with weight one half. *)
Definition qubit_z_half : MPPovm :=
  MkMPPovm [2%nat] [2%nat]
    (fun i q => Cscale (1 / 2) (elem qubit_z i q)).

Lemma eps10_pos : 0 < eps10.
Proof. unfold eps10. apply Rinv_0_lt_compat, pow_lt. lra. Qed.

Lemma is_match_equal (self other : MPPovm) (eps : R) (i j : list nat) :
  0 <= eps ->
  0 < normprod self other i j ->
  inner_abs2 self other i j = normprod self other i j ->
  is_match self other eps i j = true.
Proof.
  intros Heps Hn E. unfold is_match. apply Rleb_true. rewrite E.
  replace (normprod self other i j / normprod self other i j - 1) with 0
    by (field; lra).
  rewrite Rabs_R0. exact Heps.
Qed.

Ltac one_site_cases H :=
  simpl in H;
  repeat match type of H with
         | _ \/ _ => destruct H as [H|H]
         | False => contradiction
         end; subst.

Lemma qubit_z_matches_half :
  find_matching_elements qubit_z qubit_z_half [] eps10 =
  Ok (match_array qubit_z (reduce_other [true] qubit_z_half) eps10,
      prefactor_array qubit_z (reduce_other [true] qubit_z_half) eps10).
Proof.
  apply (find_matching_elements_ok qubit_z qubit_z_half eps10).
  - reflexivity.
  - intros i Hi. one_site_cases Hi;
      unfold normsq, inner_prod, hsize; simpl; lra.
  - intros j Hj. one_site_cases Hj;
      unfold normsq, inner_prod, hsize; simpl; lra.
  - reflexivity.
  - apply Rlt_le, eps10_pos.
Qed.

Lemma qubit_z_half_matches :
  find_matching_elements qubit_z_half qubit_z [] eps10 =
  Ok (match_array qubit_z_half (reduce_other [true] qubit_z) eps10,
      prefactor_array qubit_z_half (reduce_other [true] qubit_z) eps10).
Proof.
  apply (find_matching_elements_ok qubit_z_half qubit_z eps10).
  - reflexivity.
  - intros i Hi. one_site_cases Hi;
      unfold normsq, inner_prod, hsize; simpl; lra.
  - intros j Hj. one_site_cases Hj;
      unfold normsq, inner_prod, hsize; simpl; lra.
  - reflexivity.
  - apply Rlt_le, eps10_pos.
Qed.

Lemma prefactors_are_reciprocal_witness :
  exists x y,
    at_ (prefactor_array qubit_z (reduce_other [true] qubit_z_half) eps10)
        ([0%nat] ++ [0%nat]) = Some x /\
    at_ (prefactor_array qubit_z_half (reduce_other [true] qubit_z) eps10)
        ([0%nat] ++ [0%nat]) = Some y /\
    x = 1 / y.
Proof.
  apply (prefactors_are_reciprocal qubit_z qubit_z_half eps10
           (match_array qubit_z (reduce_other [true] qubit_z_half) eps10)
           (match_array qubit_z_half (reduce_other [true] qubit_z) eps10)).
  - reflexivity.
  - reflexivity.
  - exact qubit_z_matches_half.
  - exact qubit_z_half_matches.
  - simpl; auto.
  - simpl; auto.
  - simpl; auto.
  - simpl; auto.
  - apply is_match_equal.
    + apply Rlt_le, eps10_pos.
    + unfold normprod, normsq, inner_prod, hsize; simpl; lra.
    + unfold inner_abs2, normprod, normsq, inner_prod, hsize, Cnormsq;
        simpl; lra.
  - apply is_match_equal.
    + apply Rlt_le, eps10_pos.
    + unfold normprod, normsq, inner_prod, hsize; simpl; lra.
    + unfold inner_abs2, normprod, normsq, inner_prod, hsize, Cnormsq;
        simpl; lra.
Defined.

Lemma find_matching_elements_exclude_dup_raises_witness :
  find_matching_elements qubit_z qubit_z ["self"%string] eps10 =
  Raise NameError.
Proof.
  apply (find_matching_elements_exclude_dup_raises
           qubit_z qubit_z ["self"%string] eps10).
  - discriminate.
  - reflexivity.
Defined.


(** *** Counting with multi-indices *)

Lemma list_nat_eqb_refl (l : list nat) : list_nat_eqb l l = true.
Proof. now apply list_nat_eqb_true. Qed.

Lemma list_nat_eqb_false (l1 l2 : list nat) :
  list_nat_eqb l1 l2 = false <-> l1 <> l2.
Proof.
  unfold list_nat_eqb. destruct (list_eq_dec Nat.eq_dec l1 l2);
    split; intros; auto; try discriminate; contradiction.
Qed.

Lemma list_nat_eqb_cons (x y : nat) (l1 l2 : list nat) :
  list_nat_eqb (x :: l1) (y :: l2) = ((x =? y)%nat && list_nat_eqb l1 l2)%bool.
Proof.
  destruct (Nat.eqb_spec x y) as [->|Hxy]; simpl.
  - destruct (list_nat_eqb l1 l2) eqn:E.
    + apply list_nat_eqb_true in E. subst. apply list_nat_eqb_refl.
    + apply list_nat_eqb_false in E. apply list_nat_eqb_false. congruence.
  - apply list_nat_eqb_false. congruence.
Qed.

Lemma filter_flat_map {A B : Type} (f : B -> bool) (g : A -> list B)
  (l : list A) :
  filter f (flat_map g l) = flat_map (fun a => filter f (g a)) l.
Proof.
  induction l as [|a l IH]; simpl; [reflexivity|].
  now rewrite filter_app, IH.
Qed.

Lemma flat_map_single_seq {A : Type} (x : nat) (v : A) (s n : nat) :
  (s <= x < s + n)%nat ->
  flat_map (fun i => if (x =? i)%nat then [v] else []) (seq s n) = [v].
Proof.
  revert s. induction n as [|n IH]; intros s Hx; [lia|].
  simpl. destruct (Nat.eqb_spec x s) as [->|Hne].
  - simpl. f_equal.
    clear IH Hx. generalize (S s) (Nat.lt_succ_diag_r s).
    induction n as [|n IHn]; intros t Ht; simpl; [reflexivity|].
    destruct (Nat.eqb_spec s t); [lia|]. apply IHn. lia.
  - simpl. apply IH. lia.
Qed.

Lemma filter_eqb_map_cons (x i : nat) (a : list nat) (l : list (list nat)) :
  filter (list_nat_eqb (x :: a)) (map (cons i) l) =
  if (x =? i)%nat then map (cons i) (filter (list_nat_eqb a) l) else [].
Proof.
  induction l as [|b l IH]; simpl.
  - destruct (x =? i)%nat; reflexivity.
  - rewrite list_nat_eqb_cons, IH.
    destruct (x =? i)%nat; simpl; [|reflexivity].
    destruct (list_nat_eqb a b); reflexivity.
Qed.

(** A valid multi-index occurs exactly once among the indices of its
    shape. *)
Lemma filter_eqb_indices (shp a : list nat) :
  In a (indices shp) -> filter (list_nat_eqb a) (indices shp) = [a].
Proof.
  revert a. induction shp as [|d shp IH]; intros a Ha.
  - simpl in Ha. destruct Ha as [<-|[]]. reflexivity.
  - apply in_indices in Ha. inversion Ha as [|x d' a' shp' Hx Ha']; subst.
    apply in_indices in Ha'. cbn [indices]. rewrite filter_flat_map.
    rewrite (flat_map_ext _ (fun i => if (x =? i)%nat then [x :: a'] else [])).
    + apply flat_map_single_seq. lia.
    + intros i. rewrite filter_eqb_map_cons, (IH a' Ha').
      destruct (Nat.eqb_spec x i) as [->|Hne]; reflexivity.
Qed.

Lemma filter_unique (shp a : list nat) (f : list nat -> bool) :
  In a (indices shp) ->
  (forall b, In b (indices shp) -> f b = list_nat_eqb a b) ->
  filter f (indices shp) = [a].
Proof.
  intros Ha Hf. rewrite (filter_ext_in f (list_nat_eqb a)); [|exact Hf].
  now apply filter_eqb_indices.
Qed.

Lemma map_cons_flat_map_app (i : nat) (I2 L : list (list nat)) :
  map (cons i) (flat_map (fun a => map (app a) I2) L) =
  flat_map (fun a => map (app a) I2) (map (cons i) L).
Proof.
  induction L as [|a L IH]; simpl; [reflexivity|].
  rewrite map_app, IH, map_map. reflexivity.
Qed.

Lemma indices_app (s1 s2 : list nat) :
  indices (s1 ++ s2) =
  flat_map (fun a => map (app a) (indices s2)) (indices s1).
Proof.
  induction s1 as [|d s1 IH]; simpl.
  - rewrite app_nil_r. symmetry. apply map_id.
  - rewrite IH.
    induction (seq 0 d) as [|i l IHl]; simpl; [reflexivity|].
    rewrite flat_map_app, IHl, map_cons_flat_map_app. reflexivity.
Qed.

Lemma count_rows_cons (out r : list nat) (rws : list (list nat)) :
  count_rows out (r :: rws) =
  ((if list_nat_eqb out r then 1 else 0) + count_rows out rws)%nat.
Proof.
  unfold count_rows. simpl. destruct (list_nat_eqb out r); reflexivity.
Qed.

Lemma list_nat_eqb_sym (a b : list nat) : list_nat_eqb a b = list_nat_eqb b a.
Proof.
  destruct (list_nat_eqb b a) eqn:E.
  - apply list_nat_eqb_true in E. subst. apply list_nat_eqb_refl.
  - apply list_nat_eqb_false in E. apply list_nat_eqb_false. congruence.
Qed.

Lemma list_sum_indicator (shp r : list nat) :
  In r (indices shp) ->
  list_sum (map (fun i => if list_nat_eqb i r then 1%nat else 0%nat)
                (indices shp)) = 1%nat.
Proof.
  intros Hr. pose proof (filter_eqb_indices shp r Hr) as Hf.
  revert Hf. generalize (indices shp). intros l Hf.
  assert (Hgen : forall l,
             list_sum (map (fun i => if list_nat_eqb i r then 1%nat else 0%nat) l)
             = length (filter (list_nat_eqb r) l)).
  { clear. intros l. induction l as [|b l IH]; simpl; [reflexivity|].
    rewrite (list_nat_eqb_sym b r). destruct (list_nat_eqb r b); simpl; lia. }
  rewrite Hgen, Hf. reflexivity.
Qed.

(** Every sample is counted once. *)
Lemma count_rows_total (shp : list nat) (rws : list (list nat)) :
  Forall (fun r => In r (indices shp)) rws ->
  list_sum (map (fun i => count_rows i rws) (indices shp)) = length rws.
Proof.
  induction 1 as [|r rws Hr _ IH].
  - unfold count_rows. simpl. induction (indices shp); simpl; auto.
  - rewrite (map_ext (fun i => count_rows i (r :: rws))
                     (fun i => ((if list_nat_eqb i r then 1 else 0)
                                + count_rows i rws)%nat))
      by (intros; apply count_rows_cons).
    pose proof (list_sum_indicator shp r Hr) as H1.
    cbn [length]. revert H1 IH. generalize (indices shp). intros l H1 IH.
    assert (Hadd : forall f g : list nat -> nat,
               list_sum (map (fun i => (f i + g i)%nat) l) =
               (list_sum (map f l) + list_sum (map g l))%nat).
    { clear. intros f g. induction l as [|b l IHl]; simpl; [reflexivity|].
      rewrite IHl. lia. }
    rewrite Hadd, H1, IH. reflexivity.
Qed.


(** *** Self-calibration: the reduction of [self] by its own support *)

Lemma keep_self (ods : list nat) :
  Forall (fun d => (1 <= d)%nat) ods ->
  reduced_dims (map (fun d => (1 <? d)%nat) ods) ods = ods /\
  Forall2 (fun k d => k = true \/ d = 1%nat)
          (map (fun d => (1 <? d)%nat) ods) ods.
Proof.
  induction 1 as [|d ods Hd _ [IH1 IH2]]; simpl.
  - split; constructor.
  - unfold reduced_dims in *. simpl. rewrite IH1.
    destruct (Nat.ltb_spec 1 d); simpl.
    + split; [reflexivity | constructor; auto].
    + assert (d = 1%nat) by lia. subst.
      split; [reflexivity | constructor; auto].
Qed.

Lemma elem_reduce_self (self : MPPovm) (j : list nat) (q : nat) :
  Forall (fun d => (1 <= d)%nat) (outdims self) ->
  let keep := map (fun d => (1 <? d)%nat) (outdims self) in
  outdims (reduce_other keep self) = outdims self /\
  elem (reduce_other keep self) (unprune (outdims self) j) q =
  elem self (unprune (outdims self) j) q.
Proof.
  intros Hd keep. destruct (keep_self _ Hd) as [E F].
  cbn [outdims elem reduce_other]. split; [exact E|].
  fold keep in F. rewrite (completions_single _ _ F). simpl.
  apply Cadd_0_r.
Qed.

Lemma normsq_reduce_self (self : MPPovm) (i : list nat) :
  Forall (fun d => (1 <= d)%nat) (outdims self) ->
  normsq (reduce_other (map (fun d => (1 <? d)%nat) (outdims self)) self) i =
  normsq self i.
Proof.
  intros Hd. unfold normsq, hsize.
  destruct (elem_reduce_self self i 0%nat Hd) as [E _].
  rewrite E. cbn [hdims reduce_other]. apply f_equal.
  apply inner_prod_ext; intros q; apply (elem_reduce_self self i q Hd).
Qed.

Lemma inner_abs2_reduce_self (self : MPPovm) (i j : list nat) :
  Forall (fun d => (1 <= d)%nat) (outdims self) ->
  inner_abs2 self
    (reduce_other (map (fun d => (1 <? d)%nat) (outdims self)) self) i j =
  inner_abs2 self self i j.
Proof.
  intros Hd. unfold inner_abs2.
  destruct (elem_reduce_self self j 0%nat Hd) as [E _].
  rewrite E. apply f_equal.
  apply inner_prod_ext; intros q; [reflexivity|].
  apply (elem_reduce_self self j q Hd).
Qed.

Lemma is_match_reduce_self (self : MPPovm) (eps : R) (i j : list nat) :
  Forall (fun d => (1 <= d)%nat) (outdims self) ->
  is_match self
    (reduce_other (map (fun d => (1 <? d)%nat) (outdims self)) self) eps i j =
  is_match self self eps i j.
Proof.
  intros Hd. unfold is_match, normprod.
  now rewrite inner_abs2_reduce_self, normsq_reduce_self.
Qed.

Lemma inner_shape_same (ods : list nat) :
  (let kept := prune2 (combine ods ods) in map fst kept ++ map snd kept) =
  prune1 ods ++ prune1 ods.
Proof.
  cbn zeta.
  assert (H : map fst (prune2 (combine ods ods)) = prune1 ods /\
              map snd (prune2 (combine ods ods)) = prune1 ods).
  { induction ods as [|d ods [IH1 IH2]]; simpl; [now split|].
    unfold prune2, prune1 in *. simpl.
    destruct (d =? 1)%nat; simpl; rewrite ?IH1, ?IH2; now split. }
  destruct H as [-> ->]. reflexivity.
Qed.

Lemma im_inner_self (n : nat) (a : nat -> C) : im (inner_prod n a a) = 0.
Proof.
  unfold inner_prod. induction (seq 0 n) as [|q l IH]; simpl.
  - reflexivity.
  - simpl in IH. rewrite IH. ring.
Qed.

Lemma inner_abs2_diag (self : MPPovm) (i : list nat) :
  inner_abs2 self self i i = normprod self self i i.
Proof.
  unfold inner_abs2, normprod, normsq, Cnormsq.
  rewrite im_inner_self. ring.
Qed.

(** An element matches itself. *)
Lemma is_match_diag (self : MPPovm) (eps : R) (i : list nat) :
  0 <= eps -> 0 < normsq self i -> is_match self self eps i i = true.
Proof.
  intros Heps Hn. apply is_match_equal.
  - exact Heps.
  - unfold normprod. nra.
  - apply inner_abs2_diag.
Qed.

(** *** Measured sites first *)

Lemma prune1_measured_first (ns : list nat) (m : nat) :
  Forall (fun d => (1 < d)%nat) ns ->
  prune1 (ns ++ List.repeat 1%nat m) = ns /\
  filter (fun d => (1 <? d)%nat) (ns ++ List.repeat 1%nat m) = ns.
Proof.
  induction 1 as [|d ns Hd _ [IH1 IH2]]; simpl.
  - unfold prune1. induction m as [|m [IHm1 IHm2]]; simpl; now split.
  - unfold prune1 in *. simpl.
    destruct (Nat.eqb_spec d 1); [lia|].
    destruct (Nat.ltb_spec 1 d); [|lia]. simpl.
    now rewrite IH1, IH2.
Qed.

Lemma support_measured_first_gen (ns : list nat) (m s : nat) :
  Forall (fun d => (1 < d)%nat) ns ->
  map fst (filter (fun pd : nat * nat => (1 <? snd pd)%nat)
                  (combine (seq s (length (ns ++ List.repeat 1%nat m)))
                           (ns ++ List.repeat 1%nat m))) =
  seq s (length ns).
Proof.
  intros Hns. revert s. induction Hns as [|d ns Hd _ IH]; intros s.
  - simpl. revert s. induction m as [|m IHm]; intros s; simpl; auto.
  - simpl. destruct (Nat.ltb_spec 1 d); [|lia]. simpl. now rewrite IH.
Qed.

Lemma nth_measured_first (ns tl : list nat) (pre : list nat) :
  map (fun i => nth i (pre ++ ns ++ tl) 0%nat)
      (seq (length pre) (length ns)) = ns.
Proof.
  revert pre. induction ns as [|d ns IH]; intros pre; simpl.
  - reflexivity.
  - rewrite nth_middle (* pre ++ d :: _ *) . f_equal.
    specialize (IH (pre ++ [d])).
    rewrite length_app, <- app_assoc in IH. simpl in IH.
    rewrite Nat.add_1_r in IH. exact IH.
Qed.

Lemma select_all (r : list nat) :
  select (seq 0 (length r)) r = r.
Proof.
  unfold select.
  pose proof (nth_measured_first r [] []) as H. simpl in H.
  rewrite app_nil_r in H. exact H.
Qed.

Lemma select_firstn (k : nat) (i : list nat) :
  (k <= length i)%nat -> select (seq 0 k) i = firstn k i.
Proof.
  intros Hk. rewrite <- (firstn_skipn k i) at 1.
  pose proof (nth_measured_first (firstn k i) (skipn k i) []) as H.
  simpl in H. rewrite length_firstn, Nat.min_l in H by exact Hk.
  exact H.
Qed.

Lemma in_range_indices (shp r : list nat) :
  In r (indices shp) -> in_range r shp = true.
Proof.
  rewrite in_indices. intros H. unfold in_range.
  rewrite (Forall2_length H), Nat.eqb_refl. simpl.
  induction H as [|x d r shp Hx _ IH]; simpl; [reflexivity|].
  rewrite IH, andb_true_r. apply Nat.ltb_lt. exact Hx.
Qed.


(** *** The identity fraction of all elements of a POVM *)

Lemma inner_prod_ext_in (n : nat) (a a' b b' : nat -> C) :
  (forall q, (q < n)%nat -> a q = a' q) ->
  (forall q, (q < n)%nat -> b q = b' q) ->
  inner_prod n a b = inner_prod n a' b'.
Proof.
  intros Ha Hb. unfold inner_prod. f_equal. apply map_ext_in.
  intros q Hq. apply in_seq in Hq. rewrite Ha, Hb by lia. reflexivity.
Qed.

Lemma eye_normsq_pos (self : MPPovm) :
  (0 < hsize self)%nat ->
  0 < re (inner_prod (hsize self) (eye_op self) (eye_op self)).
Proof.
  intros Hn. unfold inner_prod. rewrite re_inner_self.
  destruct (hsize self) as [|n]; [lia|]. cbn [seq map Rsum].
  assert (H0 : Cnormsq (eye_op self 0) = 1).
  { unfold eye_op. rewrite Nat.Div0.div_0_l, Nat.Div0.mod_0_l. simpl.
    unfold Cnormsq. simpl. ring. }
  assert (Hrest : 0 <= Rsum (map (fun q => Cnormsq (eye_op self q)) (seq 1 n))).
  { apply Rsum_nonneg, Forall_forall. intros x Hx.
    apply in_map_iff in Hx. destruct Hx as [q [<- _]].
    unfold Cnormsq. nra. }
  rewrite H0. lra.
Qed.

Lemma all_true_flags {A : Type} (f : A -> bool) (l : list A) :
  l <> [] -> (forall x, In x l -> f x = true) ->
  existsb (fun b => b) (map f l) = true /\
  forallb (fun b => b) (map f l) = true.
Proof.
  intros Hne Hf. split.
  - destruct l as [|x l]; [contradiction|]. simpl.
    rewrite (Hf x (or_introl eq_refl)). reflexivity.
  - apply forallb_forall. intros b Hb. apply in_map_iff in Hb.
    destruct Hb as [x [<- Hx]]. now apply Hf.
Qed.

Lemma dims_check (ns tl pre ods : list nat) :
  ods = pre ++ ns ++ tl ->
  forallb (fun pd : nat * nat => (snd pd =? nth (fst pd) ods 0)%nat)
          (combine (seq (length pre) (length ns)) ns) = true.
Proof.
  intros ->. revert pre. induction ns as [|d ns IH]; intros pre; simpl.
  - reflexivity.
  - rewrite nth_middle, Nat.eqb_refl. simpl.
    specialize (IH (pre ++ [d])).
    rewrite length_app, <- app_assoc in IH. simpl in IH.
    rewrite Nat.add_1_r in IH. exact IH.
Qed.

(** When [given] selects every outcome and the elements sum to the
    identity, the fraction is one. *)
Lemma elemsum_identity_all (self : MPPovm) (ns : list nat) (m : nat)
  (given : ndarray bool) (eps : R) :
  outdims self = ns ++ List.repeat 1%nat m ->
  (0 < hsize self)%nat ->
  (forall q, (q < hsize self)%nat ->
     Csum (map (fun i => elem self i q) (indices (outdims self))) =
     eye_op self q) ->
  shape given = ns ->
  indices ns <> [] ->
  (forall i, In i (indices ns) -> at_ given i = true) ->
  0 <= eps ->
  elemsum_identity self (seq 0 (length ns)) given eps = Ok (Some 1).
Proof.
  intros Hdims Hn Hsum Hshape Hne Hgiven Heps.
  unfold elemsum_identity. rewrite Hshape.
  destruct (all_true_flags (at_ given) (indices ns) Hne Hgiven) as [-> ->].
  rewrite length_seq, Nat.eqb_refl.
  pose proof (dims_check ns (List.repeat 1%nat m) [] (outdims self) Hdims)
    as Hdc.
  cbn [length] in Hdc. rewrite Hdc.
  cbn [assert bind negb].
  assert (Hes : forall q, (q < hsize self)%nat ->
            masked_sum self (seq 0 (length ns)) given q = eye_op self q).
  { intros q Hq. rewrite <- (Hsum q Hq). unfold masked_sum. f_equal.
    apply map_ext_in. intros i Hi. rewrite Hdims in Hi.
    apply in_indices in Hi. apply Forall2_app_inv_r in Hi.
    destruct Hi as [i1 [i2 [H1 [H2 ->]]]].
    rewrite select_firstn
      by (rewrite length_app, (Forall2_length H1); lia).
    rewrite <- (Forall2_length H1), firstn_length_app.
    rewrite Hgiven; [reflexivity | now apply in_indices]. }
  unfold norm.
  rewrite (inner_prod_ext_in (hsize self) _ (eye_op self) _ (eye_op self)
             Hes Hes).
  rewrite (inner_prod_ext_in (hsize self) _ (eye_op self) _ (eye_op self)
             Hes (fun q _ => eq_refl)).
  pose proof (eye_normsq_pos self Hn) as HE.
  set (E := re (inner_prod (hsize self) (eye_op self) (eye_op self))) in *.
  assert (Habs : Cabs (inner_prod (hsize self) (eye_op self) (eye_op self)) = E).
  { unfold Cabs, Cnormsq. rewrite im_inner_self. fold E.
    replace (E * E + 0 * 0) with (E * E) by ring.
    apply sqrt_square. lra. }
  rewrite Habs.
  assert (Hss : sqrt E * sqrt E = E) by (apply sqrt_sqrt; lra).
  assert (Hs : 0 < sqrt E) by (apply sqrt_lt_R0; exact HE).
  rewrite Hss.
  replace (Reqb E 0) with false
    by (unfold Reqb; destruct (Req_dec_T E 0); [lra | reflexivity]).
  replace ((E - E) / E) with 0 by (field; lra).
  replace (Rleb (- eps) 0) with true by (symmetry; apply Rleb_true; lra).
  replace (Rltb eps 0) with false by (symmetry; apply Rltb_false; lra).
  replace (sqrt E / sqrt E) with 1 by (field; lra).
  replace (Rleb (Rabs (1 - 1)) eps) with true.
  - reflexivity.
  - symmetry. apply Rleb_true. replace (1 - 1) with 0 by ring.
    rewrite Rabs_R0. exact Heps.
Qed.

(** *** Accumulating counts *)

Lemma fold_add_at (A : Type) (key : A -> list nat) (val : A -> option R)
  (l : list A) (c0 : list nat -> option R) (i : list nat) :
  fold_left (fun counts x => add_at counts (key x) (val x)) l c0 i =
  fold_left (fun acc x => nan_add acc (val x))
            (filter (fun x => list_nat_eqb i (key x)) l) (c0 i).
Proof.
  revert c0. induction l as [|x l IH]; intros c0; simpl.
  - reflexivity.
  - rewrite IH. unfold add_at.
    destruct (list_nat_eqb i (key x)); reflexivity.
Qed.

Lemma nan_sum_some (A : Type) (c : A -> option R) (x : A -> R) (l : list A) :
  (forall i, In i l -> c i = Some (x i)) ->
  nan_sum (map c l) = Some (Rsum (map x l)).
Proof.
  induction l as [|i l IH]; intros Hc; simpl.
  - reflexivity.
  - unfold nan_sum in *. simpl.
    rewrite (Hc i (or_introl eq_refl)), IH by (intros; apply Hc; now right).
    reflexivity.
Qed.


(** *** Self-calibration: counts_from(self, samples) *)

Lemma filter_map_swap {A B : Type} (f : B -> bool) (g : A -> B) (l : list A) :
  filter f (map g l) = map g (filter (fun x => f (g x)) l).
Proof.
  induction l as [|x l IH]; simpl; [reflexivity|].
  destruct (f (g x)); simpl; now rewrite IH.
Qed.

Lemma flat_map_ext_in {A B : Type} (f g : A -> list B) (l : list A) :
  (forall a, In a l -> f a = g a) -> flat_map f l = flat_map g l.
Proof.
  induction l as [|x l IH]; intros H; simpl; [reflexivity|].
  rewrite (H x (or_introl eq_refl)), IH; [reflexivity|].
  intros; apply H; now right.
Qed.

Lemma flat_map_singleton {A B : Type} (g : A -> B) (l : list A) :
  flat_map (fun a => [g a]) l = map g l.
Proof.
  induction l as [|x l IH]; simpl; [reflexivity | now rewrite IH].
Qed.

Lemma filter_all_true {A : Type} (l : list A) :
  filter (fun _ => true) l = l.
Proof.
  induction l as [|x l IH]; simpl; [reflexivity | now rewrite IH].
Qed.

Lemma existsb_all_true {A : Type} (f : A -> bool) (l : list A) :
  l <> [] -> (forall x, In x l -> f x = true) -> existsb f l = true.
Proof.
  intros Hne Hf. destruct l as [|x l]; [contradiction|]. simpl.
  now rewrite (Hf x (or_introl eq_refl)).
Qed.

Section SelfCalibration.

Variable P : MPPovm.
Variable ns : list nat.
Variable m : nat.

(** The measured sites come first. *)
Hypothesis Hdims : outdims P = ns ++ List.repeat 1%nat m.
Hypothesis Hns : Forall (fun d => (1 < d)%nat) ns.
(** The elements are non-zero and no two of them are proportional (as
    judged by the test of [find_matching_elements] with its default
    tolerance). *)
Hypothesis Hpos : forall i, In i (indices ns) -> 0 < normsq P i.
Hypothesis Hdistinct :
  forall i j, In i (indices ns) -> In j (indices ns) -> i <> j ->
              is_match P P eps10 i j = false.

Local Abbreviation P' :=
  (reduce_other (map (fun d => (1 <? d)%nat) (outdims P)) P).
Local Abbreviation M := (match_array P P' eps10).
Local Abbreviation F := (prefactor_array P P' eps10).

Lemma self_dims_ge1 : Forall (fun d => (1 <= d)%nat) (outdims P).
Proof.
  rewrite Hdims. apply Forall_app. split.
  - eapply Forall_impl; [|exact Hns]. simpl. intros; lia.
  - apply Forall_forall. intros d Hd. apply repeat_spec in Hd. lia.
Qed.

Lemma self_prune1 : prune1 (outdims P) = ns.
Proof. rewrite Hdims. now apply prune1_measured_first. Qed.

Lemma self_nsoutdims : nsoutdims P = ns.
Proof. unfold nsoutdims. rewrite Hdims. now apply prune1_measured_first. Qed.

Lemma self_outdims' : outdims P' = outdims P.
Proof. cbn [outdims reduce_other]. apply keep_self, self_dims_ge1. Qed.

Lemma self_support : support P = seq 0 (length ns).
Proof.
  unfold support, len. rewrite Hdims.
  now apply support_measured_first_gen.
Qed.

Lemma self_other_outdims :
  map (fun i => nth i (outdims P) 0%nat) (seq 0 (length ns)) = ns.
Proof.
  rewrite Hdims. exact (nth_measured_first ns (List.repeat 1%nat m) []).
Qed.

Lemma self_match_shape : shape M = ns ++ ns.
Proof.
  cbn [shape match_array]. now rewrite self_outdims', self_prune1.
Qed.

Lemma self_find_matching_elements :
  find_matching_elements P P [] eps10 = Ok (M, F).
Proof.
  apply find_matching_elements_ok.
  - reflexivity.
  - rewrite self_prune1. exact Hpos.
  - rewrite self_outdims', self_prune1. intros j Hj.
    rewrite normsq_reduce_self by apply self_dims_ge1. now apply Hpos.
  - unfold inner_shape. rewrite self_outdims'. apply inner_shape_same.
  - apply Rlt_le, eps10_pos.
Qed.

(** A match is flagged on the diagonal only. *)
Lemma self_match_at (i j : list nat) :
  In i (indices ns) -> In j (indices ns) ->
  at_ M (i ++ j) = list_nat_eqb i j.
Proof.
  intros Hi Hj. cbn [at_ match_array]. rewrite self_prune1.
  rewrite <- (indices_length _ _ Hi), firstn_length_app, skipn_length_app.
  rewrite is_match_reduce_self by apply self_dims_ge1.
  destruct (list_nat_eqb i j) eqn:E.
  - apply list_nat_eqb_true in E. subst j.
    apply is_match_diag; [apply Rlt_le, eps10_pos | now apply Hpos].
  - apply list_nat_eqb_false in E. now apply Hdistinct.
Qed.

(** The prefactor of an element with itself is one. *)
Lemma self_prefactor_at (i : list nat) :
  In i (indices ns) -> at_ F (i ++ i) = Some 1.
Proof.
  intros Hi. pose proof (self_match_at i i Hi Hi) as HM.
  rewrite list_nat_eqb_refl in HM.
  cbn [at_ match_array prefactor_array] in *. rewrite self_prune1 in *.
  rewrite <- (indices_length _ _ Hi), firstn_length_app, skipn_length_app in *.
  rewrite HM, normsq_reduce_self by apply self_dims_ge1.
  f_equal. replace (normsq P i / normsq P i) with 1.
  - apply sqrt_1.
  - field. pose proof (Hpos i Hi). lra.
Qed.

Lemma self_given (i : list nat) :
  In i (indices ns) -> at_ (given_of ns ns M) i = true.
Proof.
  intros Hi. cbn [at_ given_of]. apply existsb_exists.
  exists i. split; [exact Hi|].
  rewrite self_match_at by assumption. apply list_nat_eqb_refl.
Qed.

(** [np.argwhere(match)] lists the diagonal, in the order of the
    outcomes. *)
Lemma self_argwhere :
  filter (at_ M) (indices (shape M)) = map (fun i => i ++ i) (indices ns).
Proof.
  rewrite self_match_shape, indices_app, filter_flat_map.
  rewrite (flat_map_ext_in _ (fun a => [a ++ a])).
  - apply flat_map_singleton.
  - intros a Ha. rewrite filter_map_swap.
    rewrite (filter_unique ns a); [reflexivity | exact Ha |].
    intros b Hb. now apply self_match_at.
Qed.

Lemma self_accumulate (rws : list (list nat)) (n : nat) (i : list nat) :
  n <> 0%nat -> In i (indices ns) ->
  accumulate M F (length ns) rws n i =
  Some (0 + 1 * INR (count_rows i rws) / INR n).
Proof.
  intros Hn Hi. unfold accumulate. rewrite self_argwhere.
  rewrite (fold_add_at (list nat) (fun o => firstn (length ns) o)
             (fun o => weighted_count (at_ F o)
                         (count_rows (skipn (length ns) o) rws) n)).
  rewrite filter_map_swap.
  rewrite (filter_unique ns i).
  - cbn [map fold_left].
    rewrite <- (indices_length _ _ Hi) at 1.
    rewrite skipn_length_app, self_prefactor_at by exact Hi.
    unfold weighted_count.
    destruct (Nat.eqb_spec n 0); [contradiction | reflexivity].
  - exact Hi.
  - intros b Hb.
    now rewrite <- (indices_length _ _ Hb), firstn_length_app.
Qed.

Variable samples : samples_t.
Variable eps : R.

Hypothesis Hsize : (0 < hsize P)%nat.
(** The elements sum to the identity. *)
Hypothesis Hsum :
  forall q, (q < hsize P)%nat ->
    Csum (map (fun i => elem P i q) (indices (outdims P))) = eye_op P q.
(** The samples: one column per measured site, outcomes in range, at
    least one sample. *)
Hypothesis Hcols : ncols samples = length ns.
Hypothesis Hrows : Forall (fun r => In r (indices ns)) (rows samples).
Hypothesis Hn : rows samples <> [].
Hypothesis Heps : 0 <= eps.

Lemma self_indices_nonempty : indices ns <> [].
Proof.
  pose proof Hrows as Hr. pose proof Hn as Hne.
  destruct (rows samples) as [|r rws]; [contradiction|].
  inversion Hr as [|x l Hx _]; subst. intros H0. rewrite H0 in Hx.
  contradiction.
Qed.

Lemma self_select_columns :
  select_columns samples (seq 0 (length ns)) = Ok (rows samples).
Proof.
  unfold select_columns.
  replace (forallb _ (seq 0 (length ns))) with true.
  - f_equal. rewrite <- (map_id (rows samples)) at 2.
    apply map_ext_in. intros r Hr.
    pose proof (proj1 (Forall_forall _ _) Hrows) as Hrows'.
    rewrite <- (indices_length _ _ (Hrows' r Hr)). apply select_all.
  - symmetry. apply forallb_forall. intros pos Hpos'.
    apply in_seq in Hpos'. apply Nat.ltb_lt. rewrite Hcols. lia.
Qed.

Lemma self_used_samples :
  used_samples ns M (rows samples) = length (rows samples).
Proof.
  unfold used_samples. f_equal.
  pose proof (proj1 (Forall_forall _ _) Hrows) as Hrows'.
  rewrite (filter_ext_in _ (fun _ => true)).
  - apply filter_all_true.
  - intros r Hr. apply existsb_exists. exists r.
    split; [now apply Hrows'|].
    rewrite self_match_at by now apply Hrows'. apply list_nat_eqb_refl.
Qed.

Lemma self_total :
  nan_sum (map (accumulate M F (length ns) (rows samples)
                           (length (rows samples)))
               (indices ns)) = Some 1.
Proof.
  assert (Hlen : length (rows samples) <> 0%nat)
    by (destruct (rows samples); [contradiction | discriminate]).
  rewrite (nan_sum_some _ _
             (fun i => 0 + 1 * INR (count_rows i (rows samples))
                               / INR (length (rows samples))))
    by (intros i Hi; now apply self_accumulate).
  f_equal.
  rewrite (map_ext _ (fun i => INR (count_rows i (rows samples))
                               / INR (length (rows samples))))
    by (intros; unfold Rdiv; ring).
  rewrite <- (map_map (fun i => INR (count_rows i (rows samples)))
                      (fun x => x / INR (length (rows samples)))).
  assert (Hdiv : forall (c : R) (l : list R),
             Rsum (map (fun x => x / c) l) = Rsum l / c).
  { intros c l. induction l as [|x l IH]; simpl;
      [unfold Rdiv; ring | rewrite IH; unfold Rdiv; ring]. }
  rewrite Hdiv.
  rewrite <- (map_map (fun i => count_rows i (rows samples)) INR).
  assert (HINR : forall l : list nat, Rsum (map INR l) = INR (list_sum l)).
  { intros l. induction l as [|x l IH]; simpl;
      [reflexivity | now rewrite IH, plus_INR]. }
  rewrite HINR, count_rows_total by exact Hrows.
  field. apply not_0_INR. exact Hlen.
Qed.

(** What self-calibration returns. *)
Lemma counts_from_self :
  exists counts,
    counts_from P P samples eps = Ok (counts, length (rows samples)) /\
    shape counts = ns /\
    forall i, In i (indices ns) ->
      at_ counts i = Some (INR (count_rows i (rows samples))
                           / INR (length (rows samples))).
Proof.
  assert (Hlen : length (rows samples) <> 0%nat)
    by (destruct (rows samples); [contradiction | discriminate]).
  unfold counts_from.
  rewrite Nat.eqb_refl, self_nsoutdims, Hcols, Nat.eqb_refl.
  rewrite self_find_matching_elements. cbn [assert bind fst snd].
  rewrite self_support, self_other_outdims, self_match_shape.
  rewrite list_nat_eqb_refl. cbn [assert bind].
  rewrite (existsb_all_true (at_ (given_of ns ns M)) (indices ns)
             self_indices_nonempty self_given).
  cbn [negb].
  rewrite (elemsum_identity_all P ns m (given_of ns ns M) eps
             Hdims Hsize Hsum eq_refl self_indices_nonempty self_given Heps).
  cbn [bind]. rewrite self_select_columns. cbn [bind].
  replace (forallb (fun r => in_range r ns) (rows samples)) with true.
  2:{ symmetry. apply forallb_forall. intros r Hr.
      pose proof (proj1 (Forall_forall _ _) Hrows) as Hrows'. apply in_range_indices. now apply Hrows'. }
  cbn [bind]. rewrite self_total.
  replace (Rleb (Rabs (1 - 1)) eps) with true.
  2:{ symmetry. apply Rleb_true. replace (1 - 1) with 0 by ring.
      rewrite Rabs_R0. exact Heps. }
  cbn [assert bind]. rewrite self_used_samples.
  eexists. split; [reflexivity|]. split; [reflexivity|].
  intros i Hi. cbn [at_]. rewrite self_given by exact Hi.
  change (at_ (given_of ns ns M) i) with (at_ (given_of ns ns M) i).
  rewrite self_accumulate by assumption. f_equal. unfold Rdiv. ring.
Qed.

Lemma count_samples_ok :
  count_samples P samples =
  Ok (MkArr ns (fun out => count_rows out (rows samples))).
Proof.
  unfold count_samples. rewrite self_nsoutdims. cbn [shape at_].
  rewrite Hcols, Nat.eqb_refl.
  rewrite count_rows_total by exact Hrows. rewrite Nat.eqb_refl.
  reflexivity.
Qed.

End SelfCalibration.


(** *** Further properties of matching and counting *)

(** With equal Hilbert dimensions, non-zero elements on both sides and
    agreeing shapes, [find_matching_elements] returns for every
    [eps >= 0]: the assertion on the Cauchy-Schwarz inequality cannot
    fail. *)
Theorem find_matching_elements_returns (self other : MPPovm) (eps : R) :
  let other' :=
    reduce_other (map (fun d => (1 <? d)%nat) (outdims self)) other in
  hdims self = hdims other ->
  (forall i, In i (indices (prune1 (outdims self))) -> 0 < normsq self i) ->
  (forall j, In j (indices (prune1 (outdims other'))) ->
             0 < normsq other' j) ->
  inner_shape self other' =
    prune1 (outdims self) ++ prune1 (outdims other') ->
  0 <= eps ->
  (forall i j, In i (indices (prune1 (outdims self))) ->
               In j (indices (prune1 (outdims other'))) ->
               0 <= cs_gap self other' i j) /\
  find_matching_elements self other [] eps =
  Ok (match_array self other' eps, prefactor_array self other' eps).
Proof.
  intros other' Hh Hs Ho Hshape Heps. split.
  - intros i j Hi Hj. apply cs_gap_nonneg; auto.
    unfold hsize, other'. cbn [hdims reduce_other]. now rewrite Hh.
  - now apply find_matching_elements_ok.
Qed.

Lemma find_matching_elements_returns_witness :
  (forall i j, In i (indices (prune1 (outdims qubit_z))) ->
               In j (indices (prune1 (outdims
                        (reduce_other (map (fun d => (1 <? d)%nat)
                                           (outdims qubit_z)) qubit_z_half)))) ->
               0 <= cs_gap qubit_z
                      (reduce_other (map (fun d => (1 <? d)%nat)
                                         (outdims qubit_z)) qubit_z_half) i j) /\
  find_matching_elements qubit_z qubit_z_half [] eps10 =
  Ok (match_array qubit_z
        (reduce_other (map (fun d => (1 <? d)%nat) (outdims qubit_z))
                      qubit_z_half) eps10,
      prefactor_array qubit_z
        (reduce_other (map (fun d => (1 <? d)%nat) (outdims qubit_z))
                      qubit_z_half) eps10).
Proof.
  apply (find_matching_elements_returns qubit_z qubit_z_half eps10).
  - reflexivity.
  - intros i Hi. one_site_cases Hi;
      unfold normsq, inner_prod, hsize; simpl; lra.
  - intros j Hj. one_site_cases Hj;
      unfold normsq, inner_prod, hsize; simpl; lra.
  - reflexivity.
  - apply Rlt_le, eps10_pos.
Defined.

(** Error behaviour: different Hilbert dimensions raise [ValueError]
    before anything else is looked at; with equal Hilbert dimensions and
    no duplicate check, an element of [self] of norm zero makes the call
    fail with an [AssertionError]. *)
Theorem find_matching_elements_errors (self other : MPPovm)
  (exclude_dup : list string) (eps : R) :
  (hdims self <> hdims other ->
   find_matching_elements self other exclude_dup eps = Raise ValueError) /\
  (hdims self = hdims other ->
   (exists i, In i (indices (prune1 (outdims self))) /\ normsq self i <= 0) ->
   find_matching_elements self other [] eps = Raise AssertionError).
Proof.
  split.
  - intros Hne. unfold find_matching_elements.
    replace (list_nat_eqb (hdims self) (hdims other)) with false;
      [reflexivity|].
    symmetry. now apply list_nat_eqb_false.
  - intros Hh [i [Hi Hz]]. unfold find_matching_elements.
    replace (list_nat_eqb (hdims self) (hdims other)) with true
      by (symmetry; now apply list_nat_eqb_true).
    change (0 <? length (@nil string))%nat with false.
    cbn [negb bind].
    replace (forallb (fun i0 => Rltb 0 (normsq self i0))
                     (indices (prune1 (outdims self)))) with false;
      [reflexivity|].
    symmetry. apply not_true_is_false. intros Hall.
    rewrite forallb_forall in Hall. specialize (Hall i Hi).
    apply Rltb_true in Hall. lra.
Qed.

(** A one-site MP-POVM whose second element is zero. *)
Definition qubit_with_zero : MPPovm :=
  MkMPPovm [2%nat] [2%nat]
    (fun i q => match i with
                | [O] => elem qubit_z [0%nat] q
                | _ => C0
                end).

Lemma find_matching_elements_errors_witness :
  find_matching_elements qubit_z (MkMPPovm [2%nat] [3%nat] (elem qubit_z))
    ["self"%string] eps10 = Raise ValueError /\
  find_matching_elements qubit_with_zero qubit_z [] eps10 =
  Raise AssertionError.
Proof.
  split.
  - apply (find_matching_elements_errors qubit_z
             (MkMPPovm [2%nat] [3%nat] (elem qubit_z)) ["self"%string] eps10).
    discriminate.
  - apply (find_matching_elements_errors qubit_with_zero qubit_z [] eps10).
    + reflexivity.
    + exists [1%nat]. split; [simpl; auto|].
      unfold normsq, inner_prod, hsize; simpl; lra.
Defined.

(** An MP-POVM whose measured sites come first, with non-zero and
    pairwise non-proportional elements, matches itself exactly on the
    diagonal, with prefactor one. *)
Theorem find_matching_elements_self (P : MPPovm) (ns : list nat) (m : nat) :
  outdims P = ns ++ List.repeat 1%nat m ->
  Forall (fun d => (1 < d)%nat) ns ->
  (forall i, In i (indices ns) -> 0 < normsq P i) ->
  (forall i j, In i (indices ns) -> In j (indices ns) -> i <> j ->
               is_match P P eps10 i j = false) ->
  exists match_ prefactors,
    find_matching_elements P P [] eps10 = Ok (match_, prefactors) /\
    shape match_ = ns ++ ns /\
    (forall i j, In i (indices ns) -> In j (indices ns) ->
                 at_ match_ (i ++ j) = list_nat_eqb i j) /\
    (forall i, In i (indices ns) -> at_ prefactors (i ++ i) = Some 1).
Proof.
  intros Hdims Hns Hpos Hdistinct.
  eexists. eexists. split; [|split; [|split]].
  - apply (self_find_matching_elements P ns m Hdims Hns Hpos).
  - apply (self_match_shape P ns m Hdims Hns).
  - intros i j. apply (self_match_at P ns m Hdims Hns Hpos Hdistinct).
  - intros i. apply (self_prefactor_at P ns m Hdims Hns Hpos Hdistinct).
Qed.

Lemma eps10_lt_1 : eps10 < 1.
Proof.
  unfold eps10. assert (H : 1 < 10 ^ 10) by (simpl; lra).
  apply Rmult_lt_reg_l with (10 ^ 10); [lra|].
  rewrite Rinv_r by lra. lra.
Qed.

Lemma qubit_z_pos (i : list nat) :
  In i (indices [2%nat]) -> 0 < normsq qubit_z i.
Proof.
  intros Hi. one_site_cases Hi; unfold normsq, inner_prod, hsize; simpl; lra.
Qed.

Lemma qubit_z_distinct (i j : list nat) :
  In i (indices [2%nat]) -> In j (indices [2%nat]) -> i <> j ->
  is_match qubit_z qubit_z eps10 i j = false.
Proof.
  intros Hi Hj Hne. pose proof eps10_lt_1 as He.
  one_site_cases Hi; one_site_cases Hj; try contradiction;
    unfold is_match; apply Rleb_false;
    unfold inner_abs2, normprod, normsq, inner_prod, hsize, Cnormsq; simpl;
    match goal with
    | |- _ < Rabs ?x => replace x with (-1) by (field; lra)
    end;
    unfold Rabs; destruct (Rcase_abs (-1)); lra.
Qed.

Lemma find_matching_elements_self_witness :
  exists match_ prefactors,
    find_matching_elements qubit_z qubit_z [] eps10 = Ok (match_, prefactors) /\
    shape match_ = [2%nat] ++ [2%nat] /\
    (forall i j, In i (indices [2%nat]) -> In j (indices [2%nat]) ->
                 at_ match_ (i ++ j) = list_nat_eqb i j) /\
    (forall i, In i (indices [2%nat]) -> at_ prefactors (i ++ i) = Some 1).
Proof.
  apply (find_matching_elements_self qubit_z [2%nat] 0).
  - reflexivity.
  - repeat constructor.
  - exact qubit_z_pos.
  - exact qubit_z_distinct.
Defined.


(** *** count_samples *)

Lemma count_rows_sum_cons (shp r : list nat) (rws : list (list nat)) :
  list_sum (map (fun i => count_rows i (r :: rws)) (indices shp)) =
  ((if in_dec (list_eq_dec Nat.eq_dec) r (indices shp) then 1 else 0)
   + list_sum (map (fun i => count_rows i rws) (indices shp)))%nat.
Proof.
  rewrite (map_ext (fun i => count_rows i (r :: rws))
                   (fun i => ((if list_nat_eqb i r then 1 else 0)
                              + count_rows i rws)%nat))
    by (intros; apply count_rows_cons).
  assert (Hadd : forall (l : list (list nat)) (f g : list nat -> nat),
             list_sum (map (fun i => (f i + g i)%nat) l) =
             (list_sum (map f l) + list_sum (map g l))%nat).
  { intros l f g. induction l as [|b l IHl]; simpl; [reflexivity|].
    rewrite IHl. lia. }
  rewrite Hadd. f_equal.
  destruct (in_dec (list_eq_dec Nat.eq_dec) r (indices shp)) as [Hin|Hout].
  - now apply list_sum_indicator.
  - assert (Hz : forall l : list (list nat), ~ In r l ->
               list_sum (map (fun i => if list_nat_eqb i r then 1%nat else 0%nat) l)
               = 0%nat).
    { intros l. induction l as [|b l IHl]; intros Hn; simpl; [reflexivity|].
      destruct (list_nat_eqb b r) eqn:E.
      - apply list_nat_eqb_true in E. subst. exfalso. apply Hn. now left.
      - apply IHl. intros Hl. apply Hn. now right. }
    now apply Hz.
Qed.

Lemma count_rows_sum_le (shp : list nat) (rws : list (list nat)) :
  (list_sum (map (fun i => count_rows i rws) (indices shp)) <= length rws)%nat.
Proof.
  induction rws as [|r rws IH].
  - unfold count_rows. simpl. induction (indices shp); simpl; lia.
  - rewrite count_rows_sum_cons. simpl length.
    destruct (in_dec (list_eq_dec Nat.eq_dec) r (indices shp)); lia.
Qed.

Lemma count_rows_sum_lt (shp : list nat) (rws : list (list nat)) :
  Exists (fun r => ~ In r (indices shp)) rws ->
  (list_sum (map (fun i => count_rows i rws) (indices shp)) < length rws)%nat.
Proof.
  induction 1 as [r rws Hr | r rws _ IH]; rewrite count_rows_sum_cons;
    simpl length.
  - destruct (in_dec (list_eq_dec Nat.eq_dec) r (indices shp));
      [contradiction|].
    pose proof (count_rows_sum_le shp rws). lia.
  - destruct (in_dec (list_eq_dec Nat.eq_dec) r (indices shp)); lia.
Qed.

(** [count_samples] returns the histogram of the samples when every
    sample is an outcome of [self]; the counts then add up to the number
    of samples.  It fails with an [AssertionError] when the array has the
    wrong number of columns or when some sample is not an outcome. *)
Theorem count_samples_histogram (P : MPPovm) (samples : samples_t) :
  (ncols samples = length (nsoutdims P) ->
   Forall (fun r => In r (indices (nsoutdims P))) (rows samples) ->
   count_samples P samples =
     Ok (MkArr (nsoutdims P) (fun out => count_rows out (rows samples))) /\
   list_sum (map (fun out => count_rows out (rows samples))
                 (indices (nsoutdims P))) = length (rows samples)) /\
  (ncols samples <> length (nsoutdims P) ->
   count_samples P samples = Raise AssertionError) /\
  (Exists (fun r => ~ In r (indices (nsoutdims P))) (rows samples) ->
   count_samples P samples = Raise AssertionError).
Proof.
  split; [|split].
  - intros Hc Hr. pose proof (count_rows_total _ _ Hr) as Ht. split; [|exact Ht].
    unfold count_samples. cbn [shape at_].
    rewrite Hc, Nat.eqb_refl, Ht, Nat.eqb_refl. reflexivity.
  - intros Hc. unfold count_samples. cbn [shape at_].
    destruct (Nat.eqb_spec (ncols samples) (length (nsoutdims P)));
      [contradiction | reflexivity].
  - intros He. unfold count_samples. cbn [shape at_].
    destruct (ncols samples =? length (nsoutdims P))%nat; [|reflexivity].
    cbn [assert bind].
    pose proof (count_rows_sum_lt _ _ He) as Hlt.
    destruct (Nat.eqb_spec
                (list_sum (map (fun out => count_rows out (rows samples))
                               (indices (nsoutdims P))))
                (length (rows samples))); [lia | reflexivity].
Qed.

Definition two_zeros : samples_t := MkSamples 1 [[0%nat]; [0%nat]].

Lemma count_samples_histogram_witness :
  (count_samples qubit_z two_zeros =
     Ok (MkArr (nsoutdims qubit_z)
               (fun out => count_rows out (rows two_zeros))) /\
   list_sum (map (fun out => count_rows out (rows two_zeros))
                 (indices (nsoutdims qubit_z))) = length (rows two_zeros)) /\
  count_samples qubit_z (MkSamples 2 [[0%nat]]) = Raise AssertionError /\
  count_samples qubit_z (MkSamples 1 [[0%nat]; [2%nat]]) = Raise AssertionError.
Proof.
  split; [|split].
  - apply (proj1 (count_samples_histogram qubit_z two_zeros)).
    + reflexivity.
    + repeat constructor; simpl; auto.
  - apply (proj1 (proj2 (count_samples_histogram qubit_z
                           (MkSamples 2 [[0%nat]])))).
    intros H. vm_compute in H. discriminate H.
  - apply (proj2 (proj2 (count_samples_histogram qubit_z
                           (MkSamples 1 [[0%nat]; [2%nat]])))).
    apply Exists_cons_tl, Exists_cons_hd. simpl.
    intros [H|[H|[]]]; discriminate.
Defined.

(** *** counts_from on the samples of [self] *)

(** For an MP-POVM whose measured sites come first, whose elements are
    non-zero, pairwise non-proportional and sum to the identity, and for
    at least one sample, all samples being outcomes:
    [counts_from(self, samples)] returns, outcome by outcome, the count
    of [count_samples] divided by the number of samples, and every sample
    is used. *)
Theorem counts_from_self_is_normalised_histogram
  (P : MPPovm) (ns : list nat) (m : nat) (samples : samples_t) (eps : R) :
  outdims P = ns ++ List.repeat 1%nat m ->
  Forall (fun d => (1 < d)%nat) ns ->
  (forall i, In i (indices ns) -> 0 < normsq P i) ->
  (forall i j, In i (indices ns) -> In j (indices ns) -> i <> j ->
               is_match P P eps10 i j = false) ->
  (0 < hsize P)%nat ->
  (forall q, (q < hsize P)%nat ->
     Csum (map (fun i => elem P i q) (indices (outdims P))) = eye_op P q) ->
  ncols samples = length ns ->
  Forall (fun r => In r (indices ns)) (rows samples) ->
  rows samples <> [] ->
  0 <= eps ->
  exists counts hist,
    counts_from P P samples eps = Ok (counts, length (rows samples)) /\
    count_samples P samples = Ok hist /\
    shape counts = shape hist /\
    forall i, In i (indices (shape hist)) ->
      at_ counts i = Some (INR (at_ hist i) / INR (length (rows samples))).
Proof.
  intros Hdims Hns Hpos Hdist Hsize Hsum Hcols Hrows Hn Heps.
  destruct (counts_from_self P ns m Hdims Hns Hpos Hdist samples eps
              Hsize Hsum Hcols Hrows Hn Heps) as [counts [Hc [Hs Hat]]].
  exists counts, (MkArr ns (fun out => count_rows out (rows samples))).
  split; [exact Hc|]. split.
  - apply (count_samples_ok P ns m Hdims Hns samples Hcols Hrows).
  - split; [exact Hs | exact Hat].
Qed.

Lemma qubit_z_sums_to_identity (q : nat) :
  (q < hsize qubit_z)%nat ->
  Csum (map (fun i => elem qubit_z i q) (indices (outdims qubit_z))) =
  eye_op qubit_z q.
Proof.
  intros Hq. unfold hsize in Hq. simpl in Hq.
  destruct q as [|[|[|[|q]]]]; try lia;
    unfold eye_op; simpl; apply C_eq; simpl; ring.
Qed.

Lemma counts_from_self_is_normalised_histogram_witness :
  exists counts hist,
    counts_from qubit_z qubit_z two_zeros eps10 =
      Ok (counts, length (rows two_zeros)) /\
    count_samples qubit_z two_zeros = Ok hist /\
    shape counts = shape hist /\
    forall i, In i (indices (shape hist)) ->
      at_ counts i = Some (INR (at_ hist i) / INR (length (rows two_zeros))).
Proof.
  apply (counts_from_self_is_normalised_histogram
           qubit_z [2%nat] 0 two_zeros eps10).
  - reflexivity.
  - repeat constructor.
  - exact qubit_z_pos.
  - exact qubit_z_distinct.
  - unfold hsize; simpl; lia.
  - exact qubit_z_sums_to_identity.
  - reflexivity.
  - repeat constructor; simpl; auto.
  - discriminate.
  - apply Rlt_le, eps10_pos.
Defined.

(** *** _elemsum_identity *)

(** For an MP-POVM whose measured sites come first and whose elements
    sum to the identity, [_elemsum_identity] on the support of the
    MP-POVM with every outcome selected returns the fraction one; a
    selection without any outcome fails with an [AssertionError]. *)
Theorem elemsum_identity_of_povm (self : MPPovm) (ns : list nat) (m : nat)
  (given : ndarray bool) (eps : R) :
  outdims self = ns ++ List.repeat 1%nat m ->
  Forall (fun d => (1 < d)%nat) ns ->
  (0 < hsize self)%nat ->
  (forall q, (q < hsize self)%nat ->
     Csum (map (fun i => elem self i q) (indices (outdims self))) =
     eye_op self q) ->
  shape given = ns ->
  0 <= eps ->
  ((forall i, In i (indices ns) -> at_ given i = true) ->
   elemsum_identity self (support self) given eps = Ok (Some 1)) /\
  ((forall i, In i (indices ns) -> at_ given i = false) ->
   elemsum_identity self (support self) given eps = Raise AssertionError).
Proof.
  intros Hdims Hns Hn Hsum Hshape Heps. split.
  - intros Hgiven. unfold support, len. rewrite Hdims at 1 2.
    rewrite support_measured_first_gen by exact Hns.
    apply (elemsum_identity_all self ns m); auto.
    assert (Hex : exists i, In i (indices ns)).
    { exists (map (fun _ => 0%nat) ns). apply in_indices.
      clear -Hns. induction Hns as [|d ns Hd _ IH]; simpl; constructor;
        [lia | exact IH]. }
    destruct Hex as [i Hi]. intros E. rewrite E in Hi. exact Hi.
  - intros Hgiven. unfold elemsum_identity. rewrite Hshape.
    replace (existsb (fun b => b) (map (at_ given) (indices ns))) with false;
      [reflexivity|].
    symmetry. apply not_true_is_false. intros Hex.
    apply existsb_exists in Hex. destruct Hex as [b [Hb Hbt]].
    apply in_map_iff in Hb. destruct Hb as [i [Hi Hin]].
    rewrite (Hgiven i Hin) in Hi. congruence.
Qed.

Lemma elemsum_identity_of_povm_witness :
  elemsum_identity qubit_z (support qubit_z)
    (MkArr [2%nat] (fun _ => true)) eps10 = Ok (Some 1).
Proof.
  apply (proj1 (elemsum_identity_of_povm qubit_z [2%nat] 0
                  (MkArr [2%nat] (fun _ => true)) eps10
                  eq_refl
                  (Forall_cons 2%nat (Nat.lt_succ_diag_r 1) (Forall_nil _))
                  (Nat.lt_0_succ 3)
                  qubit_z_sums_to_identity
                  eq_refl
                  (Rlt_le _ _ eps10_pos))).
  intros i _. reflexivity.
Defined.

(** *** est_fun: the estimate is a sample mean, the variance a sample variance *)

Lemma Rsum_map_add {X : Type} (f g : X -> R) (l : list X) :
  Rsum (map (fun x => f x + g x) l) = Rsum (map f l) + Rsum (map g l).
Proof.
  induction l as [|x l IH]; simpl; [ring | rewrite IH; ring].
Qed.

Lemma Rsum_map_scal {X : Type} (c : R) (f : X -> R) (l : list X) :
  Rsum (map (fun x => c * f x) l) = c * Rsum (map f l).
Proof.
  induction l as [|x l IH]; simpl; [ring | rewrite IH; ring].
Qed.

Lemma Rsum_map_zero {X : Type} (l : list X) : Rsum (map (fun _ => 0) l) = 0.
Proof.
  induction l as [|x l IH]; simpl; [reflexivity | rewrite IH; ring].
Qed.

Lemma Rsum_map_ext {X : Type} (f g : X -> R) (l : list X) :
  (forall x, f x = g x) -> Rsum (map f l) = Rsum (map g l).
Proof. intros H. f_equal. now apply map_ext. Qed.

Lemma Rsum_product {X Y : Type} (u : X -> R) (v : Y -> R)
  (l : list X) (m : list Y) :
  Rsum (map u l) * Rsum (map v m) =
  Rsum (map (fun x => Rsum (map (fun y => u x * v y) m)) l).
Proof.
  induction l as [|x l IH]; simpl; [ring|].
  rewrite <- IH, Rsum_map_scal. ring.
Qed.

Lemma nth_seq_list (row : list R) :
  row = map (fun s => nth s row 0) (seq 0 (length row)).
Proof.
  induction row as [|x row IH]; [reflexivity|].
  cbn [length seq map nth]. f_equal.
  rewrite <- seq_shift, map_map. exact IH.
Qed.

Lemma Rsum_nth (n : nat) (row : list R) :
  length row = n -> Rsum row = Rsum (map (fun s => nth s row 0) (seq 0 n)).
Proof. intros <-. now rewrite <- nth_seq_list. Qed.

Lemma inner_nth (n : nat) (a b : list R) :
  length a = n -> length b = n ->
  inner a b = Rsum (map (fun s => nth s a 0 * nth s b 0) (seq 0 n)).
Proof.
  unfold inner. revert b n.
  induction a as [|x a IH]; intros [|y b] n Ha Hb; simpl in *; subst;
    try discriminate; [reflexivity|].
  cbn [seq map nth Rsum fst snd]. f_equal.
  rewrite <- seq_shift, map_map. apply IH; [reflexivity | lia].
Qed.

Lemma inner_map_r {X : Type} (c : list R) (h : X -> R) (F : list X) :
  inner c (map h F) = Rsum (map (fun x => fst x * h (snd x)) (combine c F)).
Proof.
  unfold inner. revert F.
  induction c as [|w c IH]; intros [|f F]; simpl; try reflexivity.
  now rewrite IH.
Qed.

Lemma inner_map_l {X : Type} (c : list R) (h : X -> R) (F : list X) :
  inner (map h F) c = Rsum (map (fun x => fst x * h (snd x)) (combine c F)).
Proof.
  unfold inner. revert F.
  induction c as [|w c IH]; intros [|f F]; simpl; try reflexivity.
  rewrite IH. ring.
Qed.

(** The quadratic form [coeff . cov . coeff] in terms of second moments
    [D] and first moments [e]. *)
Lemma quad_form {X : Type} (Q : list X) (w e : X -> R) (D : X -> X -> R)
  (n t : R) :
  Rsum (map (fun x =>
               w x * Rsum (map (fun y => w y * ((D x y / n - e x * e y) * t))
                               Q)) Q) =
  t * (Rsum (map (fun x => Rsum (map (fun y => w x * w y * D x y) Q)) Q) / n
       - Rsum (map (fun x => w x * e x) Q) * Rsum (map (fun y => w y * e y) Q)).
Proof.
  set (E := Rsum (map (fun y => w y * e y) Q)).
  assert (Hin : forall x (Q2 : list X),
             Rsum (map (fun y => w y * ((D x y / n - e x * e y) * t)) Q2) =
             t * (Rsum (map (fun y => w y * D x y) Q2) / n
                  - e x * Rsum (map (fun y => w y * e y) Q2))).
  { intros x Q2. induction Q2 as [|y Q2 IH]; simpl.
    - unfold Rdiv. ring.
    - rewrite IH. unfold Rdiv. ring. }
  assert (Hout : forall Q1 : list X,
             Rsum (map (fun x =>
                          w x * Rsum (map (fun y =>
                                             w y * ((D x y / n - e x * e y) * t))
                                          Q)) Q1) =
             t * (Rsum (map (fun x =>
                               Rsum (map (fun y => w x * w y * D x y) Q)) Q1) / n
                  - Rsum (map (fun x => w x * e x) Q1) * E)).
  { intros Q1. induction Q1 as [|x Q1 IH]; simpl.
    - unfold Rdiv. ring.
    - rewrite IH, Hin. fold E.
      rewrite (Rsum_map_ext (fun y => w x * w y * D x y)
                            (fun y => w x * (w y * D x y)))
        by (intros; ring).
      rewrite Rsum_map_scal. unfold Rdiv. ring. }
  apply Hout.
Qed.

Lemma sum_of_products {X : Type} (Q : list X) (w : X -> R)
  (a : X -> nat -> R) (S : list nat) :
  Rsum (map (fun x =>
               Rsum (map (fun y =>
                            w x * w y * Rsum (map (fun s => a x s * a y s) S))
                         Q)) Q) =
  Rsum (map (fun s => Rsum (map (fun x => w x * a x s) Q)
                      * Rsum (map (fun x => w x * a x s) Q)) S).
Proof.
  induction S as [|s S IH].
  - simpl.
    rewrite (Rsum_map_ext _ (fun _ : X => 0)); [apply Rsum_map_zero|].
    intros x. rewrite (Rsum_map_ext _ (fun _ : X => 0));
      [apply Rsum_map_zero | intros; ring].
  - cbn [map Rsum]. rewrite <- IH, Rsum_product, <- Rsum_map_add.
    apply Rsum_map_ext. intros x. rewrite <- Rsum_map_add.
    apply Rsum_map_ext. intros y. ring.
Qed.

Lemma sum_of_means {X : Type} (Q : list X) (w : X -> R)
  (a : X -> nat -> R) (S : list nat) (n : R) :
  Rsum (map (fun x => w x * (Rsum (map (a x) S) / n)) Q) =
  Rsum (map (fun s => Rsum (map (fun x => w x * a x s) Q)) S) / n.
Proof.
  induction S as [|s S IH].
  - simpl. rewrite (Rsum_map_ext _ (fun _ : X => 0));
      [rewrite Rsum_map_zero | intros]; unfold Rdiv; ring.
  - cbn [map Rsum].
    rewrite (Rsum_map_ext _
               (fun x => / n * (w x * a x s)
                         + w x * (Rsum (map (a x) S) / n)))
      by (intros; unfold Rdiv; ring).
    rewrite Rsum_map_add, IH, Rsum_map_scal. unfold Rdiv. ring.
Qed.

Lemma sum_of_deviations (g : nat -> R) (S : list nat) (m : R) :
  Rsum (map (fun s => (g s - m) * (g s - m)) S) =
  Rsum (map (fun s => g s * g s) S) - 2 * m * Rsum (map g S)
  + INR (length S) * m * m.
Proof.
  induction S as [|s S IH].
  - simpl. ring.
  - cbn [map Rsum length]. rewrite IH, S_INR. ring.
Qed.

Lemma broadcast_rows_ok (n : nat) (funs : list (samples_t -> list R))
  (samples : samples_t) :
  (forall f, In f funs -> length (f samples) = n) ->
  Train.sequence (map (fun f => broadcast_row n (f samples)) funs) =
  Ok (map (fun f => f samples) funs).
Proof.
  intros Hlen. apply TrainFacts.sequence_map_ok. intros f Hf.
  unfold broadcast_row. now rewrite (Hlen f Hf), Nat.eqb_refl.
Qed.

(** [est_fun] with coefficients and unweighted samples, every function
    returning one value per sample.  With fewer than two samples the
    call divides by zero.  With [n >= 2] samples it returns, for the
    combined function [g(s) = sum_k coeff[k] * funs[k](samples)[s]], the
    sample mean of [g] and the unbiased sample variance of [g] divided
    by [n]; this variance is not negative, so the assertion on it cannot
    fail for [eps >= 0] and the result is never clipped. *)
Theorem est_fun_mean_variance (self : MPPovm) (coeff : list R)
  (funs : list (samples_t -> list R)) (samples : samples_t) (eps : R) :
  let n := length (rows samples) in
  let g := fun s => inner coeff (map (fun f => nth s (f samples) 0) funs) in
  let mean := Rsum (map g (seq 0 n)) / INR n in
  let var := Rsum (map (fun s => (g s - mean) * (g s - mean)) (seq 0 n))
             / (INR n * (INR n - 1)) in
  length coeff = length funs ->
  ncols samples = length (nsoutdims self) ->
  (forall f, In f funs -> length (f samples) = n) ->
  0 <= eps ->
  ((n <= 1)%nat ->
   est_fun self (Some coeff) funs samples eps = Raise ZeroDivisionError) /\
  ((2 <= n)%nat ->
   est_fun self (Some coeff) funs samples eps = Ok (Estimate mean var) /\
   0 <= var).
Proof.
  intros n g mean var Hc Hcols Hlen Heps.
  unfold est_fun. rewrite Hc, Nat.eqb_refl, Hcols, Nat.eqb_refl.
  cbn [assert bind].
  rewrite (broadcast_rows_ok (length (rows samples)) funs samples Hlen).
  cbn [bind]. fold n. split.
  - intros Hn.
    replace ((n =? 1) || (n =? 0))%nat with true; [reflexivity|].
    destruct n as [|[|k]]; [reflexivity | reflexivity | lia].
  - intros Hn.
    replace ((n =? 1) || (n =? 0))%nat with false
      by (destruct n as [|[|k]]; [lia | lia | reflexivity]).
    assert (HnR : 2 <= INR n) by (apply (le_INR 2 n Hn)).
    set (Q := combine coeff funs).
    set (a := fun (x : R * (samples_t -> list R)) (s : nat) =>
                nth s (snd x samples) 0).
    assert (HQ : forall x, In x Q -> length (snd x samples) = n).
    { intros [w f] Hx. apply in_combine_r in Hx. now apply Hlen. }
    assert (Hg : forall s, g s = Rsum (map (fun x => fst x * a x s) Q)).
    { intros s. unfold g. now rewrite inner_map_r. }
    (* the estimate *)
    assert (Hest : inner coeff (map (fun row => Rsum row / INR n)
                                    (map (fun f => f samples) funs)) = mean).
    { rewrite map_map, inner_map_r. fold Q.
      rewrite (map_ext_in _ (fun x => fst x
                                      * (Rsum (map (a x) (seq 0 n)) / INR n))).
      - rewrite sum_of_means. unfold mean. f_equal.
        apply Rsum_map_ext. intros s. now rewrite Hg.
      - intros x Hx. now rewrite (Rsum_nth n (snd x samples) (HQ x Hx)). }
    (* the variance *)
    set (t := INR n / (INR n - 1) / INR n).
    assert (Hvar :
      inner coeff
        (map (fun cov_row => inner cov_row coeff)
           (map (fun rk =>
                   map (fun rl =>
                          (inner rk rl / INR n
                           - Rsum rk / INR n * (Rsum rl / INR n)) * t)
                       (map (fun f => f samples) funs))
                (map (fun f => f samples) funs))) = var).
    { rewrite !map_map, inner_map_r. fold Q.
      rewrite (map_ext_in _
                 (fun x => fst x
                    * Rsum (map (fun y =>
                                   fst y
                                   * ((Rsum (map (fun s => a x s * a y s)
                                                 (seq 0 n)) / INR n
                                       - Rsum (map (a x) (seq 0 n)) / INR n
                                         * (Rsum (map (a y) (seq 0 n)) / INR n))
                                      * t)) Q))).
      - rewrite (quad_form Q fst
                   (fun x => Rsum (map (a x) (seq 0 n)) / INR n)
                   (fun x y => Rsum (map (fun s => a x s * a y s) (seq 0 n)))).
        rewrite sum_of_products, sum_of_means.
        rewrite (Rsum_map_ext
                   (fun s => Rsum (map (fun x => fst x * a x s) Q)
                             * Rsum (map (fun x => fst x * a x s) Q))
                   (fun s => g s * g s))
          by (intros; now rewrite Hg).
        rewrite (Rsum_map_ext
                   (fun s => Rsum (map (fun x => fst x * a x s) Q)) g)
          by (intros; now rewrite Hg).
        fold mean. unfold var.
        rewrite sum_of_deviations, length_seq.
        assert (Hsum : Rsum (map g (seq 0 n)) = INR n * mean)
          by (unfold mean; field; lra).
        rewrite Hsum. unfold t. field. lra.
      - intros x Hx. f_equal.
        rewrite (map_map (fun f : samples_t -> list R => f samples)).
        rewrite inner_map_l. fold Q.
        f_equal. apply map_ext_in. intros y Hy.
        rewrite (inner_nth n _ _ (HQ x Hx) (HQ y Hy)).
        rewrite (Rsum_nth n _ (HQ x Hx)), (Rsum_nth n _ (HQ y Hy)).
        reflexivity. }
    fold t. rewrite Hest, Hvar.
    assert (Hpos : 0 <= var).
    { unfold var. apply Rmult_le_pos.
      - apply Rsum_nonneg, Forall_forall. intros x Hx.
        apply in_map_iff in Hx. destruct Hx as [s [<- _]].
        apply (Rle_0_sqr (g s - mean)).
      - apply Rlt_le, Rinv_0_lt_compat, Rmult_lt_0_compat; lra. }
    replace (Rleb (- eps) var) with true
      by (symmetry; apply Rleb_true; lra).
    cbn [assert bind].
    replace (Rltb var 0) with false by (symmetry; apply Rltb_false; lra).
    split; [reflexivity | exact Hpos].
Qed.

(** The first outcome of every sample, as a real number. *)
Definition first_outcome (s : samples_t) : list R :=
  map (fun r => INR (hd 0%nat r)) (rows s).

Lemma est_fun_mean_variance_witness :
  est_fun qubit_z (Some [1]) [first_outcome] (MkSamples 1 [[0%nat]]) eps10
  = Raise ZeroDivisionError /\
  exists mean var,
    est_fun qubit_z (Some [1]) [first_outcome]
            (MkSamples 1 [[0%nat]; [1%nat]]) eps10 = Ok (Estimate mean var) /\
    0 <= var.
Proof.
  split.
  - apply (est_fun_mean_variance qubit_z [1] [first_outcome]
             (MkSamples 1 [[0%nat]]) eps10).
    + reflexivity.
    + reflexivity.
    + intros f [<-|[]]. reflexivity.
    + apply Rlt_le, eps10_pos.
    + simpl. lia.
  - eexists. eexists.
    apply (est_fun_mean_variance qubit_z [1] [first_outcome]
             (MkSamples 1 [[0%nat]; [1%nat]]) eps10).
    + reflexivity.
    + reflexivity.
    + intros f [<-|[]]. reflexivity.
    + apply Rlt_le, eps10_pos.
    + simpl. lia.
Defined.

End DenseFacts.
